(** * ARCHIVIS external drive scanner

    A shallow embedding of [scan_external_drives.py] and the properties of
    its name allocator, identity resolution, registry updates and
    directory-tree scanner.

    Scope of the model.  Strings are ASCII.  A registry entry is a record of
    the keys the program reads and writes.  The file tree below a mount
    point is a finite tree that does not change during a scan (no symbolic
    links back into it), small enough for Python's recursion limit.  The
    clock, standard input, the registry file and the snapshot directory are
    explicit parts of the state; messages printed to the terminal are left
    out.  The registry file can always be written; whether a snapshot can
    be opened for writing is up to the file system, which the platform
    answers for. *)

From Stdlib Require Import ZArith NArith QArith Ascii String List Permutation Lia.
From stdpp Require Import gmap strings list pretty.

Set Warnings "-register-all".

Local Open Scope string_scope.
Local Open Scope Z_scope.

(** ** Python string helpers

    Python [str] values are modelled as [string] (sequences of 8-bit
    characters); the model covers ASCII text, on which [str.upper] maps
    [a-z] to [A-Z] and [str.strip] removes the ASCII whitespace characters
    for which [str.isspace] holds. *)

Module PyStr.

Definition upper_ascii (c : ascii) : ascii :=
  let n := N_of_ascii c in
  if ((97 <=? n) && (n <=? 122))%N then ascii_of_N (n - 32) else c.

Fixpoint upper (s : string) : string :=
  match s with
  | EmptyString => EmptyString
  | String c rest => String (upper_ascii c) (upper rest)
  end.

Definition isspace (c : ascii) : bool :=
  let n := N_of_ascii c in
  (((9 <=? n) && (n <=? 13)) || ((28 <=? n) && (n <=? 32)))%N.

Fixpoint lstrip (s : string) : string :=
  match s with
  | EmptyString => EmptyString
  | String c rest => if isspace c then lstrip rest else s
  end.

Fixpoint rstrip (s : string) : string :=
  match s with
  | EmptyString => EmptyString
  | String c rest =>
      match rstrip rest with
      | EmptyString => if isspace c then EmptyString else String c EmptyString
      | r => String c r
      end
  end.

Definition strip (s : string) : string := rstrip (lstrip s).

(** Truthiness of a [str]: the empty string is falsy. *)
Definition truthy (s : string) : bool :=
  match s with EmptyString => false | _ => true end.

(** [sep.join(parts)] *)
Fixpoint join (sep : string) (parts : list string) : string :=
  match parts with
  | [] => EmptyString
  | [p] => p
  | p :: rest => p +:+ sep +:+ join sep rest
  end.

End PyStr.

(** ** Data model *)

(** The naming-rules configuration document ([naming_rules.json]).  JSON
    numbers are integers or binary floating-point values, all of them
    rationals; Python compares them with a float exactly. *)
Record NamingRules := {
  large_drive_threshold_tb : Q;
  medium_drive_threshold_tb : Q;
  large_names : list string;
  medium_names : list string;
  small_names : list string
}.

(** A volume descriptor, as built by [get_external_drives]. *)
Module Drive.
Record t := {
  device_identifier : string;
  volume_uuid : string;
  volume_name : string;
  mount_point : string;
  capacity_bytes : Z;
  free_bytes : Z;
  file_system : string
}.
End Drive.

(** A registry entry, one element of [registry['locations']].  The keys
    read with [dict.get] may be absent. *)
Module Location.
Record t := {
  id : string;
  kind : string;
  volume_uuid : option string;
  device_identifier : option string;
  name : string;
  capacity_bytes : Z;
  first_seen : string;
  last_scanned : string;
  status : string
}.

Definition set_last_scanned (now : string) (l : t) : t :=
  {| id := id l; kind := kind l; volume_uuid := volume_uuid l;
     device_identifier := device_identifier l; name := name l;
     capacity_bytes := capacity_bytes l; first_seen := first_seen l;
     last_scanned := now; status := status l |}.
End Location.

(** ** NameAllocator: [_get_used_names] and [_get_available_name] *)

Definition _get_used_names (locations : list Location.t) : gset string :=
  list_to_set (map Location.id locations).

(** [int / int] in Python is the correctly rounded double nearest to the
    quotient.  Dividing by [1024 ** 4 = 2^40] only shifts the exponent, so
    the result is the nearest double to the dividend (ties to even, exact
    below [2^53]) over [2^40].  Capacities of [2^1064] bytes and more, for
    which Python raises [OverflowError], are outside the model. *)
Definition round_to_double (n : Z) : Z :=
  let a := Z.abs n in
  let k := Z.log2 a - 52 in
  if k <=? 0 then n
  else
    let q := a / 2 ^ k in
    let r := a mod 2 ^ k in
    let half := 2 ^ (k - 1) in
    let q' := if (half <? r) || ((r =? half) && Z.odd q) then q + 1 else q in
    Z.sgn n * (q' * 2 ^ k).

Definition to_tb (bytes : Z) : Q := Qmake (round_to_double bytes) (2 ^ 40).

Inductive category := large | medium | small.

Definition select_category (rules : NamingRules) (capacity_tb : Q) : category :=
  if Qle_bool (large_drive_threshold_tb rules) capacity_tb then large
  else if Qle_bool (medium_drive_threshold_tb rules) capacity_tb then medium
  else small.

Definition name_pool (rules : NamingRules) (c : category) : list string :=
  match c with
  | large => large_names rules
  | medium => medium_names rules
  | small => small_names rules
  end.

(** The [for name in name_pool] loop: the first name whose uppercase form is
    not in [used_names], or [None] when the loop runs to its end. *)
Fixpoint first_available (used_names : gset string) (pool : list string)
  : option string :=
  match pool with
  | [] => None
  | name :: rest =>
      if decide (PyStr.upper name ∈ used_names) then first_available used_names rest
      else Some name
  end.

Definition _get_available_name (rules : NamingRules)
    (locations : list Location.t) (capacity_bytes : Z) : option string :=
  let capacity_tb := to_tb capacity_bytes in
  let used_names := _get_used_names locations in
  first_available used_names (name_pool rules (select_category rules capacity_tb)).

(** ** IdentityResolver: [find_drive_in_registry] *)

Definition uuid_matches (uuid : string) (location : Location.t) : bool :=
  PyStr.truthy uuid && bool_decide (Location.volume_uuid location = Some uuid).

Definition device_matches (device : string) (location : Location.t) : bool :=
  PyStr.truthy device && bool_decide (Location.device_identifier location = Some device).

Definition is_external_drive (location : Location.t) : bool :=
  String.eqb (Location.kind location) "external_drive".

Fixpoint find_drive_in_registry (locations : list Location.t)
    (drive_info : Drive.t) : option Location.t :=
  let uuid := Drive.volume_uuid drive_info in
  let device := Drive.device_identifier drive_info in
  match locations with
  | [] => None
  | location :: rest =>
      if is_external_drive location then
        if uuid_matches uuid location then Some location
        else if device_matches device location then Some location
        else find_drive_in_registry rest drive_info
      else find_drive_in_registry rest drive_info
  end.

(** ** TreeScanner *)

(** What [pathlib] can observe of a path.  Directory listings keep the
    platform's enumeration order. *)
Inductive node :=
| File (st_size : N)                    (* regular file; [stat] succeeds *)
| Dir (entries : list (string * node))  (* directory; [iterdir] succeeds *)
| Locked      (* directory whose [iterdir] raises [PermissionError] *)
| Other       (* neither file nor directory: [is_file], [is_dir] are False *)
| Broken.     (* [is_file] / [is_dir] raise [PermissionError] *)

Record DirectoryStat := {
  relative_path : string;
  depth : Z;
  size_bytes : N;
  file_count : N
}.

(** [get_dir_size_and_files]: the [try] around [iterdir] turns a failed
    listing into [(0, 0)]; the inner [try] skips items that raise.  The
    [for item in path.iterdir()] loop is [size_loop], over the recursive
    call. *)
Definition size_loop (get_dir_size_and_files : node → N * N) :=
  fix iterate (items : list (string * node)) (total_size file_count : N)
    : N * N :=
    match items with
    | [] => (total_size, file_count)
    | (_, item) :: rest =>
        match item with
        | File st_size =>
            iterate rest (total_size + st_size)%N (file_count + 1)%N
        | Dir _ | Locked =>
            let '(dir_size, dir_files) := get_dir_size_and_files item in
            iterate rest (total_size + dir_size)%N (file_count + dir_files)%N
        | Other | Broken => iterate rest total_size file_count
        end
    end.

Fixpoint get_dir_size_and_files (path : node) : N * N :=
  match path with
  | Dir entries => size_loop get_dir_size_and_files entries 0%N 0%N
  | _ => (0%N, 0%N)
  end.

(** [str(current_path.relative_to(root))], with [current_path] kept as its
    components below the root. *)
Definition relative_to_str (parts : list string) : string :=
  match parts with
  | [] => "."
  | _ => PyStr.join "/" parts
  end.

Definition relative_path_of (current_path : list string) : string :=
  let relative_path := relative_to_str current_path in
  if String.eqb relative_path "." then "/" else relative_path.

Definition dir_info (current_path : list string) (current_depth : Z)
    (sizes : N * N) : DirectoryStat :=
  {| relative_path := relative_path_of current_path; depth := current_depth;
     size_bytes := fst sizes; file_count := snd sizes |}.

(** [scan_recursive] appends to the enclosing [directories] list, threaded
    here as an accumulator.  An exception raised by [iterdir] or by
    [is_dir] on an item is caught by the handlers of the current call,
    which ends it (after its own record was appended).  The
    [for item in current_path.iterdir()] loop is [scan_loop], over the
    recursive call. *)
Definition scan_loop
    (scan_item : string → node → list DirectoryStat → list DirectoryStat) :=
  fix iterate (items : list (string * node))
      (directories : list DirectoryStat) : list DirectoryStat :=
    match items with
    | [] => directories
    | (item_name, item) :: rest =>
        match item with
        | Dir _ | Locked => iterate rest (scan_item item_name item directories)
        | File _ | Other => iterate rest directories
        | Broken => directories
        end
    end.

Fixpoint scan_recursive (max_depth : Z) (current_path : list string)
    (current : node) (current_depth : Z) (directories : list DirectoryStat)
    {struct current} : list DirectoryStat :=
  if max_depth <? current_depth then directories
  else
    let directories :=
      (directories ++
       [dir_info current_path current_depth (get_dir_size_and_files current)])%list in
    if current_depth <? max_depth then
      match current with
      | Dir entries =>
          scan_loop
            (λ item_name item,
               scan_recursive max_depth (current_path ++ [item_name])%list item
                 (current_depth + 1))
            entries directories
      | _ => directories
      end
    else directories.

Definition scan_directory_tree (root : node) (max_depth : Z)
  : list DirectoryStat :=
  scan_recursive max_depth [] root 0 [].

(** ** The scanner object and its surroundings *)

Record Snapshot := {
  drive_id : string;
  scan_date : string;
  drive_info : Drive.t;
  directories : list DirectoryStat
}.

(** What [open(filepath, 'w')] does with a snapshot path: it raises
    ([Refused]), or creates a file that is not an entry of [SNAPSHOTS_DIR]
    itself ([Outside]), or creates or replaces an entry of [SNAPSHOTS_DIR]
    ([Inside]): the one the directory keeps for the last component of the
    path, which is [entry-YYYY-MM-DD.json], where [entry] is the piece of
    the drive id that starts the component, as the file system tells names
    apart (itself where letter case counts, its folded form where not). *)
Inductive opened := Refused | Outside | Inside (entry : string).

(** The platform the run reads from: the clock (indexed by the number of
    readings taken so far), the file tree found at each mount point, and
    the file system's answer to opening a snapshot, given the root and the
    directory components that [pathlib] reads off the drive id and the
    piece of the id that starts the file's name. *)
Record Platform := {
  utcnow_isoformat : nat -> string;
  today : nat -> string;
  mounts : string -> node;
  open_snapshot : string -> list string -> string -> opened
}.

(** [self.naming_rules] and [self.registry['locations']], together with
    what the methods write and read outside the object: the registry file,
    the snapshot directory, the unread lines of standard input and the
    number of clock readings. *)
Record DriveScanner := {
  naming_rules : NamingRules;
  registry : list Location.t;
  registry_file : option (list Location.t);
  snapshot_files : gmap string Snapshot;
  stdin : list string;
  clock : nat
}.

Definition with_registry (locations : list Location.t) (self : DriveScanner)
  : DriveScanner :=
  {| naming_rules := naming_rules self; registry := locations;
     registry_file := registry_file self;
     snapshot_files := snapshot_files self; stdin := stdin self;
     clock := clock self |}.

Definition with_stdin (lines : list string) (self : DriveScanner)
  : DriveScanner :=
  {| naming_rules := naming_rules self; registry := registry self;
     registry_file := registry_file self;
     snapshot_files := snapshot_files self; stdin := lines;
     clock := clock self |}.

Definition tick (self : DriveScanner) : DriveScanner :=
  {| naming_rules := naming_rules self; registry := registry self;
     registry_file := registry_file self;
     snapshot_files := snapshot_files self; stdin := stdin self;
     clock := S (clock self) |}.

Definition _save_registry (self : DriveScanner) : DriveScanner :=
  {| naming_rules := naming_rules self; registry := registry self;
     registry_file := Some (registry self);
     snapshot_files := snapshot_files self; stdin := stdin self;
     clock := clock self |}.

(** [datetime.utcnow().isoformat() + 'Z'] *)
Definition utc_stamp (pf : Platform) (self : DriveScanner) : string :=
  utcnow_isoformat pf (clock self) +:+ "Z".

(** [_confirm_name]: the [while True] loop reads one line per round;
    [input] raises [EOFError] when standard input is exhausted, which is
    the [None] result. *)
Fixpoint _confirm_name (used_names : gset string) (proposed_name : string)
    (lines : list string) : option string * list string :=
  match lines with
  | [] => (None, [])
  | line :: rest =>
      let response := PyStr.strip line in
      if PyStr.truthy response then
        let custom_name := PyStr.upper response in
        if decide (custom_name ∈ used_names)
        then _confirm_name used_names proposed_name rest
        else (Some custom_name, rest)
      else (Some (PyStr.upper proposed_name), rest)
  end.

Definition register_new_drive (pf : Platform) (self : DriveScanner)
    (drive_info : Drive.t) (name : string) : string * DriveScanner :=
  let drive_id := PyStr.upper name in
  let now := utc_stamp pf self in
  let self := tick self in
  let entry :=
    {| Location.id := drive_id;
       Location.kind := "external_drive";
       Location.volume_uuid := Some (Drive.volume_uuid drive_info);
       Location.device_identifier := Some (Drive.device_identifier drive_info);
       Location.name := name;
       Location.capacity_bytes := Drive.capacity_bytes drive_info;
       Location.first_seen := now;
       Location.last_scanned := now;
       Location.status := "active" |} in
  let self := with_registry (registry self ++ [entry])%list self in
  (drive_id, _save_registry self).

(** The [for ... break] loop of [update_last_scanned]. *)
Fixpoint stamp_first (drive_id now : string) (locations : list Location.t)
  : list Location.t :=
  match locations with
  | [] => []
  | location :: rest =>
      if String.eqb (Location.id location) drive_id
      then Location.set_last_scanned now location :: rest
      else location :: stamp_first drive_id now rest
  end.

Definition update_last_scanned (pf : Platform) (self : DriveScanner)
    (drive_id : string) : DriveScanner :=
  let now := utc_stamp pf self in
  let self := tick self in
  _save_registry (with_registry (stamp_first drive_id now (registry self)) self).

(** [SNAPSHOTS_DIR / filename], as [pathlib] reads a file name: a name that
    starts with a slash replaces the directory (two slashes exactly are
    kept as the root [//]); the name is cut at every slash, and the
    components that are empty or [.] are dropped. *)
Module PyPath.

Fixpoint split (s : string) : list string :=
  match s with
  | EmptyString => [EmptyString]
  | String c rest =>
      if Ascii.eqb c "/" then EmptyString :: split rest
      else match split rest with
           | [] => [String c EmptyString]
           | head :: tail => String c head :: tail
           end
  end.

Definition starts_with_slash (s : string) : bool :=
  match s with
  | String c _ => Ascii.eqb c "/"
  | EmptyString => false
  end.

Definition tail (s : string) : string :=
  match s with
  | String _ rest => rest
  | EmptyString => EmptyString
  end.

Definition root (s : string) : string :=
  if starts_with_slash s then
    if starts_with_slash (tail s) && negb (starts_with_slash (tail (tail s)))
    then "//" else "/"
  else "".

Definition kept (part : string) : bool :=
  negb (String.eqb part "") && negb (String.eqb part ".").

End PyPath.

(** Where the snapshot of a drive id goes.  The file name is
    [drive_id-YYYY-MM-DD.json]; the date and the extension hold no slash, so
    the root and the directory components come from the id alone, and the
    last component of the path is the last piece of the id followed by
    [-YYYY-MM-DD.json]. *)
Definition snapshot_place (drive_id : string) : string * list string * string :=
  let pieces := PyPath.split drive_id in
  (PyPath.root drive_id,
   List.filter PyPath.kept (removelast pieces),
   List.last pieces "").

(** [save_snapshot] returns, or raises out of [open]; by then both clocks
    have been read.  [SNAPSHOTS_DIR.mkdir] is taken to succeed, and the
    file system's answer for a path not to change with the day or in the
    course of a run. *)
Inductive save_result :=
| Saved (self : DriveScanner)
| NotSaved (self : DriveScanner).

Definition after_save (r : save_result) : DriveScanner :=
  match r with Saved self | NotSaved self => self end.

Definition save_snapshot (pf : Platform) (self : DriveScanner)
    (drive_id : string) (drive_info : Drive.t)
    (directories : list DirectoryStat) : save_result :=
  let timestamp := today pf (clock self) in
  let self := tick self in
  let '(root, dirs, stem) := snapshot_place drive_id in
  let snapshot :=
    {| drive_id := drive_id; scan_date := utc_stamp pf self;
       drive_info := drive_info; directories := directories |} in
  let self := tick self in
  match open_snapshot pf root dirs stem with
  | Refused => NotSaved self
  | Outside => Saved self
  | Inside entry =>
      let filename := entry +:+ "-" +:+ timestamp +:+ ".json" in
      Saved
        {| naming_rules := naming_rules self; registry := registry self;
           registry_file := registry_file self;
           snapshot_files := <[filename := snapshot]> (snapshot_files self);
           stdin := stdin self; clock := clock self |}
  end.

Arguments save_snapshot : simpl never.

(** ** Orchestrator: [scan_all_drives] *)

(** The identity step of the loop body (lines 437-455): a known drive or a
    newly registered one ([Resolved]); no proposed name, where the code
    prints "Error: No available names" and goes on to the next drive
    ([NoAvailableIdentity]); or [EOFError] out of the prompt, which nothing
    catches ([InputClosed]). *)
Inductive resolution :=
| Resolved (drive_id : string)
| NoAvailableIdentity
| InputClosed.

Definition resolve (pf : Platform) (self : DriveScanner) (drive_info : Drive.t)
  : resolution * DriveScanner :=
  match find_drive_in_registry (registry self) drive_info with
  | Some existing_entry => (Resolved (Location.id existing_entry), self)
  | None =>
      match _get_available_name (naming_rules self) (registry self)
              (Drive.capacity_bytes drive_info) with
      | None => (NoAvailableIdentity, self)
      | Some proposed_name =>
          if PyStr.truthy proposed_name then
            match _confirm_name (_get_used_names (registry self))
                    proposed_name (stdin self) with
            | (None, rest) => (InputClosed, with_stdin rest self)
            | (Some confirmed_name, rest) =>
                let '(drive_id, self) :=
                  register_new_drive pf (with_stdin rest self) drive_info
                    confirmed_name in
                (Resolved drive_id, self)
            end
          else (NoAvailableIdentity, self)
      end
  end.

(** What one round of the [for drive_info in drives] loop did; [Crashed]
    is an exception that nothing catches: [EOFError] out of the prompt or
    the error raised by [open] in [save_snapshot]. *)
Inductive round :=
| Scanned (drive_id : string) (snapshot : list DirectoryStat)
| Skipped
| Crashed.

Definition process_drive (pf : Platform) (self : DriveScanner)
    (drive_info : Drive.t) : round * DriveScanner :=
  match resolve pf self drive_info with
  | (NoAvailableIdentity, self) => (Skipped, self)
  | (InputClosed, self) => (Crashed, self)
  | (Resolved drive_id, self) =>
      let directories :=
        scan_directory_tree (mounts pf (Drive.mount_point drive_info)) 2 in
      match save_snapshot pf self drive_id drive_info directories with
      | NotSaved self => (Crashed, self)
      | Saved self =>
          let self := update_last_scanned pf self drive_id in
          (Scanned drive_id directories, self)
      end
  end.

(** The loop over the detected drives, with the log of its rounds; an
    uncaught exception ends the run. *)
Fixpoint scan_all_drives (pf : Platform) (self : DriveScanner)
    (drives : list Drive.t) : list round * DriveScanner :=
  match drives with
  | [] => ([], self)
  | drive_info :: rest =>
      match process_drive pf self drive_info with
      | (Crashed, self) => ([Crashed], self)
      | (r, self) =>
          let '(log, self) := scan_all_drives pf self rest in
          (r :: log, self)
      end
  end.

(** ** VolumeQuery: [get_external_drives] *)

(** The property lists [diskutil] prints, with the keys the program reads;
    a key read with [dict.get] may be absent. *)
Module Plist.
Record Volume := { DeviceIdentifier : option string }.

Record Disk := {
  Partitions : option (list Volume);
  APFSVolumes : option (list Volume)
}.

Record Info := {
  Internal : option bool;
  MountPoint : option string;
  VolumeName : option string;
  DiskImageAlias : option string;
  RAMDisk : option bool;
  VolumeUUID : option string;
  TotalSize : option Z;
  FreeSpace : option Z;
  FilesystemType : option string
}.
End Plist.

(** The two [subprocess.run] calls: [diskutil list -plist], whose result
    may lack the key [AllDisksAndPartitions], and [diskutil info -plist
    device]; [None] stands for a failed call or an unreadable answer. *)
Record Diskutil := {
  diskutil_list : option (option (list Plist.Disk));
  diskutil_info : string → option Plist.Info
}.

(** [needle in haystack] on strings. *)
Fixpoint str_contains (needle haystack : string) : bool :=
  String.prefix needle haystack ||
  match haystack with
  | EmptyString => false
  | String _ rest => str_contains needle rest
  end.

(** The body of the [for volume in volumes_to_check] loop after the
    [diskutil info] call: the descriptor appended for a volume that passes
    the filter. *)
Definition describe_volume (device : string) (info : Plist.Info)
  : option Drive.t :=
  let is_external := bool_decide (Plist.Internal info = Some false) in
  let is_mounted := negb (String.eqb (default "" (Plist.MountPoint info)) "") in
  let volume_name := default "" (Plist.VolumeName info) in
  let is_disk_image := bool_decide (Plist.DiskImageAlias info ≠ None) in
  let mount_point := default "" (Plist.MountPoint info) in
  let is_simulator := str_contains "/CoreSimulator/" mount_point in
  let is_ram_disk := default false (Plist.RAMDisk info) in
  if is_external && is_mounted && PyStr.truthy volume_name &&
     negb is_disk_image && negb is_simulator && negb is_ram_disk
  then
    Some {| Drive.device_identifier := device;
            Drive.volume_uuid := default "" (Plist.VolumeUUID info);
            Drive.volume_name := volume_name;
            Drive.mount_point := default "" (Plist.MountPoint info);
            Drive.capacity_bytes := default 0 (Plist.TotalSize info);
            Drive.free_bytes := default 0 (Plist.FreeSpace info);
            Drive.file_system := default "unknown" (Plist.FilesystemType info) |}
  else None.

(** The inner loop; [None] is an exception on its way to the handlers at
    the end of [get_external_drives]. *)
Fixpoint check_volumes (info_of : string → option Plist.Info)
    (volumes_to_check : list Plist.Volume) (external_drives : list Drive.t)
  : option (list Drive.t) :=
  match volumes_to_check with
  | [] => Some external_drives
  | volume :: rest =>
      match Plist.DeviceIdentifier volume with
      | Some device =>
          if PyStr.truthy device then
            match info_of device with
            | None => None
            | Some info =>
                check_volumes info_of rest
                  match describe_volume device info with
                  | Some drive_info => (external_drives ++ [drive_info])%list
                  | None => external_drives
                  end
            end
          else check_volumes info_of rest external_drives
      | None => check_volumes info_of rest external_drives
      end
  end.

Fixpoint check_disks (info_of : string → option Plist.Info)
    (disks : list Plist.Disk) (external_drives : list Drive.t)
  : option (list Drive.t) :=
  match disks with
  | [] => Some external_drives
  | disk_id :: rest =>
      let volumes_to_check :=
        (default [] (Plist.Partitions disk_id) ++
         default [] (Plist.APFSVolumes disk_id))%list in
      match check_volumes info_of volumes_to_check external_drives with
      | None => None
      | Some external_drives => check_disks info_of rest external_drives
      end
  end.

Definition get_external_drives (du : Diskutil) : list Drive.t :=
  match diskutil_list du with
  | None => []
  | Some disk_list =>
      match check_disks (diskutil_info du) (default [] disk_list) [] with
      | Some external_drives => external_drives
      | None => []
      end
  end.

(** ** Start-up: [_load_naming_rules], [_load_registry], [main] *)

(** A JSON file as [open] and [json.load] find it. *)
Inductive document (A : Type) :=
| Missing
| Invalid
| Parsed (content : A).
Arguments Missing {A}.
Arguments Invalid {A}.
Arguments Parsed {A} content.

(** [None] is [sys.exit(1)]. *)
Definition _load_naming_rules (file : document NamingRules)
  : option NamingRules :=
  match file with
  | Parsed rules => Some rules
  | Missing | Invalid => None
  end.

(** The loaded locations together with the content of the registry file
    afterwards: a missing file is created by [_save_registry]. *)
Definition _load_registry (file : document (list Location.t))
  : option (list Location.t * document (list Location.t)) :=
  match file with
  | Parsed locations => Some (locations, file)
  | Missing => Some ([], Parsed [])
  | Invalid => None
  end.

(** What is on disk and at the terminal when the program starts. *)
Record Startup := {
  naming_rules_file : document NamingRules;
  drives_registry_file : document (list Location.t);
  snapshots_dir : gmap string Snapshot;
  terminal : list string
}.

(** How a run of [main] ends: [sys.exit(1)] with the registry file as the
    start-up left it, or the end of [scan_all_drives]. *)
Inductive ending :=
| Exit (registry_after : document (list Location.t))
| Ran (log : list round) (self : DriveScanner).

Definition main (pf : Platform) (du : Diskutil) (start : Startup) : ending :=
  match _load_naming_rules (naming_rules_file start) with
  | None => Exit (drives_registry_file start)
  | Some rules =>
      match _load_registry (drives_registry_file start) with
      | None => Exit (drives_registry_file start)
      | Some (locations, file) =>
          let scanner :=
            {| naming_rules := rules; registry := locations;
               registry_file :=
                 match file with Parsed saved => Some saved | _ => None end;
               snapshot_files := snapshots_dir start;
               stdin := terminal start; clock := 0 |} in
          let '(log, scanner) :=
            scan_all_drives pf scanner (get_external_drives du) in
          Ran log scanner
      end
  end.

(** ** [format_bytes] *)

(** The value the loop of [format_bytes] carries: the [int] it was given,
    then the [float] left by [bytes_value /= 1024.0].  Floats are written
    as the rationals they are. *)
Inductive py_number :=
| PyInt (n : Z)
| PyFloat (x : Q).

(** [float(v)]: an [int] goes to the nearest double. *)
Definition as_float (v : py_number) : Q :=
  match v with
  | PyInt n => inject_Z (round_to_double n)
  | PyFloat x => x
  end.

(** [v < 1024.0]: Python compares an [int] with a [float] exactly. *)
Definition below_1024 (v : py_number) : bool :=
  match v with
  | PyInt n => n <? 1024
  | PyFloat x => negb (Qle_bool 1024 x)
  end.

(** [f"{x:.1f}"]: the decimal with one digit after the point nearest to
    the exact value of the double, ties to the even digit. *)
Definition format_1f (x : Q) : string :=
  let num := Z.abs (Qnum x) in
  let den := Zpos (Qden x) in
  let q := (num * 10) / den in
  let r := (num * 10) mod den in
  let tenths :=
    if (den <? 2 * r) || ((2 * r =? den) && Z.odd q) then q + 1 else q in
  (if Qnum x <? 0 then "-" else "") +:+
  pretty (Z.to_N (tenths / 10)) +:+ "." +:+ pretty (Z.to_N (tenths mod 10)).

Fixpoint format_loop (units : list string) (bytes_value : py_number) : string :=
  match units with
  | [] => format_1f (as_float bytes_value) +:+ " PB"
  | unit :: rest =>
      if below_1024 bytes_value
      then format_1f (as_float bytes_value) +:+ " " +:+ unit
      else format_loop rest (PyFloat (as_float bytes_value / 1024))
  end.

Definition format_bytes (bytes_value : Z) : string :=
  format_loop ["B"; "KB"; "MB"; "GB"; "TB"] (PyInt bytes_value).

(** ** Specification vocabulary *)

(** The test the loop of [find_drive_in_registry] applies to one entry. *)
Definition matches (drive_info : Drive.t) (location : Location.t) : bool :=
  is_external_drive location &&
  (uuid_matches (Drive.volume_uuid drive_info) location ||
   device_matches (Drive.device_identifier drive_info) location).

(** The sizes of the regular files found beneath a directory, at any
    depth, through directories that can be listed. *)
Fixpoint files_beneath (n : node) : list N :=
  match n with
  | Dir entries =>
      flat_map (λ entry, match snd entry with
                         | File st_size => [st_size]
                         | _ => files_beneath (snd entry)
                         end) entries
  | _ => []
  end.

Definition sum_N (l : list N) : N := fold_right N.add 0%N l.

(** What one item of a listing adds to the totals of its directory. *)
Definition item_files (entry : string * node) : list N :=
  match snd entry with
  | File st_size => [st_size]
  | _ => files_beneath (snd entry)
  end.

(** [at_path root parts n]: following the names [parts] from [root]
    through listed directories leads to [n]. *)
Inductive at_path : node → list string → node → Prop :=
| at_path_here n : at_path n [] n
| at_path_step entries item_name item parts n :
    (item_name, item) ∈ entries →
    at_path item parts n →
    at_path (Dir entries) (item_name :: parts) n.

Definition is_directory (n : node) : bool :=
  match n with Dir _ | Locked => true | _ => false end.

(** The number of directories within [k] levels below a path, itself
    included. *)
Fixpoint count_dirs (k : nat) (n : node) {struct n} : nat :=
  match n with
  | Dir entries =>
      S (match k with
         | O => 0
         | S k' => list_sum (map (λ entry, count_dirs k' (snd entry)) entries)
         end)
  | Locked => 1
  | _ => 0
  end.

(** Depth-first pre-order, written as a traversal of its own: the paths of
    the directories within [k] levels below a directory, the directory
    first, then the whole subtree of each of its sub-directories in turn,
    in listing order. *)
Fixpoint preorder_paths (k : nat) (n : node) {struct n} : list (list string) :=
  [] ::
  match k, n with
  | S k', Dir entries =>
      flat_map (λ entry,
                  if is_directory (snd entry)
                  then map (cons (fst entry)) (preorder_paths k' (snd entry))
                  else []) entries
  | _, _ => []
  end.

(** Names a directory listing can hold: not empty, not [.], no [/]. *)
Fixpoint has_slash (s : string) : bool :=
  match s with
  | EmptyString => false
  | String c rest => Ascii.eqb c "/" || has_slash rest
  end.

Definition valid_name (s : string) : bool :=
  negb (String.eqb s "") && negb (String.eqb s ".") && negb (has_slash s).

(** A file tree: the names within each directory are valid and distinct. *)
Fixpoint well_formed (n : node) : bool :=
  match n with
  | Dir entries =>
      forallb valid_name (map fst entries) &&
      bool_decide (NoDup (map fst entries)) &&
      forallb (λ entry, well_formed (snd entry)) entries
  | _ => true
  end.

(** No item of the tree makes [is_file] or [is_dir] raise. *)
Fixpoint stat_ok (n : node) : bool :=
  match n with
  | Dir entries => forallb (λ entry, stat_ok (snd entry)) entries
  | Broken => false
  | _ => true
  end.

(** Reading a relative path back into its components. *)
Fixpoint split_slash (s : string) : list string :=
  match s with
  | EmptyString => [EmptyString]
  | String c rest =>
      if Ascii.eqb c "/" then EmptyString :: split_slash rest
      else match split_slash rest with
           | [] => [String c EmptyString]
           | head :: tail => String c head :: tail
           end
  end.

Definition parts_of (relative_path : string) : list string :=
  if String.eqb relative_path "/" then [] else split_slash relative_path.

(** [b] lies strictly beneath [a]. *)
Definition strict_descendant (a b : string) : Prop :=
  ∃ name rest, parts_of b = (parts_of a ++ name :: rest)%list.

(** The paths [scan_recursive] passes its depth guard on within [k] levels
    of a path, in order, with what lies there; [visit_loop] follows
    [scan_loop]. *)
Definition visit_loop (visit_item : string → node → list (list string * node)) :=
  fix iterate (items : list (string * node)) : list (list string * node) :=
    match items with
    | [] => []
    | (item_name, item) :: rest =>
        match item with
        | Dir _ | Locked => (visit_item item_name item ++ iterate rest)%list
        | File _ | Other => iterate rest
        | Broken => []
        end
    end.

Fixpoint visits (k : nat) (current_path : list string) (current : node)
    {struct current} : list (list string * node) :=
  (current_path, current) ::
  match k with
  | O => []
  | S k' =>
      match current with
      | Dir entries =>
          visit_loop
            (λ item_name item, visits k' (current_path ++ [item_name])%list item)
            entries
      | _ => []
      end
  end.

(** The record appended for a visited path. *)
Definition stat_of (visit : list string * node) : DirectoryStat :=
  dir_info (fst visit) (Z.of_nat (length (fst visit)))
    (get_dir_size_and_files (snd visit)).

(** [x] occurs before [y] in [l]. *)
Definition precedes {A} (l : list A) (x y : A) : Prop :=
  ∃ l1 l2 l3, l = (l1 ++ x :: l2 ++ y :: l3)%list.

(** The operations that write the scanner's state: registering a drive under
    a name that went through [_get_available_name] and [_confirm_name],
    stamping an entry, writing a snapshot, and reading lines at the prompt. *)
Inductive step (pf : Platform) : DriveScanner → DriveScanner → Prop :=
| step_register self drive_info proposed_name confirmed_name rest :
    _get_available_name (naming_rules self) (registry self)
      (Drive.capacity_bytes drive_info) = Some proposed_name →
    _confirm_name (_get_used_names (registry self)) proposed_name (stdin self)
      = (Some confirmed_name, rest) →
    step pf self
      (snd (register_new_drive pf (with_stdin rest self) drive_info confirmed_name))
| step_update self drive_id :
    step pf self (update_last_scanned pf self drive_id)
| step_snapshot self drive_id drive_info directories :
    step pf self
      (after_save (save_snapshot pf self drive_id drive_info directories))
| step_input self rest :
    step pf self (with_stdin rest self).

Inductive reachable (pf : Platform) : DriveScanner → Prop :=
| reachable_empty self : registry self = [] → reachable pf self
| reachable_step self self' :
    reachable pf self → step pf self self' → reachable pf self'.

(** Ids are uppercase and pairwise distinct. *)
Definition ids_canonical (locations : list Location.t) : Prop :=
  NoDup (map Location.id locations) ∧
  ∀ l, l ∈ locations → PyStr.upper (Location.id l) = Location.id l.

(** Two entries that differ at most in [last_scanned]. *)
Definition same_identity (e e' : Location.t) : Prop :=
  ∀ t, Location.set_last_scanned t e' = Location.set_last_scanned t e.

(** The sizes of the regular files listed directly in a directory. *)
Definition direct_files (entries : list (string * node)) : list N :=
  flat_map (λ entry, match snd entry with
                     | File st_size => [st_size]
                     | _ => []
                     end) entries.

(** The records one level below the root. *)
Definition children_stats (stats : list DirectoryStat) : list DirectoryStat :=
  filter (λ r, depth r = 1) stats.

(** Every drive of the list is in the registry, under the id its round
    logged. *)
Definition all_known (locations : list Location.t) (drives : list Drive.t)
    (log : list round) : Prop :=
  Forall2 (λ d r, ∃ e dirs, find_drive_in_registry locations d = Some e ∧
                            r = Scanned (Location.id e) dirs) drives log.

(** The file system refuses the snapshot of this drive id. *)
Definition refused (pf : Platform) (drive_id : string) : bool :=
  let '(root, dirs, stem) := snapshot_place drive_id in
  match open_snapshot pf root dirs stem with
  | Refused => true
  | _ => false
  end.

(** A descriptor that [diskutil info] vouches for. *)
Definition vouched (info_of : string → option Plist.Info) (d : Drive.t) : Prop :=
  Drive.device_identifier d ≠ "" ∧
  ∃ info, info_of (Drive.device_identifier d) = Some info ∧
          describe_volume (Drive.device_identifier d) info = Some d.

(** ** Fixtures *)

(** The registry of scenario B next to an older entry that was last seen
    on the device node the volume now occupies. *)
Definition thor : Location.t :=
  {| Location.id := "THOR"; Location.kind := "external_drive";
     Location.volume_uuid := Some "DEF-456";
     Location.device_identifier := Some "disk2s1";
     Location.name := "Thor"; Location.capacity_bytes := 2199023255552;
     Location.first_seen := "2024-01-01T00:00:00Z";
     Location.last_scanned := "2024-01-01T00:00:00Z";
     Location.status := "active" |}.

Definition nova : Location.t :=
  {| Location.id := "NOVA"; Location.kind := "external_drive";
     Location.volume_uuid := Some "ABC-123";
     Location.device_identifier := Some "disk3s1";
     Location.name := "Nova"; Location.capacity_bytes := 1099511627776;
     Location.first_seen := "2024-02-01T00:00:00Z";
     Location.last_scanned := "2024-02-01T00:00:00Z";
     Location.status := "active" |}.

Definition nova_on_disk2 : Drive.t :=
  {| Drive.device_identifier := "disk2s1"; Drive.volume_uuid := "ABC-123";
     Drive.volume_name := "Backup"; Drive.mount_point := "/Volumes/Backup";
     Drive.capacity_bytes := 1099511627776; Drive.free_bytes := 0;
     Drive.file_system := "apfs" |}.

Definition nova_on_disk9 : Drive.t :=
  {| Drive.device_identifier := "disk9s1"; Drive.volume_uuid := "ABC-123";
     Drive.volume_name := "Backup"; Drive.mount_point := "/Volumes/Backup";
     Drive.capacity_bytes := 1099511627776; Drive.free_bytes := 0;
     Drive.file_system := "apfs" |}.

(** Thresholds of scenario A (large from 4 TB, medium from 1 TB) with short
    pools. *)
Definition rules_demo : NamingRules :=
  {| large_drive_threshold_tb := 4 # 1;
     medium_drive_threshold_tb := 1 # 1;
     large_names := ["Thanos"; "Galactus"];
     medium_names := ["Thor"; "Nova"];
     small_names := ["Groot"] |}.

Definition groot : Location.t :=
  {| Location.id := "GROOT"; Location.kind := "external_drive";
     Location.volume_uuid := Some "0A1B-2C3D";
     Location.device_identifier := Some "disk4s1";
     Location.name := "GROOT"; Location.capacity_bytes := 64000000000;
     Location.first_seen := "2024-01-15T08:00:00Z";
     Location.last_scanned := "2024-01-15T08:00:00Z";
     Location.status := "active" |}.

(** Scenario C's tree: [a/b/file.txt] (10 bytes) and [a/c/file.txt]
    (20 bytes). *)
Definition tree_demo : node :=
  Dir [("a", Dir [("b", Dir [("file.txt", File 10)]);
                  ("c", Dir [("file.txt", File 20)])])].

(** Two sibling directories, the first with a sub-directory:
    [a/x/file.txt] and an empty [b]. *)
Definition tree_siblings : node :=
  Dir [("a", Dir [("x", Dir [("file.txt", File 5)])]); ("b", Dir [])].

Definition platform_demo : Platform :=
  {| utcnow_isoformat := λ _, "2024-03-01T12:00:00";
     today := λ _, "2024-03-01";
     mounts := λ _, tree_demo;
     open_snapshot := λ root dirs stem,
       match root, dirs with
       | EmptyString, [] => Inside stem
       | _, _ => Refused
       end |}.

Definition scanner_demo (locations : list Location.t) (lines : list string)
  : DriveScanner :=
  {| naming_rules := rules_demo; registry := locations;
     registry_file := Some locations; snapshot_files := ∅;
     stdin := lines; clock := 0 |}.

Definition usb_stick : Drive.t :=
  {| Drive.device_identifier := "disk5s1"; Drive.volume_uuid := "77AA-00FF";
     Drive.volume_name := "STICK"; Drive.mount_point := "/Volumes/STICK";
     Drive.capacity_bytes := 32000000000; Drive.free_bytes := 1000000;
     Drive.file_system := "msdos" |}.


(** One disk with an EFI partition that [diskutil info] reports as internal
    and an APFS volume that is an external, mounted drive. *)
Definition diskutil_demo : Diskutil :=
  {| diskutil_list :=
       Some (Some [{| Plist.Partitions :=
                        Some [{| Plist.DeviceIdentifier := Some "disk5s0" |}];
                      Plist.APFSVolumes :=
                        Some [{| Plist.DeviceIdentifier := Some "disk5s1" |}] |}]);
     diskutil_info := λ device,
       if String.eqb device "disk5s1" then
         Some {| Plist.Internal := Some false;
                 Plist.MountPoint := Some "/Volumes/STICK";
                 Plist.VolumeName := Some "STICK";
                 Plist.DiskImageAlias := None;
                 Plist.RAMDisk := None;
                 Plist.VolumeUUID := Some "77AA-00FF";
                 Plist.TotalSize := Some 32000000000;
                 Plist.FreeSpace := Some 1000000;
                 Plist.FilesystemType := Some "msdos" |}
       else if String.eqb device "disk5s0" then
         Some {| Plist.Internal := Some true;
                 Plist.MountPoint := None;
                 Plist.VolumeName := Some "EFI";
                 Plist.DiskImageAlias := None;
                 Plist.RAMDisk := None;
                 Plist.VolumeUUID := None;
                 Plist.TotalSize := Some 209715200;
                 Plist.FreeSpace := None;
                 Plist.FilesystemType := Some "msdos" |}
       else None |}.

(** The same disk when the query about the EFI partition fails. *)
Definition diskutil_failing : Diskutil :=
  {| diskutil_list := diskutil_list diskutil_demo;
     diskutil_info := λ device,
       if String.eqb device "disk5s0" then None
       else diskutil_info diskutil_demo device |}.

Definition startup_demo : Startup :=
  {| naming_rules_file := Parsed rules_demo;
     drives_registry_file := Missing;
     snapshots_dir := ∅;
     terminal := [""] |}.

(** Thresholds the wrong way round: large from 1 TB, medium from 4 TB. *)
Definition rules_misordered : NamingRules :=
  {| large_drive_threshold_tb := 1 # 1;
     medium_drive_threshold_tb := 4 # 1;
     large_names := ["Thanos"];
     medium_names := ["Thor"];
     small_names := ["Groot"] |}.

(** * Properties *)

(** ** NameAllocator *)

Lemma round_to_double_exact (n : Z) :
  Z.abs n < 2 ^ 53 → round_to_double n = n.
Proof.
  intros Hn. unfold round_to_double.
  destruct (Z.leb_spec (Z.log2 (Z.abs n) - 52) 0) as [|Hk]; [done|].
  exfalso.
  destruct (Z.eq_dec (Z.abs n) 0) as [E|E].
  - rewrite E in Hk. simpl in Hk. lia.
  - assert (H0 : 0 < Z.abs n) by lia.
    pose proof (Z.log2_lt_pow2 (Z.abs n) 53 H0) as [H _].
    specialize (H Hn). lia.
Qed.

Lemma first_available_None used (pool : list string) :
  first_available used pool = None ↔ ∀ name, name ∈ pool → PyStr.upper name ∈ used.
Proof.
  induction pool as [|name rest IH]; simpl.
  - split; [|done]. intros _ n Hn. by apply elem_of_nil in Hn.
  - destruct (decide (PyStr.upper name ∈ used)) as [Hu|Hu].
    + rewrite IH. split.
      * intros H n [->|Hn]%elem_of_cons; auto.
      * intros H n Hn. apply H. by right.
    + split; [done|]. intros H. exfalso. apply Hu, H. by left.
Qed.

Lemma first_available_Some used (pool : list string) name :
  first_available used pool = Some name ↔
  ∃ before after, pool = (before ++ name :: after)%list ∧
    (PyStr.upper name ∉ used) ∧
    ∀ n, n ∈ before → PyStr.upper n ∈ used.
Proof.
  induction pool as [|p rest IH]; simpl.
  - split; [done|]. intros (b & a & E & _). by destruct b.
  - destruct (decide (PyStr.upper p ∈ used)) as [Hu|Hu].
    + rewrite IH. split.
      * intros (b & a & -> & Hn & Hb). exists (p :: b), a.
        split; [done|]. split; [done|].
        intros n [->|Hin]%elem_of_cons; auto.
      * intros (b & a & E & Hn & Hb). destruct b as [|b0 b].
        -- simpl in E. injection E as -> _. done.
        -- simpl in E. injection E as -> ->. exists b, a.
           split; [done|]. split; [done|]. intros n Hin. apply Hb. by right.
    + split.
      * intros [= ->]. exists [], rest. split; [done|]. split; [done|].
        intros n Hn. by apply elem_of_nil in Hn.
      * intros (b & a & E & Hn & Hb). destruct b as [|b0 b].
        -- simpl in E. by injection E as ->.
        -- simpl in E. injection E as -> _. exfalso. apply Hu, Hb. by left.
Qed.

(** C3. For every capacity and registry (hence every set of used names),
    [_get_available_name] converts the capacity to tebibytes over [1024^4]
    (as a double: exactly below [2^53] bytes, to the nearest double above),
    takes the large pool when [capacity_tb >= large_drive_threshold_tb],
    else the medium pool when [capacity_tb >= medium_drive_threshold_tb],
    else the small pool; it returns the first name of that pool whose
    uppercase form is not used, and [None] exactly when every name of that
    pool is used.  A returned name is never used and always comes from the
    selected pool. *)
Theorem get_available_name_tiered (rules : NamingRules)
    (locations : list Location.t) (capacity_bytes : Z) :
  let capacity_tb := to_tb capacity_bytes in
  let used := _get_used_names locations in
  capacity_tb == inject_Z (round_to_double capacity_bytes) / inject_Z (1024 ^ 4) ∧
  (Z.abs capacity_bytes < 2 ^ 53 →
   capacity_tb == inject_Z capacity_bytes / inject_Z (1024 ^ 4)) ∧
  ∃ pool,
    (large_drive_threshold_tb rules <= capacity_tb → pool = large_names rules)%Q ∧
    (¬ large_drive_threshold_tb rules <= capacity_tb →
     medium_drive_threshold_tb rules <= capacity_tb → pool = medium_names rules)%Q ∧
    (¬ large_drive_threshold_tb rules <= capacity_tb →
     ¬ medium_drive_threshold_tb rules <= capacity_tb → pool = small_names rules)%Q ∧
    (_get_available_name rules locations capacity_bytes = None ↔
     ∀ name, name ∈ pool → PyStr.upper name ∈ used) ∧
    (∀ name, _get_available_name rules locations capacity_bytes = Some name ↔
       ∃ before after, pool = (before ++ name :: after)%list ∧
         (PyStr.upper name ∉ used) ∧
         ∀ n, n ∈ before → PyStr.upper n ∈ used).
Proof.
  intros capacity_tb used.
  assert (Htb : capacity_tb ==
                inject_Z (round_to_double capacity_bytes) / inject_Z (1024 ^ 4))
    by (unfold capacity_tb, to_tb, Qeq, Qdiv, Qmult, Qinv, inject_Z; simpl; lia).
  split; [exact Htb|]. split.
  - intros Hsmall. by rewrite Htb, round_to_double_exact.
  - unfold _get_available_name, select_category. fold capacity_tb used.
    pose proof (Qle_bool_iff (large_drive_threshold_tb rules) capacity_tb) as HL.
    pose proof (Qle_bool_iff (medium_drive_threshold_tb rules) capacity_tb) as HM.
    destruct (Qle_bool (large_drive_threshold_tb rules) capacity_tb);
      [|destruct (Qle_bool (medium_drive_threshold_tb rules) capacity_tb)];
      simpl.
    + exists (large_names rules).
      split; [done|]. split; [intros Hn; destruct Hn; by apply HL|].
      split; [intros Hn; destruct Hn; by apply HL|].
      split; [apply first_available_None|intros; apply first_available_Some].
    + exists (medium_names rules).
      split; [intros Hl; by apply HL in Hl|]. split; [done|].
      split; [intros _ Hn; destruct Hn; by apply HM|].
      split; [apply first_available_None|intros; apply first_available_Some].
    + exists (small_names rules).
      split; [intros Hl; by apply HL in Hl|].
      split; [intros _ Hm; by apply HM in Hm|]. split; [done|].
      split; [apply first_available_None|intros; apply first_available_Some].
Qed.

(** Scenario A: a fresh registry and a 2 TB volume, with the large tier
    from 4 TB and the medium tier from 1 TB. *)
Lemma get_available_name_tiered_witness :
  _get_available_name rules_demo [] (2 * 1024 ^ 4) = Some "Thor".
Proof.
  destruct (get_available_name_tiered rules_demo [] (2 * 1024 ^ 4))
    as (_ & _ & pool & _ & Hmedium & _ & _ & Hsome).
  apply Hsome. exists [], ["Nova"]. split; [|split].
  - apply Hmedium.
    + intros H. vm_compute in H. by apply H.
    + intros H. vm_compute in H. discriminate.
  - intros H. by apply elem_of_empty in H.
  - intros n H. by apply elem_of_nil in H.
Defined.

(** ** IdentityResolver *)

Lemma find_drive_in_registry_cons location rest d :
  find_drive_in_registry (location :: rest) d =
  if matches d location then Some location else find_drive_in_registry rest d.
Proof.
  unfold matches. simpl.
  destruct (is_external_drive location); [|done].
  destruct (uuid_matches _ location); [done|].
  by destruct (device_matches _ location).
Qed.

Lemma find_drive_in_registry_Some locations d e :
  find_drive_in_registry locations d = Some e ↔
  ∃ before after, locations = (before ++ e :: after)%list ∧
    matches d e = true ∧ ∀ x, x ∈ before → matches d x = false.
Proof.
  induction locations as [|l rest IH].
  - simpl. split; [done|]. intros (b & a & E & _). by destruct b.
  - rewrite find_drive_in_registry_cons.
    destruct (matches d l) eqn:Hm.
    + split.
      * intros [= ->]. exists [], rest. split; [done|]. split; [done|].
        intros x Hx. by apply elem_of_nil in Hx.
      * intros (b & a & E & He & Hb). destruct b as [|b0 b]; simpl in E.
        -- by injection E as ->.
        -- injection E as -> _. rewrite Hb in Hm; [done|by left].
    + rewrite IH. split.
      * intros (b & a & -> & He & Hb). exists (l :: b), a.
        split; [done|]. split; [done|].
        intros x [->|Hx]%elem_of_cons; auto.
      * intros (b & a & E & He & Hb). destruct b as [|b0 b]; simpl in E.
        -- injection E as -> _. congruence.
        -- injection E as -> ->. exists b, a. split; [done|]. split; [done|].
           intros x Hx. apply Hb. by right.
Qed.

Lemma find_drive_in_registry_None locations d :
  find_drive_in_registry locations d = None ↔
  ∀ x, x ∈ locations → matches d x = false.
Proof.
  induction locations as [|l rest IH].
  - simpl. split; [|done]. intros _ x Hx. by apply elem_of_nil in Hx.
  - rewrite find_drive_in_registry_cons. destruct (matches d l) eqn:Hm.
    + split; [done|]. intros H. rewrite H in Hm; [done|by left].
    + rewrite IH. split.
      * intros H x [->|Hx]%elem_of_cons; auto.
      * intros H x Hx. apply H. by right.
Qed.

Lemma resolve_known pf self d e :
  find_drive_in_registry (registry self) d = Some e →
  resolve pf self d = (Resolved (Location.id e), self).
Proof. intros H. unfold resolve. by rewrite H. Qed.

(** C1, as stated, fails: the descriptor's UUID is that of the registered
    entry NOVA, yet the entry THOR, listed before it and matching only by
    device identifier, is returned. *)
Lemma uuid_priority_counterexample :
  nova ∈ [thor; nova] ∧
  is_external_drive nova = true ∧
  PyStr.truthy (Drive.volume_uuid nova_on_disk2) = true ∧
  Location.volume_uuid nova = Some (Drive.volume_uuid nova_on_disk2) ∧
  Location.volume_uuid thor ≠ Some (Drive.volume_uuid nova_on_disk2) ∧
  find_drive_in_registry [thor; nova] nova_on_disk2 = Some thor ∧
  Location.id thor ≠ Location.id nova.
Proof.
  split; [set_solver|]. repeat split; try reflexivity; discriminate.
Qed.

(** C1, amended. Resolution returns the first entry in registry order that
    is of kind [external_drive] and matches the descriptor by its non-empty
    volume UUID or by its non-empty device identifier; an entry whose UUID
    equals the descriptor's non-empty UUID is therefore returned, whatever
    the device identifier, when no entry before it matches; and resolving
    a known volume leaves the scanner, registry included, as it was. *)
Theorem find_drive_first_match (pf : Platform) (self : DriveScanner)
    (d : Drive.t) :
  (∀ e, find_drive_in_registry (registry self) d = Some e ↔
     ∃ before after, registry self = (before ++ e :: after)%list ∧
       matches d e = true ∧ ∀ x, x ∈ before → matches d x = false) ∧
  (∀ before e after,
     registry self = (before ++ e :: after)%list →
     is_external_drive e = true →
     PyStr.truthy (Drive.volume_uuid d) = true →
     Location.volume_uuid e = Some (Drive.volume_uuid d) →
     (∀ x, x ∈ before → matches d x = false) →
     find_drive_in_registry (registry self) d = Some e) ∧
  (∀ e, find_drive_in_registry (registry self) d = Some e →
     resolve pf self d = (Resolved (Location.id e), self)).
Proof.
  split; [intros e; apply find_drive_in_registry_Some|].
  split; [|intros e; apply resolve_known].
  intros before e after E He Hu Hv Hb.
  apply find_drive_in_registry_Some. exists before, after.
  split; [done|]. split; [|done].
  unfold matches, uuid_matches. rewrite He, Hu. simpl.
  by rewrite bool_decide_eq_true_2.
Qed.

Lemma find_drive_first_match_witness :
  find_drive_in_registry [thor; nova] nova_on_disk9 = Some nova.
Proof.
  apply (proj1 (proj2 (find_drive_first_match platform_demo
                         (scanner_demo [thor; nova] []) nova_on_disk9))
           [thor] nova []); try reflexivity.
  intros x Hx. apply list_elem_of_singleton in Hx. subst x. reflexivity.
Defined.

(** Scenario B: with NOVA alone in the registry, its UUID resolves to it
    from any device node. *)
Example scenario_B (pf : Platform) (self : DriveScanner) (device : string) :
  registry self = [nova] →
  let d := {| Drive.device_identifier := device; Drive.volume_uuid := "ABC-123";
              Drive.volume_name := "Backup"; Drive.mount_point := "/Volumes/Backup";
              Drive.capacity_bytes := 1099511627776; Drive.free_bytes := 0;
              Drive.file_system := "apfs" |} in
  resolve pf self d = (Resolved "NOVA", self).
Proof. intros E d. unfold resolve. rewrite E. reflexivity. Qed.

Lemma matches_set_last_scanned d now l :
  matches d (Location.set_last_scanned now l) = matches d l.
Proof. reflexivity. Qed.

Lemma find_drive_in_registry_stamp_first drive_id now locations d :
  Location.id <$> find_drive_in_registry (stamp_first drive_id now locations) d
  = Location.id <$> find_drive_in_registry locations d.
Proof.
  induction locations as [|l rest IH]; [done|].
  cbn [stamp_first]. destruct (String.eqb (Location.id l) drive_id).
  - rewrite !find_drive_in_registry_cons, matches_set_last_scanned.
    by destruct (matches d l).
  - rewrite !find_drive_in_registry_cons. by destruct (matches d l).
Qed.

Lemma save_snapshot_keeps pf s i d ds :
  let s' := after_save (save_snapshot pf s i d ds) in
  naming_rules s' = naming_rules s ∧ registry s' = registry s ∧
  registry_file s' = registry_file s ∧ stdin s' = stdin s ∧
  clock s' = S (S (clock s)).
Proof.
  unfold save_snapshot. destruct (snapshot_place i) as [[root dirs] stem].
  by destruct (open_snapshot pf root dirs stem).
Qed.

Lemma save_snapshot_registry pf s i d ds :
  registry (after_save (save_snapshot pf s i d ds)) = registry s.
Proof. apply save_snapshot_keeps. Qed.


Lemma save_snapshot_refused pf s i d ds :
  refused pf i = true → save_snapshot pf s i d ds = NotSaved (tick (tick s)).
Proof.
  unfold refused, save_snapshot.
  destruct (snapshot_place i) as [[root dirs] stem].
  by destruct (open_snapshot pf root dirs stem).
Qed.

Lemma save_snapshot_not_refused pf s i d ds :
  refused pf i = false →
  save_snapshot pf s i d ds = Saved (after_save (save_snapshot pf s i d ds)).
Proof.
  unfold refused, save_snapshot.
  destruct (snapshot_place i) as [[root dirs] stem].
  by destruct (open_snapshot pf root dirs stem).
Qed.

Lemma save_snapshot_Saved pf s i d ds s1 :
  save_snapshot pf s i d ds = Saved s1 →
  refused pf i = false ∧ s1 = after_save (save_snapshot pf s i d ds).
Proof.
  intros H. rewrite H. split; [|done].
  destruct (refused pf i) eqn:Hr; [|done].
  by rewrite (save_snapshot_refused _ _ _ _ _ Hr) in H.
Qed.

Lemma save_snapshot_NotSaved pf s i d ds s1 :
  save_snapshot pf s i d ds = NotSaved s1 →
  refused pf i = true ∧ s1 = tick (tick s).
Proof.
  intros H. destruct (refused pf i) eqn:Hr.
  - rewrite (save_snapshot_refused _ _ _ _ _ Hr) in H. by injection H as <-.
  - by rewrite (save_snapshot_not_refused _ _ _ _ _ Hr) in H.
Qed.

Lemma process_drive_known pf self d e :
  find_drive_in_registry (registry self) d = Some e →
  registry (snd (process_drive pf self d)) = registry self ∨
  ∃ now, registry (snd (process_drive pf self d)) =
         stamp_first (Location.id e) now (registry self).
Proof.
  intros H. unfold process_drive. rewrite (resolve_known _ _ _ _ H).
  pose proof (save_snapshot_registry pf self (Location.id e) d
    (scan_directory_tree (mounts pf (Drive.mount_point d)) 2)) as Hk.
  destruct (save_snapshot pf self (Location.id e) d _) as [s1|s1];
    simpl in *; [|by left].
  right. eexists. by rewrite Hk.
Qed.

Lemma find_drive_in_registry_elem locations d e :
  find_drive_in_registry locations d = Some e → e ∈ locations ∧ matches d e = true.
Proof.
  intros (b & a & -> & Hm & _)%find_drive_in_registry_Some.
  split; [|done]. apply elem_of_app. right. by left.
Qed.

(** C2, as stated, fails: both entries match the descriptor (one by device
    identifier, one by UUID) and the two orders of the registry resolve it
    to different ids. *)
Lemma order_independence_counterexample :
  [thor; nova] ≡ₚ [nova; thor] ∧
  matches nova_on_disk2 thor = true ∧ matches nova_on_disk2 nova = true ∧
  Location.id <$> find_drive_in_registry [thor; nova] nova_on_disk2 = Some "THOR" ∧
  Location.id <$> find_drive_in_registry [nova; thor] nova_on_disk2 = Some "NOVA".
Proof.
  split; [apply Permutation_swap|]. repeat split; reflexivity.
Qed.

(** C2, amended. Resolution returns the id of the first matching entry in
    registry order.  It gives the same id for every permutation of the
    registry when all the entries that match the descriptor carry one id (as
    when a single entry matches), and re-resolving a known volume after a
    full round of processing, which stamps the entry, yields the same id. *)
Theorem resolution_stable (pf : Platform) (self : DriveScanner) (d : Drive.t) :
  (∀ locations',
     registry self ≡ₚ locations' →
     (∀ x y, x ∈ registry self → y ∈ registry self →
        matches d x = true → matches d y = true →
        Location.id x = Location.id y) →
     Location.id <$> find_drive_in_registry locations' d
     = Location.id <$> find_drive_in_registry (registry self) d) ∧
  (∀ e, find_drive_in_registry (registry self) d = Some e →
     fst (resolve pf self d) = Resolved (Location.id e) ∧
     fst (resolve pf (snd (process_drive pf self d)) d) = Resolved (Location.id e)).
Proof.
  split.
  - intros locations' Hp Hid.
    destruct (find_drive_in_registry (registry self) d) as [e|] eqn:He.
    + apply find_drive_in_registry_elem in He as [Hin Hm].
      destruct (find_drive_in_registry locations' d) as [e'|] eqn:He'.
      * apply find_drive_in_registry_elem in He' as [Hin' Hm'].
        simpl. f_equal. apply Hid; [|done..]. by rewrite Hp.
      * exfalso. rewrite find_drive_in_registry_None in He'.
        rewrite He' in Hm; [done|]. by rewrite <- Hp.
    + rewrite find_drive_in_registry_None in He.
      assert (find_drive_in_registry locations' d = None) as ->; [|done].
      apply find_drive_in_registry_None. intros x Hx. apply He. by rewrite Hp.
  - intros e He. split; [by rewrite (resolve_known _ _ _ _ He)|].
    assert (Location.id <$> find_drive_in_registry
              (registry (snd (process_drive pf self d))) d
            = Some (Location.id e)) as Hs.
    { destruct (process_drive_known pf self d e He) as [->|[now ->]].
      - by rewrite He.
      - by rewrite find_drive_in_registry_stamp_first, He. }
    destruct (find_drive_in_registry
                (registry (snd (process_drive pf self d))) d) as [e'|] eqn:He';
      [|done].
    injection Hs as Hs. rewrite (resolve_known _ _ _ _ He'). simpl. by rewrite Hs.
Qed.

Lemma resolution_stable_witness :
  Location.id <$> find_drive_in_registry [nova; thor] nova_on_disk9
  = Location.id <$> find_drive_in_registry [thor; nova] nova_on_disk9.
Proof.
  apply (proj1 (resolution_stable platform_demo (scanner_demo [thor; nova] [])
                  nova_on_disk9)).
  - apply Permutation_swap.
  - intros x y Hx Hy Mx My.
    apply elem_of_cons in Hx as [->|Hx]; [discriminate Mx|].
    apply elem_of_cons in Hy as [->|Hy]; [discriminate My|].
    apply list_elem_of_singleton in Hx, Hy. by subst.
Defined.

(** ** Registry updates *)

Lemma stamp_first_hit drive_id now before l after :
  Location.id l = drive_id →
  (∀ x, x ∈ before → Location.id x ≠ drive_id) →
  stamp_first drive_id now (before ++ l :: after)
  = (before ++ Location.set_last_scanned now l :: after)%list.
Proof.
  intros Hl. induction before as [|b before IH]; intros Hb; simpl.
  - by rewrite (proj2 (String.eqb_eq _ _) Hl).
  - rewrite (proj2 (String.eqb_neq _ _)); [|apply Hb; by left].
    rewrite IH; [done|]. intros x Hx. apply Hb. by right.
Qed.

Lemma stamp_first_miss drive_id now locations :
  (∀ x, x ∈ locations → Location.id x ≠ drive_id) →
  stamp_first drive_id now locations = locations.
Proof.
  induction locations as [|l rest IH]; intros H; simpl; [done|].
  rewrite (proj2 (String.eqb_neq _ _)); [|apply H; by left].
  rewrite IH; [done|]. intros x Hx. apply H. by right.
Qed.

Lemma stamp_first_pointwise drive_id now locations :
  Forall2 (λ l l', l' = l ∨
             (Location.id l = drive_id ∧ l' = Location.set_last_scanned now l))
    locations (stamp_first drive_id now locations).
Proof.
  induction locations as [|l rest IH]; simpl; [constructor|].
  destruct (String.eqb_spec (Location.id l) drive_id) as [E|E].
  - constructor; [by right|]. apply Forall2_same_length_lookup_2; [done|].
    intros i x y Hx Hy. left. congruence.
  - constructor; [by left|done].
Qed.

Lemma stamp_first_ids drive_id now locations :
  map Location.id (stamp_first drive_id now locations) = map Location.id locations.
Proof.
  induction locations as [|l rest IH]; simpl; [done|].
  destruct (String.eqb (Location.id l) drive_id); simpl; [done|by rewrite IH].
Qed.

(** C9. [update_last_scanned] rewrites only the [last_scanned] field of the
    first entry whose id is the given one: the entries before and after it
    are kept, its other fields are kept, and a registry without that id keeps
    its content.  The result is saved to the registry file; nothing else of
    the scanner changes. *)
Theorem update_last_scanned_frame (pf : Platform) (self : DriveScanner)
    (drive_id : string) :
  let self' := update_last_scanned pf self drive_id in
  let now := utc_stamp pf self in
  (∀ before l after,
     registry self = (before ++ l :: after)%list →
     Location.id l = drive_id →
     (∀ x, x ∈ before → Location.id x ≠ drive_id) →
     registry self' = (before ++ Location.set_last_scanned now l :: after)%list) ∧
  ((∀ x, x ∈ registry self → Location.id x ≠ drive_id) →
   registry self' = registry self) ∧
  Forall2 (λ l l', l' = l ∨
             (Location.id l = drive_id ∧ l' = Location.set_last_scanned now l))
    (registry self) (registry self') ∧
  (∀ l, let l' := Location.set_last_scanned now l in
     Location.id l' = Location.id l ∧
     Location.kind l' = Location.kind l ∧
     Location.volume_uuid l' = Location.volume_uuid l ∧
     Location.device_identifier l' = Location.device_identifier l ∧
     Location.name l' = Location.name l ∧
     Location.capacity_bytes l' = Location.capacity_bytes l ∧
     Location.first_seen l' = Location.first_seen l ∧
     Location.status l' = Location.status l ∧
     Location.last_scanned l' = now) ∧
  registry_file self' = Some (registry self') ∧
  naming_rules self' = naming_rules self ∧
  snapshot_files self' = snapshot_files self ∧
  stdin self' = stdin self.
Proof.
  intros self' now. subst self'. unfold update_last_scanned. simpl.
  fold now. repeat split.
  - intros before l after -> Hl Hb. by apply stamp_first_hit.
  - apply stamp_first_miss.
  - apply stamp_first_pointwise.
Qed.

Lemma update_last_scanned_frame_witness :
  registry (update_last_scanned platform_demo (scanner_demo [thor; nova] []) "NOVA")
  = [thor; Location.set_last_scanned "2024-03-01T12:00:00Z" nova].
Proof.
  apply (proj1 (update_last_scanned_frame platform_demo
                  (scanner_demo [thor; nova] []) "NOVA") [thor] nova []);
    try reflexivity.
  intros x Hx. apply list_elem_of_singleton in Hx. subst x. discriminate.
Defined.

(** ** Identity uniqueness *)

Lemma upper_ascii_idemp c : PyStr.upper_ascii (PyStr.upper_ascii c) = PyStr.upper_ascii c.
Proof. destruct c as [[] [] [] [] [] [] [] []]; reflexivity. Qed.

Lemma upper_idemp s : PyStr.upper (PyStr.upper s) = PyStr.upper s.
Proof.
  induction s as [|c s IH]; simpl; [done|]. by rewrite upper_ascii_idemp, IH.
Qed.

Lemma elem_of_used_names x locations :
  x ∈ _get_used_names locations ↔ x ∈ map Location.id locations.
Proof. unfold _get_used_names. apply elem_of_list_to_set. Qed.

Lemma confirm_name_fresh used proposed_name lines confirmed_name rest :
  _confirm_name used proposed_name lines = (Some confirmed_name, rest) →
  PyStr.upper proposed_name ∉ used →
  (confirmed_name ∉ used) ∧ PyStr.upper confirmed_name = confirmed_name.
Proof.
  intros H Hp. induction lines as [|line lines IH]; simpl in H; [done|].
  destruct (PyStr.truthy (PyStr.strip line)).
  - destruct (decide (PyStr.upper (PyStr.strip line) ∈ used)); [by apply IH|].
    injection H as <- _. split; [done|apply upper_idemp].
  - injection H as <- _. split; [done|apply upper_idemp].
Qed.

Lemma get_available_name_fresh rules locations capacity_bytes name :
  _get_available_name rules locations capacity_bytes = Some name →
  PyStr.upper name ∉ _get_used_names locations.
Proof.
  unfold _get_available_name. intros H.
  apply first_available_Some in H as (_ & _ & _ & H & _). done.
Qed.

Lemma ids_canonical_step pf self self' :
  step pf self self' → ids_canonical (registry self) →
  ids_canonical (registry self').
Proof.
  intros Hs [Hnd Hup]. destruct Hs as [s d p c rest Ha Hc|s i|s i d ds|s rest].
  - apply get_available_name_fresh in Ha.
    destruct (confirm_name_fresh _ _ _ _ _ Hc Ha) as [Hfresh Hfix].
    simpl. split.
    + rewrite map_app. simpl. apply NoDup_app. split; [done|].
      split; [|apply NoDup_singleton].
      intros x Hx [->|[]%elem_of_nil]%elem_of_cons.
      apply Hfresh. rewrite elem_of_used_names. by rewrite <- Hfix.
    + intros l [Hl|[->|[]%elem_of_nil]%elem_of_cons]%elem_of_app; [auto|].
      simpl. apply upper_idemp.
  - simpl. split.
    + by rewrite stamp_first_ids.
    + intros l Hl.
      pose proof (stamp_first_pointwise i (utc_stamp pf s) (registry s)) as HF.
      apply list_elem_of_lookup in Hl as [k Hk].
      destruct (Forall2_lookup_r _ _ _ _ _ HF Hk) as (l0 & Hl0 & [->|[_ ->]]);
        apply list_elem_of_lookup_2 in Hl0; simpl; auto.
  - by rewrite save_snapshot_registry.
  - done.
Qed.

Lemma reachable_ids_canonical pf self :
  reachable pf self → ids_canonical (registry self).
Proof.
  induction 1 as [self E|self self' _ IH Hs].
  - rewrite E. split; [constructor|]. intros l []%elem_of_nil.
  - by eapply ids_canonical_step.
Qed.

Lemma ids_canonical_unique locations :
  ids_canonical locations →
  NoDup (map (λ l, PyStr.upper (Location.id l)) locations).
Proof.
  intros [Hnd Hup].
  assert (map (λ l, PyStr.upper (Location.id l)) locations
          = map Location.id locations) as ->; [|done].
  apply map_ext_in. intros l Hl. apply Hup. by apply list_elem_of_In.
Qed.

Lemma step_keeps_ids pf self self' :
  step pf self self' →
  map Location.id (registry self) `prefix_of` map Location.id (registry self').
Proof.
  intros [s d p c rest Ha Hc|s i|s i d ds|s rest]; simpl.
  - rewrite map_app. by apply prefix_app_r.
  - by rewrite stamp_first_ids.
  - by rewrite save_snapshot_registry.
  - done.
Qed.

Lemma scan_and_save_reachable pf self i d ds :
  reachable pf self →
  reachable pf
    (snd (match save_snapshot pf self i d ds with
          | NotSaved self1 => (Crashed, self1)
          | Saved self1 => (Scanned i ds, update_last_scanned pf self1 i)
          end)).
Proof.
  intros Hr. pose proof (step_snapshot pf self i d ds) as Hs.
  destruct (save_snapshot pf self i d ds) as [self1|self1]; simpl in *.
  - eapply reachable_step; [|apply step_update]. by eapply reachable_step.
  - by eapply reachable_step.
Qed.

Lemma process_drive_reachable pf self d :
  reachable pf self → reachable pf (snd (process_drive pf self d)).
Proof.
  intros Hr. unfold process_drive, resolve.
  destruct (find_drive_in_registry (registry self) d) as [e|].
  { by apply scan_and_save_reachable. }
  destruct (_get_available_name _ _ _) as [p|] eqn:Ha; [|done].
  destruct (PyStr.truthy p); [|done].
  destruct (_confirm_name _ p (stdin self)) as [[c|] rest] eqn:Hc.
  - cbv zeta. cbn [register_new_drive].
    apply scan_and_save_reachable.
    eapply reachable_step; [exact Hr|].
    exact (step_register pf self d p c rest Ha Hc).
  - simpl. eapply reachable_step; [exact Hr|apply step_input].
Qed.

Lemma scan_all_drives_reachable pf drives : ∀ self,
  reachable pf self → reachable pf (snd (scan_all_drives pf self drives)).
Proof.
  induction drives as [|d rest IH]; intros self Hr; simpl; [done|].
  pose proof (process_drive_reachable pf self d Hr) as Hp.
  destruct (process_drive pf self d) as [r self1]. simpl in Hp.
  specialize (IH self1 Hp).
  destruct (scan_all_drives pf self1 rest) as [log self2].
  by destruct r.
Qed.

(** C7. [register_new_drive] appends exactly one entry: its id is the
    uppercase form of the confirmed name, its kind [external_drive], its
    [first_seen] and [last_scanned] both the registration time, its status
    [active]; the registry is saved at once.  Names reach it only through
    [_get_available_name] and [_confirm_name], so every registry reachable
    from an empty one, in particular after any run of [scan_all_drives], has
    ids that are unique up to case; and no operation changes the id of an
    entry that exists. *)
Theorem registration_keeps_ids_unique (pf : Platform) :
  (∀ self d name,
     let result := register_new_drive pf self d name in
     fst result = PyStr.upper name ∧
     ∃ entry,
       registry (snd result) = (registry self ++ [entry])%list ∧
       Location.id entry = PyStr.upper name ∧
       Location.kind entry = "external_drive" ∧
       Location.first_seen entry = utc_stamp pf self ∧
       Location.last_scanned entry = utc_stamp pf self ∧
       Location.status entry = "active" ∧
       registry_file (snd result) = Some (registry (snd result))) ∧
  (∀ self, reachable pf self →
     NoDup (map (λ l, PyStr.upper (Location.id l)) (registry self))) ∧
  (∀ self drives, registry self = [] →
     NoDup (map (λ l, PyStr.upper (Location.id l))
              (registry (snd (scan_all_drives pf self drives))))) ∧
  (∀ self self', step pf self self' →
     map Location.id (registry self) `prefix_of` map Location.id (registry self')).
Proof.
  split; [|split; [|split]].
  - intros self d name. simpl. split; [done|]. eexists. split; [reflexivity|]. done.
  - intros self Hr. by apply ids_canonical_unique, reachable_ids_canonical with pf.
  - intros self drives E.
    apply ids_canonical_unique, reachable_ids_canonical with pf.
    apply scan_all_drives_reachable. by constructor.
  - apply step_keeps_ids.
Qed.

(** A first run on an empty registry, the proposed name accepted at the
    prompt. *)
Lemma registration_keeps_ids_unique_witness :
  NoDup (map (λ l, PyStr.upper (Location.id l))
           (registry (snd (scan_all_drives platform_demo
                             (scanner_demo [] [""]) [usb_stick; usb_stick])))).
Proof.
  apply (proj1 (proj2 (proj2 (registration_keeps_ids_unique platform_demo)))).
  reflexivity.
Defined.

(** ** Orchestrator *)

(** C6. When the volume is not in the registry and every name of the pool
    selected for its capacity is used, allocation returns [None], the
    identity step ends in [NoAvailableIdentity], and the round is skipped
    with the scanner untouched: nothing is registered or saved, no snapshot
    is written, no prompt is read, and the loop goes on with the remaining
    volumes. *)
Theorem exhausted_pool_skips_volume (pf : Platform) (self : DriveScanner)
    (d : Drive.t) (rest : list Drive.t) :
  find_drive_in_registry (registry self) d = None →
  (∀ name,
     name ∈ name_pool (naming_rules self)
              (select_category (naming_rules self) (to_tb (Drive.capacity_bytes d))) →
     PyStr.upper name ∈ _get_used_names (registry self)) →
  _get_available_name (naming_rules self) (registry self)
    (Drive.capacity_bytes d) = None ∧
  resolve pf self d = (NoAvailableIdentity, self) ∧
  process_drive pf self d = (Skipped, self) ∧
  scan_all_drives pf self (d :: rest)
  = (Skipped :: fst (scan_all_drives pf self rest),
     snd (scan_all_drives pf self rest)).
Proof.
  intros Hfind Hused.
  assert (Ha : _get_available_name (naming_rules self) (registry self)
                 (Drive.capacity_bytes d) = None)
    by (by apply first_available_None).
  assert (Hr : resolve pf self d = (NoAvailableIdentity, self))
    by (unfold resolve; by rewrite Hfind, Ha).
  assert (Hp : process_drive pf self d = (Skipped, self))
    by (unfold process_drive; by rewrite Hr).
  repeat split; try done.
  simpl. rewrite Hp. by destruct (scan_all_drives pf self rest).
Qed.

(** Scenario D: the small pool is used up and a small volume arrives. *)
Lemma exhausted_pool_skips_volume_witness :
  process_drive platform_demo (scanner_demo [groot] []) usb_stick
  = (Skipped, scanner_demo [groot] []).
Proof.
  refine (proj1 (proj2 (proj2
    (exhausted_pool_skips_volume platform_demo (scanner_demo [groot] [])
       usb_stick [] _ _)))).
  - reflexivity.
  - intros name Hn. vm_compute in Hn.
    apply list_elem_of_singleton in Hn. subst name.
    apply elem_of_used_names. simpl. apply list_elem_of_singleton. reflexivity.
Defined.

(** ** TreeScanner *)

Lemma scan_recursive_guard max_depth current_path current current_depth
    directories :
  max_depth < current_depth →
  scan_recursive max_depth current_path current current_depth directories
  = directories.
Proof.
  intros H. destruct current; simpl; by rewrite (proj2 (Z.ltb_lt _ _) H).
Qed.

(** C10. With a negative [max_depth] the depth guard rejects the root, at
    depth 0, before anything is appended: the scan returns the empty list. *)
Theorem negative_max_depth_scans_nothing (root : node) (max_depth : Z) :
  max_depth < 0 → scan_directory_tree root max_depth = [].
Proof.
  intros H. unfold scan_directory_tree. by apply scan_recursive_guard.
Qed.

Lemma negative_max_depth_scans_nothing_witness :
  scan_directory_tree tree_demo (-1) = [].
Proof. apply negative_max_depth_scans_nothing. lia. Defined.

(** Scenario C: [b] and [c] are counted in the totals of [a] and of the
    root, and have no record of their own at [max_depth = 1]. *)
Example scenario_C :
  scan_directory_tree tree_demo 1
  = [{| relative_path := "/"; depth := 0; size_bytes := 30; file_count := 2 |};
     {| relative_path := "a"; depth := 1; size_bytes := 30; file_count := 2 |}].
Proof. reflexivity. Qed.

(** An item that cannot be inspected is left out of the totals, and ends
    the listing of its directory during the traversal. *)
Example scan_with_unreadable_items :
  scan_directory_tree
    (Dir [("a", Dir [("f", File 5)]); ("x", Broken); ("b", Locked)]) 1
  = [{| relative_path := "/"; depth := 0; size_bytes := 5; file_count := 1 |};
     {| relative_path := "a"; depth := 1; size_bytes := 5; file_count := 1 |}].
Proof. reflexivity. Qed.

(** Induction over file trees, with the hypothesis for every entry of a
    directory. *)
Lemma node_tree_ind (P : node → Prop) :
  (∀ st_size, P (File st_size)) →
  (∀ entries, Forall (λ entry, P (snd entry)) entries → P (Dir entries)) →
  P Locked → P Other → P Broken →
  ∀ n, P n.
Proof.
  intros HF HD HL HO HB.
  fix IH 1. intros [st_size|entries| | |];
    [apply HF| |exact HL|exact HO|exact HB].
  apply HD. induction entries as [|[item_name item] rest IHrest];
    constructor; [apply IH|exact IHrest].
Qed.

Lemma sum_N_app l1 l2 : sum_N (l1 ++ l2) = (sum_N l1 + sum_N l2)%N.
Proof. induction l1 as [|x l1 IH]; simpl; [done|]. rewrite IH. lia. Qed.

Lemma files_beneath_Dir entries :
  files_beneath (Dir entries) = flat_map item_files entries.
Proof. reflexivity. Qed.

Lemma size_loop_cons f item_name item rest total_size file_count :
  size_loop f ((item_name, item) :: rest) total_size file_count =
  match item with
  | File st_size => size_loop f rest (total_size + st_size)%N (file_count + 1)%N
  | Dir _ | Locked =>
      let '(dir_size, dir_files) := f item in
      size_loop f rest (total_size + dir_size)%N (file_count + dir_files)%N
  | Other | Broken => size_loop f rest total_size file_count
  end.
Proof. reflexivity. Qed.

Lemma scan_loop_cons f item_name item rest directories :
  scan_loop f ((item_name, item) :: rest) directories =
  match item with
  | Dir _ | Locked => scan_loop f rest (f item_name item directories)
  | File _ | Other => scan_loop f rest directories
  | Broken => directories
  end.
Proof. reflexivity. Qed.

Lemma visit_loop_cons f item_name item rest :
  visit_loop f ((item_name, item) :: rest) =
  match item with
  | Dir _ | Locked => (f item_name item ++ visit_loop f rest)%list
  | File _ | Other => visit_loop f rest
  | Broken => []
  end.
Proof. reflexivity. Qed.

Lemma size_loop_total (entries : list (string * node)) :
  Forall (λ entry, get_dir_size_and_files (snd entry)
          = (sum_N (files_beneath (snd entry)),
             N.of_nat (length (files_beneath (snd entry))))) entries →
  ∀ total_size file_count,
    size_loop get_dir_size_and_files entries total_size file_count
    = ((total_size + sum_N (flat_map item_files entries))%N,
       (file_count + N.of_nat (length (flat_map item_files entries)))%N).
Proof.
  induction 1 as [|[item_name item] rest Hitem _ IHrest];
    intros total_size file_count.
  - simpl. f_equal; lia.
  - cbn [flat_map]. rewrite size_loop_cons.
    rewrite sum_N_app, length_app. simpl in Hitem.
    destruct item as [st_size|sub| | |].
    + rewrite IHrest. unfold item_files; simpl. f_equal; lia.
    + rewrite Hitem. cbv beta iota. rewrite IHrest.
      unfold item_files; simpl snd. f_equal; lia.
    + rewrite Hitem. cbv beta iota. rewrite IHrest.
      unfold item_files; simpl snd. f_equal; lia.
    + rewrite IHrest. unfold item_files; simpl. f_equal; lia.
    + rewrite IHrest. unfold item_files; simpl. f_equal; lia.
Qed.

Lemma get_dir_size_and_files_total n :
  get_dir_size_and_files n
  = (sum_N (files_beneath n), N.of_nat (length (files_beneath n))).
Proof.
  induction n as [st_size|entries IH| | |] using node_tree_ind; try reflexivity.
  rewrite files_beneath_Dir. cbn [get_dir_size_and_files].
  rewrite (size_loop_total entries IH). f_equal.
Qed.

Lemma scan_recursive_eq max_depth current_path current current_depth directories :
  scan_recursive max_depth current_path current current_depth directories =
  if max_depth <? current_depth then directories
  else
    let directories :=
      (directories ++
       [dir_info current_path current_depth (get_dir_size_and_files current)])%list in
    if current_depth <? max_depth then
      match current with
      | Dir entries =>
          scan_loop
            (λ item_name item,
               scan_recursive max_depth (current_path ++ [item_name])%list item
                 (current_depth + 1))
            entries directories
      | _ => directories
      end
    else directories.
Proof. destruct current; reflexivity. Qed.

Lemma visits_eq k current_path current :
  visits k current_path current =
  (current_path, current) ::
  match k with
  | O => []
  | S k' =>
      match current with
      | Dir entries =>
          visit_loop
            (λ item_name item, visits k' (current_path ++ [item_name])%list item)
            entries
      | _ => []
      end
  end.
Proof. destruct current; reflexivity. Qed.

Lemma scan_loop_visits (entries : list (string * node)) max_depth k p :
  Forall (λ entry, ∀ k p acc max_depth,
            max_depth = Z.of_nat (length p) + Z.of_nat k →
            scan_recursive max_depth p (snd entry) (Z.of_nat (length p)) acc
            = (acc ++ map stat_of (visits k p (snd entry)))%list) entries →
  max_depth = Z.of_nat (length p) + Z.of_nat (S k) →
  ∀ acc,
    scan_loop
      (λ item_name item,
         scan_recursive max_depth (p ++ [item_name])%list item
           (Z.of_nat (length p) + 1))
      entries acc
    = (acc ++ map stat_of
         (visit_loop (λ item_name item, visits k (p ++ [item_name])%list item)
            entries))%list.
Proof.
  intros HF Hmd.
  induction HF as [|[item_name item] rest Hitem _ IHrest]; intros acc.
  - simpl. by rewrite app_nil_r.
  - rewrite scan_loop_cons, visit_loop_cons. simpl in Hitem.
    assert (Hlen : Z.of_nat (length p) + 1
                   = Z.of_nat (length (p ++ [item_name])%list))
      by (rewrite length_app; simpl; lia).
    destruct item as [st_size|sub| | |]; try apply IHrest.
    + rewrite IHrest, Hlen, (Hitem k); [|lia].
      by rewrite map_app, app_assoc.
    + rewrite IHrest, Hlen, (Hitem k); [|lia].
      by rewrite map_app, app_assoc.
    + simpl. by rewrite app_nil_r.
Qed.

Lemma scan_recursive_visits n : ∀ k p acc max_depth,
  max_depth = Z.of_nat (length p) + Z.of_nat k →
  scan_recursive max_depth p n (Z.of_nat (length p)) acc
  = (acc ++ map stat_of (visits k p n))%list.
Proof.
  induction n as [st_size|entries IH| | |] using node_tree_ind;
    intros k p acc max_depth Hmd;
    rewrite scan_recursive_eq, visits_eq;
    (rewrite (proj2 (Z.ltb_ge _ _)); [|lia]); cbn zeta;
    (destruct k as [|k];
      [rewrite (proj2 (Z.ltb_ge _ _)); [reflexivity|lia]
      |rewrite (proj2 (Z.ltb_lt _ _)); [|lia]]); try reflexivity.
  rewrite (scan_loop_visits entries max_depth k p IH Hmd).
  cbn [map]. by rewrite <- app_assoc.
Qed.

Lemma scan_directory_tree_visits root max_depth :
  0 ≤ max_depth →
  scan_directory_tree root max_depth
  = map stat_of (visits (Z.to_nat max_depth) [] root).
Proof.
  intros H. unfold scan_directory_tree.
  apply (scan_recursive_visits root (Z.to_nat max_depth) [] []). simpl. lia.
Qed.

(** *** Relative paths as strings *)

Lemma split_slash_name s : has_slash s = false → split_slash s = [s].
Proof.
  induction s as [|c s IH]; simpl; [done|].
  intros [Hc Hs]%orb_false_elim. rewrite Hc, (IH Hs). done.
Qed.

Lemma split_slash_app s t :
  has_slash s = false →
  split_slash (s +:+ "/" +:+ t) = s :: split_slash t.
Proof.
  induction s as [|c s IH]; simpl; [done|].
  intros [Hc Hs]%orb_false_elim. rewrite Hc, (IH Hs). done.
Qed.

Lemma valid_name_inv s :
  valid_name s = true → s ≠ "" ∧ s ≠ "." ∧ has_slash s = false.
Proof.
  unfold valid_name. intros [[H1 H2]%andb_prop H3]%andb_prop.
  apply negb_true_iff in H1, H2, H3.
  apply String.eqb_neq in H1, H2. done.
Qed.

Lemma split_slash_join name names :
  Forall (λ s, valid_name s = true) (name :: names) →
  split_slash (PyStr.join "/" (name :: names)) = name :: names.
Proof.
  revert name. induction names as [|name' names IH]; intros name HF.
  - simpl. apply split_slash_name.
    apply Forall_cons in HF as [H _]. by apply valid_name_inv in H as (_ & _ & H).
  - apply Forall_cons in HF as [H HF].
    change (PyStr.join "/" (name :: name' :: names))
      with (name +:+ "/" +:+ PyStr.join "/" (name' :: names)).
    rewrite split_slash_app; [|by apply valid_name_inv in H as (_ & _ & H)].
    by rewrite IH.
Qed.

Lemma parts_of_relative_path_of parts :
  Forall (λ s, valid_name s = true) parts →
  parts_of (relative_path_of parts) = parts.
Proof.
  destruct parts as [|name names]; [done|]. intros HF.
  pose proof (split_slash_join name names HF) as Hs.
  pose proof (Forall_inv HF) as Hv. apply valid_name_inv in Hv as (Hne & Hnd & _).
  unfold relative_path_of, parts_of.
  change (relative_to_str (name :: names)) with (PyStr.join "/" (name :: names)).
  destruct (String.eqb_spec (PyStr.join "/" (name :: names)) ".") as [E|_].
  { rewrite E in Hs. simpl in Hs. congruence. }
  destruct (String.eqb_spec (PyStr.join "/" (name :: names)) "/") as [E|_].
  { rewrite E in Hs. simpl in Hs. congruence. }
  done.
Qed.

(** *** Paths in a tree *)

Lemma well_formed_Dir entries :
  well_formed (Dir entries) = true →
  Forall (λ s, valid_name s = true) (map fst entries) ∧
  NoDup (map fst entries) ∧
  Forall (λ entry, well_formed (snd entry) = true) entries.
Proof.
  simpl. intros [[H1 H2]%andb_prop H3]%andb_prop.
  split; [|split].
  - apply Forall_forall. intros s Hs%list_elem_of_In.
    by apply (proj1 (forallb_forall _ _) H1).
  - by apply bool_decide_eq_true in H2.
  - apply Forall_forall. intros e He%list_elem_of_In.
    by apply (proj1 (forallb_forall _ _) H3).
Qed.

Lemma stat_ok_Dir entries :
  stat_ok (Dir entries) = true →
  Forall (λ entry, stat_ok (snd entry) = true) entries.
Proof.
  simpl. intros H. apply Forall_forall. intros e He%list_elem_of_In.
  by apply (proj1 (forallb_forall _ _) H).
Qed.

Lemma at_path_nil_inv n m : at_path n [] m → m = n.
Proof. by inversion 1. Qed.

Lemma at_path_cons_inv n item_name parts m :
  at_path n (item_name :: parts) m →
  ∃ entries item, n = Dir entries ∧ (item_name, item) ∈ entries ∧
    at_path item parts m.
Proof. inversion 1; subst. eauto. Qed.

Lemma at_path_app n parts1 m1 parts2 m :
  at_path n parts1 m1 → at_path m1 parts2 m → at_path n (parts1 ++ parts2) m.
Proof.
  induction 1 as [|entries item_name item parts n Hin _ IH]; [done|].
  intros H. simpl. eapply at_path_step; eauto.
Qed.

Lemma at_path_app_inv n parts1 parts2 m :
  at_path n (parts1 ++ parts2) m →
  ∃ m1, at_path n parts1 m1 ∧ at_path m1 parts2 m.
Proof.
  revert n. induction parts1 as [|item_name parts1 IH]; intros n H.
  - exists n. split; [constructor|done].
  - simpl in H. apply at_path_cons_inv in H as (entries & item & -> & Hin & H).
    apply IH in H as (m1 & H1 & H2). exists m1. split; [|done].
    eapply at_path_step; eauto.
Qed.

Lemma at_path_well_formed n parts m :
  at_path n parts m → well_formed n = true →
  Forall (λ s, valid_name s = true) parts ∧ well_formed m = true.
Proof.
  induction 1 as [|entries item_name item parts n Hin _ IH]; intros Hwf;
    [by split|].
  apply well_formed_Dir in Hwf as (Hv & _ & Hsub).
  destruct IH as [IH1 IH2].
  { exact (proj1 (Forall_forall _ _) Hsub _ Hin). }
  split; [|done]. constructor; [|done].
  apply (proj1 (Forall_forall _ _) Hv).
  apply list_elem_of_fmap. by exists (item_name, item).
Qed.

Lemma listing_functional (entries : list (string * node)) item_name item1 item2 :
  NoDup (map fst entries) →
  (item_name, item1) ∈ entries → (item_name, item2) ∈ entries → item1 = item2.
Proof.
  induction entries as [|[a b] rest IH]; [by intros _ ?%elem_of_nil|].
  simpl. intros [Hnot Hnd]%NoDup_cons.
  assert (Hfst : ∀ item, (item_name, item) ∈ rest → item_name ∈ map fst rest).
  { intros item H. apply list_elem_of_fmap. by exists (item_name, item). }
  intros [[= -> ->]|H1]%elem_of_cons [[= ->]|H2]%elem_of_cons; auto.
  - by apply Hfst in H2.
  - subst. by apply Hfst in H1.
Qed.

Lemma at_path_functional n parts m1 m2 :
  well_formed n = true → at_path n parts m1 → at_path n parts m2 → m1 = m2.
Proof.
  intros Hwf H1. revert m2. induction H1 as [|entries item_name item parts n Hin _ IH];
    intros m2 H2.
  - by apply at_path_nil_inv in H2.
  - apply at_path_cons_inv in H2 as (entries' & item' & [= <-] & Hin' & H2).
    apply well_formed_Dir in Hwf as (_ & Hnd & Hsub).
    assert (item' = item) as -> by (eapply listing_functional; eauto).
    apply IH; [|done]. exact (proj1 (Forall_forall _ _) Hsub _ Hin).
Qed.

Lemma sum_N_flat_map_le {A} (f : A → list N) (l : list A) x :
  x ∈ l → (sum_N (f x) <= sum_N (flat_map f l))%N.
Proof.
  induction l as [|y l IH]; [by intros ?%elem_of_nil|].
  simpl. rewrite sum_N_app. intros [->|H]%elem_of_cons; [lia|].
  specialize (IH H). lia.
Qed.

Lemma length_flat_map_le {A B} (f : A → list B) (l : list A) x :
  x ∈ l → (length (f x) <= length (flat_map f l))%nat.
Proof.
  induction l as [|y l IH]; [by intros ?%elem_of_nil|].
  simpl. rewrite length_app. intros [->|H]%elem_of_cons; [lia|].
  specialize (IH H). lia.
Qed.

Lemma files_beneath_item_le entry :
  (sum_N (files_beneath (snd entry)) <= sum_N (item_files entry))%N ∧
  (length (files_beneath (snd entry)) <= length (item_files entry))%nat.
Proof.
  unfold item_files. destruct (snd entry); simpl; split; lia.
Qed.

(** Totals only grow towards the root. *)
Lemma at_path_totals_le n parts m :
  at_path n parts m →
  (sum_N (files_beneath m) <= sum_N (files_beneath n))%N ∧
  (length (files_beneath m) <= length (files_beneath n))%nat.
Proof.
  induction 1 as [|entries item_name item parts n Hin _ [IH1 IH2]]; [done|].
  rewrite files_beneath_Dir.
  pose proof (sum_N_flat_map_le item_files entries _ Hin).
  pose proof (length_flat_map_le item_files entries _ Hin).
  pose proof (files_beneath_item_le (item_name, item)) as [? ?].
  simpl in *. split; lia.
Qed.

(** *** What the scan visits *)

Lemma visit_loop_elem f (entries : list (string * node)) x :
  x ∈ visit_loop f entries →
  ∃ item_name item, (item_name, item) ∈ entries ∧
    is_directory item = true ∧ x ∈ f item_name item.
Proof.
  induction entries as [|[item_name item] rest IH]; [by intros ?%elem_of_nil|].
  rewrite visit_loop_cons. intros H.
  assert (Hrest : x ∈ visit_loop f rest →
    ∃ item_name0 item0, (item_name0, item0) ∈ (item_name, item) :: rest ∧
      is_directory item0 = true ∧ x ∈ f item_name0 item0).
  { intros (a & b & Hin & Hd & Hx)%IH. exists a, b. split; [by right|done]. }
  destruct item as [st_size|sub| | |]; auto.
  - apply elem_of_app in H as [H|H]; auto.
    exists item_name, (Dir sub). split; [by left|done].
  - apply elem_of_app in H as [H|H]; auto.
    exists item_name, Locked. split; [by left|done].
  - by apply elem_of_nil in H.
Qed.

Lemma visits_sound n : ∀ k p q m,
  (q, m) ∈ visits k p n →
  ∃ q', q = (p ++ q')%list ∧ at_path n q' m ∧ (length q' <= k)%nat ∧
        (q' = [] ∨ is_directory m = true).
Proof.
  induction n as [st_size|entries IH| | |] using node_tree_ind;
    intros k p q m; rewrite visits_eq;
    (intros [[= -> ->]|H]%elem_of_cons;
     [exists []; rewrite app_nil_r;
      split; [done|split; [constructor|split; [simpl; lia|by left]]]|]);
    try (destruct k; by apply elem_of_nil in H).
  destruct k as [|k]; [by apply elem_of_nil in H|].
  apply visit_loop_elem in H as (item_name & item & Hin & Hdir & H).
  pose proof (proj1 (Forall_forall _ _) IH _ Hin) as IHitem. simpl in IHitem.
  apply IHitem in H as (q' & -> & Hat & Hlen & Hq').
  exists (item_name :: q'). split; [by rewrite <- app_assoc|].
  split; [by eapply at_path_step|]. split; [simpl; lia|]. right.
  destruct Hq' as [->|Hm]; [|done]. by apply at_path_nil_inv in Hat as ->.
Qed.

Lemma scan_elem root max_depth r :
  r ∈ scan_directory_tree root max_depth →
  0 ≤ max_depth ∧
  ∃ parts n, r = stat_of (parts, n) ∧ at_path root parts n ∧
    (Z.of_nat (length parts) ≤ max_depth) ∧
    (parts = [] ∨ is_directory n = true).
Proof.
  intros Hr. destruct (Z.lt_ge_cases max_depth 0) as [Hneg|Hpos].
  { unfold scan_directory_tree in Hr.
    rewrite scan_recursive_guard in Hr; [|done]. by apply elem_of_nil in Hr. }
  split; [done|]. rewrite scan_directory_tree_visits in Hr; [|done].
  apply list_elem_of_fmap in Hr as ([parts n] & -> & Hv).
  apply visits_sound in Hv as (q' & -> & Hat & Hlen & Hd).
  exists q', n. simpl. repeat split; try done. lia.
Qed.

(** C4. For every tree and every [max_depth >= 0], each record of the scan
    belongs to a path of the tree and reports the sum of the sizes, and the
    number, of all regular files beneath that path at any depth.  The first
    record is the root's, with the totals of the whole tree, also when
    [max_depth = 0], where it is the only record. *)
Theorem aggregation_ignores_max_depth (root : node) (max_depth : Z) :
  0 ≤ max_depth →
  let root_stat :=
    {| relative_path := "/"; depth := 0;
       size_bytes := sum_N (files_beneath root);
       file_count := N.of_nat (length (files_beneath root)) |} in
  (∃ rest, scan_directory_tree root max_depth = root_stat :: rest) ∧
  (max_depth = 0 → scan_directory_tree root max_depth = [root_stat]) ∧
  (∀ r, r ∈ scan_directory_tree root max_depth →
     ∃ parts n,
       at_path root parts n ∧
       relative_path r = relative_path_of parts ∧
       depth r = Z.of_nat (length parts) ∧
       size_bytes r = sum_N (files_beneath n) ∧
       file_count r = N.of_nat (length (files_beneath n))).
Proof.
  intros Hmd root_stat.
  assert (Hroot : stat_of ([], root) = root_stat).
  { unfold stat_of, dir_info, root_stat. simpl fst. simpl snd.
    by rewrite get_dir_size_and_files_total. }
  split; [|split].
  - rewrite scan_directory_tree_visits, visits_eq; [|done].
    cbn [map]. rewrite Hroot. eauto.
  - intros ->. rewrite scan_directory_tree_visits, visits_eq; [|done].
    simpl. by rewrite Hroot.
  - intros r (_ & parts & n & -> & Hat & _)%scan_elem.
    exists parts, n. split; [done|].
    unfold stat_of, dir_info. simpl.
    by rewrite get_dir_size_and_files_total.
Qed.

(** Scenario C with [max_depth = 0]: the files two levels down are counted
    in the only record. *)
Lemma aggregation_ignores_max_depth_witness :
  scan_directory_tree tree_demo 0
  = [{| relative_path := "/"; depth := 0; size_bytes := 30; file_count := 2 |}].
Proof.
  exact (proj1 (proj2 (aggregation_ignores_max_depth tree_demo 0 (Z.le_refl 0)))
           eq_refl).
Defined.

(** C8. In the records of one scan of a file tree, a record whose relative
    path lies strictly beneath another's has at most that one's size and
    at most its file count. *)
Theorem aggregation_monotonic (root : node) (max_depth : Z)
    (a b : DirectoryStat) :
  well_formed root = true →
  a ∈ scan_directory_tree root max_depth →
  b ∈ scan_directory_tree root max_depth →
  strict_descendant (relative_path a) (relative_path b) →
  (size_bytes b <= size_bytes a)%N ∧ (file_count b <= file_count a)%N.
Proof.
  intros Hwf (_ & pa & na & -> & Ha & _)%scan_elem
    (_ & pb & nb & -> & Hb & _)%scan_elem (item_name & rest & Hd).
  unfold stat_of, dir_info in *. simpl in *.
  rewrite !parts_of_relative_path_of in Hd
    by (eapply at_path_well_formed; eauto).
  subst pb. apply at_path_app_inv in Hb as (m1 & Hm1 & Hb).
  assert (m1 = na) as -> by (eapply at_path_functional; eauto).
  apply at_path_totals_le in Hb as [? ?].
  rewrite !get_dir_size_and_files_total. simpl. split; lia.
Qed.

Lemma aggregation_monotonic_witness :
  (10 <= 30)%N ∧ (1 <= 2)%N.
Proof.
  apply (aggregation_monotonic tree_demo 2
    {| relative_path := "a"; depth := 1; size_bytes := 30; file_count := 2 |}
    {| relative_path := "a/b"; depth := 2; size_bytes := 10; file_count := 1 |}).
  - reflexivity.
  - vm_compute. set_solver.
  - vm_compute. set_solver.
  - exists "b", []. reflexivity.
Defined.

(** *** Emission: one record per directory, in pre-order *)

Lemma visits_below_item k p item_name item x :
  x ∈ visits k (p ++ [item_name])%list item →
  ∃ q, fst x = (p ++ item_name :: q)%list.
Proof.
  destruct x as [q m]. intros (q' & -> & _)%visits_sound.
  exists q'. simpl. by rewrite <- app_assoc.
Qed.

Lemma visit_loop_below k p (entries : list (string * node)) x :
  x ∈ visit_loop (λ item_name item, visits k (p ++ [item_name])%list item) entries →
  ∃ item_name q, item_name ∈ map fst entries ∧ fst x = (p ++ item_name :: q)%list.
Proof.
  intros (item_name & item & Hin & _ & Hx)%visit_loop_elem.
  apply visits_below_item in Hx as [q Hq]. exists item_name, q.
  split; [|done]. apply list_elem_of_fmap. by exists (item_name, item).
Qed.

Lemma below_same_name (p : list string) a qa b qb :
  (p ++ a :: qa)%list = (p ++ b :: qb)%list → a = b.
Proof. intros H%app_inv_head. congruence. Qed.

Lemma visit_loop_intro f (entries : list (string * node)) item_name item x :
  Forall (λ entry, stat_ok (snd entry) = true) entries →
  (item_name, item) ∈ entries → is_directory item = true →
  x ∈ f item_name item → x ∈ visit_loop f entries.
Proof.
  induction 1 as [|[a b] rest Hok _ IH]; [by intros ?%elem_of_nil|].
  rewrite visit_loop_cons. simpl in Hok.
  intros [[= <- <-]|Hin]%elem_of_cons Hdir Hx.
  - destruct item; try done; apply elem_of_app; by left.
  - specialize (IH Hin Hdir Hx).
    destruct b; try done; apply elem_of_app; by right.
Qed.

Lemma visits_complete n q m :
  at_path n q m → ∀ k p,
  stat_ok n = true → (q = [] ∨ is_directory m = true) → (length q <= k)%nat →
  ((p ++ q)%list, m) ∈ visits k p n.
Proof.
  induction 1 as [|entries item_name item parts n Hin Hat IH];
    intros k p Hok Hdir Hlen; rewrite visits_eq.
  - rewrite app_nil_r. by left.
  - right. destruct k as [|k]; [simpl in Hlen; lia|].
    apply stat_ok_Dir in Hok.
    apply (visit_loop_intro _ entries item_name item); [done..| |].
    + destruct Hdir as [?|Hdir]; [done|].
      destruct parts; [by apply at_path_nil_inv in Hat as ->|].
      by apply at_path_cons_inv in Hat as (? & ? & -> & _).
    + replace (p ++ item_name :: parts)%list
        with ((p ++ [item_name]) ++ parts)%list by (by rewrite <- app_assoc).
      apply IH.
      * exact (proj1 (Forall_forall _ _) Hok _ Hin).
      * destruct Hdir as [?|Hdir]; [done|]. by right.
      * simpl in Hlen. lia.
Qed.

Lemma visit_loop_NoDup k p (entries : list (string * node)) :
  NoDup (map fst entries) →
  Forall (λ entry, ∀ k p, NoDup (map fst (visits k p (snd entry)))) entries →
  NoDup (map fst
    (visit_loop (λ item_name item, visits k (p ++ [item_name])%list item) entries)).
Proof.
  intros Hnd HF. induction HF as [|[item_name item] rest Hitem _ IH];
    [constructor|].
  simpl in Hnd. apply NoDup_cons in Hnd as [Hfresh Hnd].
  specialize (IH Hnd). rewrite visit_loop_cons. simpl in Hitem.
  assert (Happ : NoDup (map fst
    (visits k (p ++ [item_name]) item ++
     visit_loop (λ item_name0 item0, visits k (p ++ [item_name0])%list item0)
       rest))).
  { rewrite map_app. apply NoDup_app. split; [apply Hitem|]. split; [|done].
    intros q (x & -> & Hx)%list_elem_of_fmap (y & Hxy & Hy)%list_elem_of_fmap.
    apply visits_below_item in Hx as [qx Hqx].
    apply visit_loop_below in Hy as (b & qy & Hb & Hqy).
    rewrite Hxy, Hqy in Hqx. apply below_same_name in Hqx. by subst. }
  destruct item; try done. constructor.
Qed.

Lemma visits_NoDup n : ∀ k p,
  well_formed n = true → NoDup (map fst (visits k p n)).
Proof.
  induction n as [st_size|entries IH| | |] using node_tree_ind;
    intros k p Hwf; rewrite visits_eq; cbn [map fst];
    try (destruct k; apply NoDup_singleton).
  destruct k as [|k]; [apply NoDup_singleton|].
  apply well_formed_Dir in Hwf as (_ & Hnd & Hsub).
  apply NoDup_cons. split.
  - intros (x & Hx & Hin)%list_elem_of_fmap.
    apply visit_loop_below in Hin as (b & q & _ & Hq).
    rewrite <- Hx in Hq. rewrite <- (app_nil_r p) in Hq at 1.
    by apply app_inv_head in Hq.
  - apply visit_loop_NoDup; [done|].
    apply Forall_forall. intros entry Hentry k0 p0.
    apply (proj1 (Forall_forall _ _) IH _ Hentry).
    exact (proj1 (Forall_forall _ _) Hsub _ Hentry).
Qed.

Lemma precedes_app_l {A} (l l' : list A) x y :
  precedes l x y → precedes (l ++ l') x y.
Proof.
  intros (l1 & l2 & l3 & ->). exists l1, l2, (l3 ++ l')%list.
  by simplify_list_eq.
Qed.

Lemma precedes_app_r {A} (l l' : list A) x y :
  precedes l x y → precedes (l' ++ l) x y.
Proof.
  intros (l1 & l2 & l3 & ->). exists (l' ++ l1)%list, l2, l3.
  by simplify_list_eq.
Qed.

Lemma visit_loop_preorder k p (entries : list (string * node)) x y :
  NoDup (map fst entries) →
  Forall (λ entry, ∀ k p x y,
            x ∈ visits k p (snd entry) → y ∈ visits k p (snd entry) →
            (∃ item_name rest, fst y = (fst x ++ item_name :: rest)%list) →
            precedes (visits k p (snd entry)) x y) entries →
  let loop :=
    visit_loop (λ item_name item, visits k (p ++ [item_name])%list item) in
  x ∈ loop entries → y ∈ loop entries →
  (∃ item_name rest, fst y = (fst x ++ item_name :: rest)%list) →
  precedes (loop entries) x y.
Proof.
  intros Hnd HF loop. induction HF as [|[item_name item] rest Hitem _ IH];
    [by intros ?%elem_of_nil|].
  simpl in Hnd. apply NoDup_cons in Hnd as [Hfresh Hnd].
  specialize (IH Hnd). unfold loop in *. rewrite !visit_loop_cons.
  simpl in Hitem. intros Hx Hy Hxy.
  assert (Happ :
    x ∈ (visits k (p ++ [item_name]) item ++
         visit_loop (λ a b, visits k (p ++ [a])%list b) rest)%list →
    y ∈ (visits k (p ++ [item_name]) item ++
         visit_loop (λ a b, visits k (p ++ [a])%list b) rest)%list →
    precedes (visits k (p ++ [item_name]) item ++
              visit_loop (λ a b, visits k (p ++ [a])%list b) rest)%list x y).
  { clear Hx Hy. destruct Hxy as (c & r & Hxy).
    intros [Hx|Hx]%elem_of_app [Hy|Hy]%elem_of_app.
    - apply precedes_app_l, Hitem; eauto.
    - exfalso. apply visits_below_item in Hx as [qx Hqx].
      apply visit_loop_below in Hy as (b & qy & Hb & Hqy).
      rewrite Hxy, Hqx, <- app_assoc in Hqy. simpl in Hqy.
      apply below_same_name in Hqy. by subst.
    - exfalso. apply visits_below_item in Hy as [qy Hqy].
      apply visit_loop_below in Hx as (b & qx & Hb & Hqx).
      rewrite Hxy, Hqx, <- app_assoc in Hqy. simpl in Hqy.
      apply below_same_name in Hqy. by subst.
    - apply precedes_app_r, IH; eauto. }
  destruct item; auto. by apply elem_of_nil in Hx.
Qed.

Lemma visits_preorder n : ∀ k p x y,
  well_formed n = true →
  x ∈ visits k p n → y ∈ visits k p n →
  (∃ item_name rest, fst y = (fst x ++ item_name :: rest)%list) →
  precedes (visits k p n) x y.
Proof.
  assert (Hleaf : ∀ (p : list string) (m : node) x y,
    x ∈ [(p, m)] → y ∈ [(p, m)] →
    (∃ item_name rest, fst y = (fst x ++ item_name :: rest)%list) → False).
  { intros p m x y ->%list_elem_of_singleton ->%list_elem_of_singleton
      (c & r & H). simpl in H. rewrite <- (app_nil_r p) in H at 1.
    by apply app_inv_head in H. }
  induction n as [st_size|entries IH| | |] using node_tree_ind;
    intros k p x y Hwf; rewrite visits_eq;
    try (destruct k; intros Hx Hy Hxy; by destruct (Hleaf _ _ _ _ Hx Hy Hxy)).
  destruct k as [|k];
    [intros Hx Hy Hxy; by destruct (Hleaf _ _ _ _ Hx Hy Hxy)|].
  apply well_formed_Dir in Hwf as (_ & Hnd & Hsub).
  intros [->|Hx]%elem_of_cons [->|Hy]%elem_of_cons (c & r & Hxy).
  - simpl in Hxy. rewrite <- (app_nil_r p) in Hxy at 1.
    by apply app_inv_head in Hxy.
  - apply list_elem_of_split in Hy as (l2 & l3 & ->). by exists [], l2, l3.
  - exfalso. apply visit_loop_below in Hx as (b & q & _ & Hq).
    simpl in Hxy. rewrite Hq, <- app_assoc in Hxy.
    rewrite <- (app_nil_r p) in Hxy at 1. by apply app_inv_head in Hxy.
  - apply (precedes_app_r _ [(p, Dir entries)]).
    apply visit_loop_preorder; eauto.
    apply Forall_forall. intros entry Hentry k0 p0 x0 y0.
    apply (proj1 (Forall_forall _ _) IH _ Hentry).
    exact (proj1 (Forall_forall _ _) Hsub _ Hentry).
Qed.

Lemma visit_loop_length k p (entries : list (string * node)) :
  Forall (λ entry, stat_ok (snd entry) = true) entries →
  Forall (λ entry, ∀ k p, stat_ok (snd entry) = true →
            is_directory (snd entry) = true →
            length (visits k p (snd entry)) = count_dirs k (snd entry)) entries →
  length (visit_loop (λ item_name item, visits k (p ++ [item_name])%list item)
            entries)
  = list_sum (map (λ entry, count_dirs k (snd entry)) entries).
Proof.
  intros Hok HF. induction HF as [|[item_name item] rest Hitem _ IH];
    [done|].
  apply Forall_cons in Hok as [Hok1 Hok]. specialize (IH Hok).
  rewrite visit_loop_cons. simpl in *.
  destruct item; try done; rewrite length_app, IH, Hitem; done.
Qed.

Lemma visits_length n : ∀ k p,
  stat_ok n = true → is_directory n = true →
  length (visits k p n) = count_dirs k n.
Proof.
  induction n as [st_size|entries IH| | |] using node_tree_ind;
    intros k p Hok Hdir; try done; rewrite visits_eq.
  - destruct k as [|k]; [done|]. cbn [length count_dirs]. f_equal.
    apply visit_loop_length; [by apply stat_ok_Dir|done].
  - by destruct k.
Qed.

Lemma visits_valid root k x :
  well_formed root = true → x ∈ visits k [] root →
  parts_of (relative_path (stat_of x)) = fst x.
Proof.
  destruct x as [q m]. intros Hwf (q' & -> & Hat & _)%visits_sound. simpl.
  apply parts_of_relative_path_of. by eapply at_path_well_formed.
Qed.

Lemma preorder_paths_eq k n :
  preorder_paths k n =
  [] ::
  match k, n with
  | S k', Dir entries =>
      flat_map (λ entry,
                  if is_directory (snd entry)
                  then map (cons (fst entry)) (preorder_paths k' (snd entry))
                  else []) entries
  | _, _ => []
  end.
Proof. destruct n; reflexivity. Qed.

Lemma visit_loop_paths k p (entries : list (string * node)) :
  Forall (λ entry, stat_ok (snd entry) = true) entries →
  Forall (λ entry, ∀ k p, stat_ok (snd entry) = true →
            map fst (visits k p (snd entry))
            = map (app p) (preorder_paths k (snd entry))) entries →
  map fst
    (visit_loop (λ item_name item, visits k (p ++ [item_name])%list item) entries)
  = map (app p)
      (flat_map (λ entry,
                   if is_directory (snd entry)
                   then map (cons (fst entry)) (preorder_paths k (snd entry))
                   else []) entries).
Proof.
  intros Hok HF. induction HF as [|[item_name item] rest Hitem _ IH]; [done|].
  apply Forall_cons in Hok as [Hok1 Hok]. specialize (IH Hok).
  rewrite visit_loop_cons. cbn [flat_map]. simpl in Hitem, Hok1.
  assert (Hdir : map fst (visits k (p ++ [item_name]) item)
                 = map (app p) (map (cons item_name) (preorder_paths k item))).
  { rewrite (Hitem k _ Hok1), map_map. apply map_ext. intros q.
    by rewrite <- app_assoc. }
  destruct item as [st_size|sub| | |]; simpl fst; simpl snd; simpl is_directory;
    cbv iota; try done.
  - by rewrite !map_app, Hdir, IH.
  - by rewrite !map_app, Hdir, IH.
Qed.

Lemma visits_paths n : ∀ k p,
  stat_ok n = true →
  map fst (visits k p n) = map (app p) (preorder_paths k n).
Proof.
  induction n as [st_size|entries IH| | |] using node_tree_ind;
    intros k p Hok; rewrite visits_eq, preorder_paths_eq; cbn [map];
    rewrite app_nil_r; try (by destruct k).
  destruct k as [|k]; [done|]. f_equal.
  apply visit_loop_paths; [by apply stat_ok_Dir|done].
Qed.

Lemma visit_loop_block k p (entries : list (string * node)) :
  NoDup (map fst entries) →
  Forall (λ entry, ∀ k p (i j m : nat) x z y,
            (i < j < m)%nat →
            visits k p (snd entry) !! i = Some x →
            visits k p (snd entry) !! j = Some z →
            visits k p (snd entry) !! m = Some y →
            (∃ item_name rest, fst y = (fst x ++ item_name :: rest)%list) →
            ∃ item_name rest, fst z = (fst x ++ item_name :: rest)%list) entries →
  let loop :=
    visit_loop (λ item_name item, visits k (p ++ [item_name])%list item) in
  ∀ (i j m : nat) x z y,
    (i < j < m)%nat →
    loop entries !! i = Some x → loop entries !! j = Some z →
    loop entries !! m = Some y →
    (∃ item_name rest, fst y = (fst x ++ item_name :: rest)%list) →
    ∃ item_name rest, fst z = (fst x ++ item_name :: rest)%list.
Proof.
  intros Hnd HF loop. induction HF as [|[item_name item] rest Hitem _ IH];
    [by intros ? ? ? ? ? ? _ ?|].
  simpl in Hnd. apply NoDup_cons in Hnd as [Hfresh Hnd].
  specialize (IH Hnd). unfold loop in *. rewrite !visit_loop_cons.
  simpl in Hitem.
  assert (Happ : ∀ (i j m : nat) x z y,
    (i < j < m)%nat →
    (visits k (p ++ [item_name]) item ++
     visit_loop (λ a b, visits k (p ++ [a])%list b) rest)%list !! i = Some x →
    (visits k (p ++ [item_name]) item ++
     visit_loop (λ a b, visits k (p ++ [a])%list b) rest)%list !! j = Some z →
    (visits k (p ++ [item_name]) item ++
     visit_loop (λ a b, visits k (p ++ [a])%list b) rest)%list !! m = Some y →
    (∃ c r, fst y = (fst x ++ c :: r)%list) →
    ∃ c r, fst z = (fst x ++ c :: r)%list).
  { intros i j m x z y Hijm Hx Hz Hy Hxy.
    set (V := visits k (p ++ [item_name]) item) in *.
    destruct (decide (m < length V)%nat) as [Hm|Hm].
    - rewrite lookup_app_l in Hx, Hz, Hy by lia.
      by apply (Hitem k (p ++ [item_name])%list i j m x z y).
    - destruct (decide (i < length V)%nat) as [Hi|Hi].
      + exfalso. rewrite lookup_app_l in Hx by lia.
        rewrite lookup_app_r in Hy by lia.
        apply list_elem_of_lookup_2 in Hx, Hy.
        apply visits_below_item in Hx as [qx Hqx].
        apply visit_loop_below in Hy as (b & qy & Hb & Hqy).
        destruct Hxy as (c & r & Hxy).
        rewrite Hxy, Hqx, <- app_assoc in Hqy. simpl in Hqy.
        apply below_same_name in Hqy. by subst.
      + rewrite lookup_app_r in Hx, Hz, Hy by lia.
        apply (IH (i - length V)%nat (j - length V)%nat (m - length V)%nat
                 x z y); [lia|done..]. }
  destruct item; auto. by intros ? ? ? ? ? ? _ ?.
Qed.

Lemma visits_block n : ∀ k p (i j m : nat) x z y,
  well_formed n = true →
  (i < j < m)%nat →
  visits k p n !! i = Some x → visits k p n !! j = Some z →
  visits k p n !! m = Some y →
  (∃ item_name rest, fst y = (fst x ++ item_name :: rest)%list) →
  ∃ item_name rest, fst z = (fst x ++ item_name :: rest)%list.
Proof.
  assert (Hleaf : ∀ (p : list string) (node0 : node) (j : nat) z,
    (0 < j)%nat → [(p, node0)] !! j = Some z → False).
  { intros p node0 [|j] z Hj Hz; [lia|done]. }
  induction n as [st_size|entries IH| | |] using node_tree_ind;
    intros k p i j m x z y Hwf Hijm; rewrite visits_eq;
    try (destruct k; intros _ Hz _ _; exfalso;
         (eapply Hleaf; [|exact Hz]); lia).
  destruct k as [|k];
    [intros _ Hz _ _; exfalso; (eapply Hleaf; [|exact Hz]); lia|].
  apply well_formed_Dir in Hwf as (_ & Hnd & Hsub).
  destruct j as [|j]; [lia|]. destruct m as [|m]; [lia|].
  rewrite !lookup_cons. intros Hx Hz Hy Hxy.
  destruct i as [|i].
  - injection Hx as <-. apply list_elem_of_lookup_2 in Hz.
    apply visit_loop_below in Hz as (b & q & _ & Hq). eauto.
  - apply (visit_loop_block k p entries Hnd) with (i := i) (j := j) (m := m) (y := y);
      [|lia|done..].
    apply Forall_forall. intros entry Hentry k0 p0 i0 j0 m0 x0 z0 y0.
    apply (proj1 (Forall_forall _ _) IH _ Hentry).
    exact (proj1 (Forall_forall _ _) Hsub _ Hentry).
Qed.

(** C5. For a file tree whose items can all be inspected, rooted at a
    directory, and [max_depth >= 0]: the scan emits exactly one record per
    directory at depth at most [max_depth] (their number is the length of
    the result), the first being the root's, with relative path [/] and
    depth 0; no record belongs to a deeper path.  The order is depth-first
    pre-order: the record of a directory comes before the records of the
    directories beneath it; the records of the directories beneath it
    follow it in one block, so that whatever is emitted between a
    directory and one of its descendants is a descendant of that directory
    too; and the paths are, record by record, those of the pre-order
    traversal of the tree cut at [max_depth]. *)
Theorem scan_emits_directories_preorder (root : node) (max_depth : Z) :
  0 ≤ max_depth →
  well_formed root = true → stat_ok root = true → is_directory root = true →
  let out := scan_directory_tree root max_depth in
  length out = count_dirs (Z.to_nat max_depth) root ∧
  (∃ r rest, out = r :: rest ∧ relative_path r = "/" ∧ depth r = 0) ∧
  (∀ r, r ∈ out →
     depth r ≤ max_depth ∧
     ∃ parts n, at_path root parts n ∧ is_directory n = true ∧
       parts_of (relative_path r) = parts ∧
       relative_path r = relative_path_of parts ∧
       depth r = Z.of_nat (length parts)) ∧
  (∀ parts n, at_path root parts n → is_directory n = true →
     Z.of_nat (length parts) ≤ max_depth →
     ∃ r, r ∈ out ∧ relative_path r = relative_path_of parts ∧
       depth r = Z.of_nat (length parts)) ∧
  NoDup (map relative_path out) ∧
  (∀ parts n, at_path root parts n → max_depth < Z.of_nat (length parts) →
     ∀ r, r ∈ out → relative_path r ≠ relative_path_of parts) ∧
  (∀ a b, a ∈ out → b ∈ out →
     strict_descendant (relative_path a) (relative_path b) →
     precedes out a b) ∧
  (∀ (i j m : nat) a c b,
     (i < j < m)%nat →
     out !! i = Some a → out !! j = Some c → out !! m = Some b →
     strict_descendant (relative_path a) (relative_path b) →
     strict_descendant (relative_path a) (relative_path c)) ∧
  map relative_path out
  = map relative_path_of (preorder_paths (Z.to_nat max_depth) root).
Proof.
  intros Hmd Hwf Hok Hdir out.
  assert (Hout : out = map stat_of (visits (Z.to_nat max_depth) [] root))
    by (by apply scan_directory_tree_visits).
  assert (Hsound : ∀ r, r ∈ out →
     depth r ≤ max_depth ∧
     ∃ parts n, at_path root parts n ∧ is_directory n = true ∧
       parts_of (relative_path r) = parts ∧
       relative_path r = relative_path_of parts ∧
       depth r = Z.of_nat (length parts)).
  { intros r (_ & parts & n & -> & Hat & Hlen & Hd)%scan_elem.
    split; [done|]. exists parts, n. split; [done|]. split.
    - destruct Hd as [->|Hd]; [|done]. by apply at_path_nil_inv in Hat as ->.
    - split; [|done]. apply parts_of_relative_path_of.
      by eapply at_path_well_formed. }
  split; [|split; [|split; [|split; [|split; [|split; [|split; [|split]]]]]]].
  - rewrite Hout, length_map. by apply visits_length.
  - rewrite Hout, visits_eq. cbn [map]. eauto.
  - exact Hsound.
  - intros parts n Hat Hn Hlen. exists (stat_of (parts, n)).
    split; [|done]. rewrite Hout. apply list_elem_of_fmap.
    exists (parts, n). split; [done|].
    apply (visits_complete root parts n Hat (Z.to_nat max_depth) []);
      [done|by right|lia].
  - rewrite Hout, <- list_fmap_compose.
    apply NoDup_fmap_2_strong.
    + intros x y Hx Hy Hxy. unfold compose in Hxy.
      pose proof (visits_NoDup root (Z.to_nat max_depth) [] Hwf) as Hnd.
      assert (Hfst : fst x = fst y).
      { rewrite <- (visits_valid root _ x Hwf Hx),
                <- (visits_valid root _ y Hwf Hy). by rewrite Hxy. }
      apply list_elem_of_lookup in Hx as [i Hi].
      apply list_elem_of_lookup in Hy as [j Hj].
      assert (i = j) as ->; [|congruence].
      eapply NoDup_lookup; [exact Hnd| |].
      * rewrite list_lookup_fmap, Hi. reflexivity.
      * rewrite list_lookup_fmap, Hj. simpl. by rewrite Hfst.
    + pose proof (visits_NoDup root (Z.to_nat max_depth) [] Hwf) as Hnd.
      by apply NoDup_fmap_1 in Hnd.
  - intros parts n Hat Hdeep r Hr Heq.
    destruct (Hsound r Hr) as (Hle & parts' & n' & _ & _ & Hp & _ & Hd).
    rewrite Heq, parts_of_relative_path_of in Hp
      by (by eapply at_path_well_formed).
    subst parts'. lia.
  - intros a b Ha Hb (c & rest & Hd).
    rewrite Hout in Ha, Hb.
    apply list_elem_of_fmap in Ha as (x & -> & Hx).
    apply list_elem_of_fmap in Hb as (y & -> & Hy).
    rewrite (visits_valid root _ x Hwf Hx), (visits_valid root _ y Hwf Hy) in Hd.
    destruct (visits_preorder root _ [] x y Hwf Hx Hy) as (l1 & l2 & l3 & E);
      [eauto|].
    rewrite Hout, E. exists (map stat_of l1), (map stat_of l2), (map stat_of l3).
    by rewrite !map_app, !map_cons, !map_app, !map_cons.
  - intros i j m a c b Hijm Ha Hc Hb (name & rest & Hd).
    rewrite Hout in Ha, Hc, Hb.
    apply list_lookup_fmap_Some in Ha as (x & -> & Hx).
    apply list_lookup_fmap_Some in Hc as (z & -> & Hz).
    apply list_lookup_fmap_Some in Hb as (y & -> & Hy).
    pose proof (list_elem_of_lookup_2 _ _ _ Hx) as Hxin.
    pose proof (list_elem_of_lookup_2 _ _ _ Hz) as Hzin.
    pose proof (list_elem_of_lookup_2 _ _ _ Hy) as Hyin.
    unfold strict_descendant.
    rewrite (visits_valid root _ x Hwf Hxin), (visits_valid root _ y Hwf Hyin) in Hd.
    rewrite (visits_valid root _ x Hwf Hxin), (visits_valid root _ z Hwf Hzin).
    apply (visits_block root _ [] i j m x z y Hwf Hijm Hx Hz Hy). eauto.
  - rewrite Hout, <- (map_map (app []) relative_path_of).
    rewrite <- (visits_paths root (Z.to_nat max_depth) [] Hok).
    by rewrite !map_map.
Qed.

(** Two siblings, the first with a sub-directory: [a/x] is emitted before
    [b]. *)
Lemma scan_emits_directories_preorder_witness :
  map relative_path (scan_directory_tree tree_siblings 2) = ["/"; "a"; "a/x"; "b"].
Proof.
  destruct (scan_emits_directories_preorder tree_siblings 2)
    as (_ & _ & _ & _ & _ & _ & _ & _ & Horder); [lia|reflexivity..|].
  exact Horder.
Defined.


(** * Further properties *)

(** ** The prompt *)

Lemma truthy_spec s : PyStr.truthy s = true ↔ s ≠ "".
Proof. destruct s; simpl; split; congruence. Qed.

(** X1. [_confirm_name] skips every line that holds a name already in use,
    and stops at the first other line: a blank line accepts the proposed
    name in uppercase, any other line gives its stripped uppercase form,
    which is not in use.  It ends in [EOFError] exactly when every line
    holds a name in use. *)
Theorem confirm_name_outcome (used : gset string) (proposed_name : string)
    (lines : list string) :
  match _confirm_name used proposed_name lines with
  | (Some name, rest) =>
      ∃ rejected line,
        lines = (rejected ++ line :: rest)%list ∧
        Forall (λ l, PyStr.strip l ≠ "" ∧
                     PyStr.upper (PyStr.strip l) ∈ used) rejected ∧
        ((PyStr.strip line = "" ∧ name = PyStr.upper proposed_name) ∨
         (PyStr.strip line ≠ "" ∧ name = PyStr.upper (PyStr.strip line) ∧
          name ∉ used))
  | (None, rest) =>
      rest = [] ∧
      Forall (λ l, PyStr.strip l ≠ "" ∧
                   PyStr.upper (PyStr.strip l) ∈ used) lines
  end.
Proof.
  induction lines as [|line lines IH]; simpl; [by split|].
  destruct (PyStr.truthy (PyStr.strip line)) eqn:Ht.
  - apply truthy_spec in Ht.
    destruct (decide (PyStr.upper (PyStr.strip line) ∈ used)) as [Hu|Hu].
    + destruct (_confirm_name used proposed_name lines) as [[name|] rest].
      * destruct IH as (rejected & l0 & -> & HF & Hl0).
        exists (line :: rejected), l0. split; [done|]. split; [|done].
        by constructor.
      * destruct IH as [-> HF]. split; [done|]. by constructor.
    + exists [], line. split; [done|]. split; [constructor|]. by right.
  - assert (PyStr.strip line = "") by (by destruct (PyStr.strip line)).
    exists [], line. split; [done|]. split; [constructor|]. by left.
Qed.

(** ** Capacity tiers *)

Lemma round_to_double_small n :
  Z.log2 (Z.abs n) - 52 <= 0 → round_to_double n = n.
Proof.
  intros H. unfold round_to_double.
  by rewrite (proj2 (Z.leb_le _ _) H).
Qed.

Lemma round_to_double_large a :
  0 < a → 0 < Z.log2 a - 52 →
  ∃ q', round_to_double a = q' * 2 ^ (Z.log2 a - 52) ∧
        (q' = a / 2 ^ (Z.log2 a - 52) ∨ q' = a / 2 ^ (Z.log2 a - 52) + 1) ∧
        (q' = a / 2 ^ (Z.log2 a - 52) + 1 ↔
         2 ^ (Z.log2 a - 52 - 1) < a mod 2 ^ (Z.log2 a - 52) ∨
         (a mod 2 ^ (Z.log2 a - 52) = 2 ^ (Z.log2 a - 52 - 1) ∧
          Z.odd (a / 2 ^ (Z.log2 a - 52)) = true)).
Proof.
  intros Ha Hk. unfold round_to_double.
  rewrite (Z.abs_eq a) by lia.
  rewrite (proj2 (Z.leb_gt _ _)) by lia.
  rewrite (Z.sgn_pos a) by lia.
  set (k := Z.log2 a - 52) in *.
  destruct (Z.ltb_spec (2 ^ (k - 1)) (a mod 2 ^ k)) as [H1|H1]; simpl.
  - eexists. split; [by rewrite Z.mul_1_l|]. split; [by right|].
    split; [by left|done].
  - destruct (Z.eqb_spec (a mod 2 ^ k) (2 ^ (k - 1))) as [H2|H2]; simpl.
    + destruct (Z.odd (a / 2 ^ k)) eqn:Ho.
      * eexists. split; [by rewrite Z.mul_1_l|]. split; [by right|].
        split; [by right|done].
      * eexists. split; [by rewrite Z.mul_1_l|]. split; [by left|].
        split; [lia|]. intros [?|[_ ?]]; [lia|done].
    + eexists. split; [by rewrite Z.mul_1_l|]. split; [by left|].
      split; [lia|]. intros [?|[? _]]; [lia|done].
Qed.

Lemma quotient_bounds a :
  0 < a → 0 < Z.log2 a - 52 →
  2 ^ 52 <= a / 2 ^ (Z.log2 a - 52) < 2 ^ 53.
Proof.
  intros Ha Hk. pose proof (Z.log2_spec a Ha) as [Hlo Hhi].
  set (k := Z.log2 a - 52) in *.
  assert (Hpow : 0 < 2 ^ k) by (apply Z.pow_pos_nonneg; lia).
  assert (E1 : 2 ^ Z.log2 a = 2 ^ 52 * 2 ^ k)
    by (rewrite <- Z.pow_add_r by lia; f_equal; lia).
  assert (E2 : 2 ^ Z.succ (Z.log2 a) = 2 ^ 53 * 2 ^ k)
    by (rewrite <- Z.pow_add_r by lia; f_equal; lia).
  split.
  - apply Z.div_le_lower_bound; lia.
  - apply Z.div_lt_upper_bound; lia.
Qed.

Lemma round_to_double_mono a b :
  0 <= a <= b → round_to_double a <= round_to_double b.
Proof.
  intros [Ha Hab].
  destruct (Z.eq_dec a 0) as [->|Ha0].
  { change (round_to_double 0) with 0.
    destruct (Z.le_gt_cases (Z.log2 (Z.abs b) - 52) 0) as [Hs|Hs].
    - by rewrite round_to_double_small.
    - rewrite Z.abs_eq in Hs by lia.
      assert (Hb : 0 < b) by (destruct (Z.eq_dec b 0) as [->|]; [simpl in Hs|]; lia).
      destruct (round_to_double_large b Hb Hs) as (q' & -> & Hq & _).
      pose proof (quotient_bounds b Hb Hs).
      assert (0 < 2 ^ (Z.log2 b - 52)) by (apply Z.pow_pos_nonneg; lia).
      nia. }
  assert (Ha' : 0 < a) by lia. assert (Hb : 0 < b) by lia.
  pose proof (Z.log2_le_mono a b Hab) as HL.
  destruct (Z.le_gt_cases (Z.log2 b - 52) 0) as [Hsb|Hsb].
  { rewrite !round_to_double_small; rewrite ?Z.abs_eq; lia. }
  destruct (round_to_double_large b Hb Hsb) as (qb & -> & Hqb & Hupb).
  pose proof (quotient_bounds b Hb Hsb) as Hbb.
  pose proof (Z.log2_spec a Ha') as [Halo Hahi].
  pose proof (Z.log2_spec b Hb) as [Hblo Hbhi].
  assert (Hpb : 0 < 2 ^ (Z.log2 b - 52)) by (apply Z.pow_pos_nonneg; lia).
  assert (Eb : 2 ^ Z.log2 b = 2 ^ 52 * 2 ^ (Z.log2 b - 52))
    by (rewrite <- Z.pow_add_r by lia; f_equal; lia).
  destruct (Z.le_gt_cases (Z.log2 a - 52) 0) as [Hsa|Hsa].
  { rewrite round_to_double_small by (rewrite Z.abs_eq; lia).
    assert (a < 2 ^ Z.log2 b); [|nia].
    eapply Z.lt_le_trans; [exact Hahi|].
    apply Z.pow_le_mono_r; lia. }
  destruct (round_to_double_large a Ha' Hsa) as (qa & -> & Hqa & Hupa).
  pose proof (quotient_bounds a Ha' Hsa) as Hba.
  assert (Hpa : 0 < 2 ^ (Z.log2 a - 52)) by (apply Z.pow_pos_nonneg; lia).
  destruct (Z.eq_dec (Z.log2 a) (Z.log2 b)) as [E|NE].
  - rewrite E in *. set (k := Z.log2 b - 52) in *.
    pose proof (Z.div_mod a (2 ^ k) ltac:(lia)) as Da.
    pose proof (Z.div_mod b (2 ^ k) ltac:(lia)) as Db.
    pose proof (Z.mod_pos_bound a (2 ^ k) Hpa) as Ma.
    pose proof (Z.mod_pos_bound b (2 ^ k) Hpa) as Mb.
    assert (Hq : a / 2 ^ k <= b / 2 ^ k) by (apply Z.div_le_mono; lia).
    apply Z.mul_le_mono_nonneg_r; [lia|].
    destruct (Z.eq_dec (a / 2 ^ k) (b / 2 ^ k)) as [Eq|Nq]; [|lia].
    destruct Hqa as [->|Hqa]; [lia|].
    assert (Hup : qb = b / 2 ^ k + 1); [|lia].
    apply Hupb. apply Hupa in Hqa. rewrite <- Eq.
    assert (a mod 2 ^ k <= b mod 2 ^ k) by nia.
    destruct Hqa as [?|[? ?]]; [left; lia|].
    destruct (Z.eq_dec (b mod 2 ^ k) (2 ^ (k - 1))); [by right|left; lia].
  - assert (Z.log2 a + 1 <= Z.log2 b) by lia.
    assert (Ea : 2 ^ Z.succ (Z.log2 a) = 2 ^ 53 * 2 ^ (Z.log2 a - 52))
      by (rewrite <- Z.pow_add_r by lia; f_equal; lia).
    assert (2 ^ Z.succ (Z.log2 a) <= 2 ^ Z.log2 b)
      by (apply Z.pow_le_mono_r; lia).
    nia.
Qed.

Lemma to_tb_mono b1 b2 : 0 <= b1 <= b2 → (to_tb b1 <= to_tb b2)%Q.
Proof.
  intros H. unfold to_tb, Qle. simpl.
  apply Z.mul_le_mono_nonneg_r; [lia|]. by apply round_to_double_mono.
Qed.

(** X2. A larger capacity never lands in a smaller tier, whatever the
    thresholds are: above a capacity of the large tier every capacity is in
    the large tier, and above one of the medium tier none is in the small
    tier. *)
Theorem larger_capacity_never_smaller_tier (rules : NamingRules) (b1 b2 : Z) :
  0 <= b1 <= b2 →
  (select_category rules (to_tb b1) = large →
   select_category rules (to_tb b2) = large) ∧
  (select_category rules (to_tb b1) = medium →
   select_category rules (to_tb b2) ≠ small).
Proof.
  intros H%to_tb_mono. unfold select_category.
  pose proof (Qle_bool_iff (large_drive_threshold_tb rules) (to_tb b1)) as L1.
  pose proof (Qle_bool_iff (large_drive_threshold_tb rules) (to_tb b2)) as L2.
  pose proof (Qle_bool_iff (medium_drive_threshold_tb rules) (to_tb b1)) as M1.
  pose proof (Qle_bool_iff (medium_drive_threshold_tb rules) (to_tb b2)) as M2.
  assert (T : ∀ t, (t <= to_tb b1)%Q → (t <= to_tb b2)%Q)
    by (intros t Ht; by apply Qle_trans with (to_tb b1)).
  destruct (Qle_bool (large_drive_threshold_tb rules) (to_tb b1)).
  - rewrite (proj2 L2) by (apply T; by apply L1). by split.
  - split; [by destruct (Qle_bool (medium_drive_threshold_tb rules) (to_tb b1))|].
    destruct (Qle_bool (medium_drive_threshold_tb rules) (to_tb b1)); [|done].
    intros _. destruct (Qle_bool (large_drive_threshold_tb rules) (to_tb b2));
      [done|].
    by rewrite (proj2 M2) by (apply T; by apply M1).
Qed.

Lemma larger_capacity_never_smaller_tier_witness :
  select_category rules_demo (to_tb (5 * 1024 ^ 4)) ≠ small.
Proof.
  apply (proj2 (larger_capacity_never_smaller_tier rules_demo
                  (2 * 1024 ^ 4) (5 * 1024 ^ 4) ltac:(lia))).
  reflexivity.
Defined.

(** X3. When the large threshold is not above the medium threshold, no
    capacity selects the medium tier: its pool is never used. *)
Theorem misordered_thresholds_hide_medium (rules : NamingRules)
    (locations : list Location.t) (capacity_bytes : Z) :
  (large_drive_threshold_tb rules <= medium_drive_threshold_tb rules)%Q →
  select_category rules (to_tb capacity_bytes) ≠ medium ∧
  _get_available_name rules locations capacity_bytes
  = first_available (_get_used_names locations)
      (if Qle_bool (large_drive_threshold_tb rules) (to_tb capacity_bytes)
       then large_names rules else small_names rules).
Proof.
  intros H. unfold _get_available_name, select_category.
  pose proof (Qle_bool_iff (large_drive_threshold_tb rules) (to_tb capacity_bytes)) as L.
  pose proof (Qle_bool_iff (medium_drive_threshold_tb rules) (to_tb capacity_bytes)) as M.
  destruct (Qle_bool (large_drive_threshold_tb rules) (to_tb capacity_bytes));
    [done|].
  destruct (Qle_bool (medium_drive_threshold_tb rules) (to_tb capacity_bytes));
    [|done].
  exfalso. assert (false = true); [|done]. apply L.
  apply Qle_trans with (medium_drive_threshold_tb rules); [done|by apply M].
Qed.

Lemma misordered_thresholds_hide_medium_witness :
  select_category rules_misordered (to_tb (5 * 1024 ^ 4)) ≠ medium.
Proof.
  apply (misordered_thresholds_hide_medium rules_misordered [] (5 * 1024 ^ 4)).
  discriminate.
Defined.

(** ** Known drives *)

(** X4. A lookup only ever returns an entry of the registry of kind
    [external_drive] that carries the descriptor's non-empty UUID or its
    non-empty device identifier; a descriptor with neither is never found,
    not even among entries that store blank identifiers. *)
Theorem lookup_needs_an_identifier (locations : list Location.t) (d : Drive.t) :
  (∀ e, find_drive_in_registry locations d = Some e →
     e ∈ locations ∧ Location.kind e = "external_drive" ∧
     ((Drive.volume_uuid d ≠ "" ∧
       Location.volume_uuid e = Some (Drive.volume_uuid d)) ∨
      (Drive.device_identifier d ≠ "" ∧
       Location.device_identifier e = Some (Drive.device_identifier d)))) ∧
  (Drive.volume_uuid d = "" → Drive.device_identifier d = "" →
   find_drive_in_registry locations d = None).
Proof.
  split.
  - intros e [Hin Hm]%find_drive_in_registry_elem. split; [done|].
    unfold matches, is_external_drive, uuid_matches, device_matches in Hm.
    apply andb_prop in Hm as [Hk Hm]. apply String.eqb_eq in Hk.
    split; [done|]. apply orb_prop in Hm as [Hm|Hm];
      apply andb_prop in Hm as [Ht Hm]; apply truthy_spec in Ht;
      apply bool_decide_eq_true in Hm; auto.
  - intros Hu Hd. apply find_drive_in_registry_None. intros x _.
    unfold matches, uuid_matches, device_matches. rewrite Hu, Hd. simpl.
    by rewrite andb_false_r.
Qed.

Lemma find_drive_in_registry_app_Some l l' d e :
  find_drive_in_registry l d = Some e →
  find_drive_in_registry (l ++ l') d = Some e.
Proof.
  intros (b & a & -> & Hm & Hb)%find_drive_in_registry_Some.
  apply find_drive_in_registry_Some. exists b, (a ++ l')%list.
  split; [by rewrite <- app_assoc|done].
Qed.

Lemma find_drive_in_registry_app_None l l' d :
  find_drive_in_registry l d = None →
  find_drive_in_registry (l ++ l') d = find_drive_in_registry l' d.
Proof.
  induction l as [|x l IH]; [done|]. simpl app.
  rewrite !find_drive_in_registry_cons. destruct (matches d x); [done|exact IH].
Qed.

Lemma same_identity_refl e : same_identity e e.
Proof. done. Qed.

Lemma same_identity_trans e1 e2 e3 :
  same_identity e1 e2 → same_identity e2 e3 → same_identity e1 e3.
Proof. intros H1 H2 t. by rewrite H2, H1. Qed.

Lemma same_identity_fields e e' :
  same_identity e e' →
  Location.id e' = Location.id e ∧ Location.kind e' = Location.kind e ∧
  Location.volume_uuid e' = Location.volume_uuid e ∧
  Location.device_identifier e' = Location.device_identifier e ∧
  Location.name e' = Location.name e ∧
  Location.capacity_bytes e' = Location.capacity_bytes e ∧
  Location.first_seen e' = Location.first_seen e ∧
  Location.status e' = Location.status e.
Proof.
  intros H. specialize (H ""). destruct e, e'. simpl in *.
  injection H as -> -> -> -> -> -> -> ->. done.
Qed.

Lemma find_drive_in_registry_stamped drive_id now locations d e :
  find_drive_in_registry locations d = Some e →
  ∃ e', find_drive_in_registry (stamp_first drive_id now locations) d = Some e' ∧
        same_identity e e'.
Proof.
  induction locations as [|x rest IH]; [done|].
  cbn [stamp_first]. destruct (String.eqb (Location.id x) drive_id).
  - rewrite !find_drive_in_registry_cons, matches_set_last_scanned.
    destruct (matches d x).
    + intros [= <-]. eexists. split; [done|]. intros t. by destruct x.
    + intros H. exists e. split; [done|apply same_identity_refl].
  - rewrite !find_drive_in_registry_cons. destruct (matches d x).
    + intros [= <-]. exists x. split; [done|apply same_identity_refl].
    + exact IH.
Qed.

Lemma step_keeps_known pf s s' d e :
  step pf s s' → find_drive_in_registry (registry s) d = Some e →
  ∃ e', find_drive_in_registry (registry s') d = Some e' ∧ same_identity e e'.
Proof.
  intros [s0 d0 p c rest Ha Hc|s0 i|s0 i d0 ds|s0 rest] H; simpl.
  - exists e. split; [|apply same_identity_refl].
    by apply find_drive_in_registry_app_Some.
  - by apply find_drive_in_registry_stamped.
  - exists e. split; [|apply same_identity_refl].
    by rewrite save_snapshot_registry.
  - exists e. split; [done|apply same_identity_refl].
Qed.

Lemma steps_keep_known pf s s' d e :
  rtc (step pf) s s' → find_drive_in_registry (registry s) d = Some e →
  ∃ e', find_drive_in_registry (registry s') d = Some e' ∧ same_identity e e'.
Proof.
  intros Hs. revert e. induction Hs as [s|s s1 s2 Hstep _ IH]; intros e H.
  - exists e. split; [done|apply same_identity_refl].
  - destruct (step_keeps_known pf s s1 d e Hstep H) as (e1 & H1 & E1).
    destruct (IH e1 H1) as (e2 & H2 & E2).
    exists e2. split; [done|]. by eapply same_identity_trans.
Qed.

Lemma scan_and_save_steps pf s i d ds :
  rtc (step pf) s
    (snd (match save_snapshot pf s i d ds with
          | NotSaved s1 => (Crashed, s1)
          | Saved s1 => (Scanned i ds, update_last_scanned pf s1 i)
          end)).
Proof.
  pose proof (step_snapshot pf s i d ds) as Hs.
  destruct (save_snapshot pf s i d ds) as [s1|s1]; simpl in *.
  - eapply rtc_l; [exact Hs|]. apply rtc_once, step_update.
  - by apply rtc_once.
Qed.

Lemma process_drive_steps pf s d : rtc (step pf) s (snd (process_drive pf s d)).
Proof.
  unfold process_drive, resolve.
  destruct (find_drive_in_registry (registry s) d) as [e|].
  { apply scan_and_save_steps. }
  destruct (_get_available_name _ _ _) as [p|] eqn:Ha; [|apply rtc_refl].
  destruct (PyStr.truthy p); [|apply rtc_refl].
  destruct (_confirm_name _ p (stdin s)) as [[c|] rest] eqn:Hc.
  - cbv zeta. cbn [register_new_drive].
    eapply rtc_l; [exact (step_register pf s d p c rest Ha Hc)|].
    apply scan_and_save_steps.
  - simpl. apply rtc_once, step_input.
Qed.

Lemma scan_all_drives_steps pf ds : ∀ s,
  rtc (step pf) s (snd (scan_all_drives pf s ds)).
Proof.
  induction ds as [|d rest IH]; intros s; simpl; [apply rtc_refl|].
  pose proof (process_drive_steps pf s d) as Hp.
  destruct (process_drive pf s d) as [r s1]. simpl in Hp.
  specialize (IH s1). destruct (scan_all_drives pf s1 rest) as [log s2].
  simpl in IH. destruct r; simpl; try done; by eapply rtc_trans.
Qed.

(** X5. A drive the registry knows stays known: after any further
    registrations, time stamps, snapshots and whole runs of
    [scan_all_drives], looking it up returns its entry again, changed at
    most in [last_scanned]. *)
Theorem known_drive_stays_known (pf : Platform) (self self' : DriveScanner)
    (d : Drive.t) (e : Location.t) :
  find_drive_in_registry (registry self) d = Some e →
  (rtc (step pf) self self' →
   ∃ e', find_drive_in_registry (registry self') d = Some e' ∧
         same_identity e e') ∧
  (∀ drives,
     ∃ e', find_drive_in_registry
             (registry (snd (scan_all_drives pf self drives))) d = Some e' ∧
           Location.id e' = Location.id e ∧
           Location.name e' = Location.name e ∧
           Location.first_seen e' = Location.first_seen e).
Proof.
  intros H. split.
  - intros Hs. by eapply steps_keep_known.
  - intros drives.
    destruct (steps_keep_known pf _ _ d e (scan_all_drives_steps pf drives self) H)
      as (e' & He' & Hsame).
    exists e'. split; [done|].
    apply same_identity_fields in Hsame as (? & _ & _ & _ & ? & _ & ? & _).
    done.
Qed.

Lemma known_drive_stays_known_witness :
  ∃ e', find_drive_in_registry
          (registry (snd (scan_all_drives platform_demo
                            (scanner_demo [nova] [""]) [usb_stick])))
          nova_on_disk9 = Some e' ∧
        Location.id e' = "NOVA".
Proof.
  destruct (proj2 (known_drive_stays_known platform_demo
                     (scanner_demo [nova] [""]) (scanner_demo [nova] [""])
                     nova_on_disk9 nova eq_refl) [usb_stick])
    as (e' & H1 & H2 & _).
  exists e'. split; [exact H1|exact H2].
Defined.

(** ** Rounds of the loop *)

Lemma process_drive_known_round pf s d e :
  find_drive_in_registry (registry s) d = Some e →
  refused pf (Location.id e) = false →
  process_drive pf s d =
  (Scanned (Location.id e)
     (scan_directory_tree (mounts pf (Drive.mount_point d)) 2),
   update_last_scanned pf
     (after_save
        (save_snapshot pf s (Location.id e) d
           (scan_directory_tree (mounts pf (Drive.mount_point d)) 2)))
     (Location.id e)).
Proof.
  intros H Hr. unfold process_drive. rewrite (resolve_known _ _ _ _ H).
  by rewrite (save_snapshot_not_refused _ _ _ _ _ Hr).
Qed.

(** The two ways a round ends in [Scanned]. *)
Lemma process_drive_scanned_inv pf s d i dirs s' :
  process_drive pf s d = (Scanned i dirs, s') →
  dirs = scan_directory_tree (mounts pf (Drive.mount_point d)) 2 ∧
  refused pf i = false ∧
  ((∃ e, find_drive_in_registry (registry s) d = Some e ∧ i = Location.id e ∧
         s' = update_last_scanned pf
                (after_save (save_snapshot pf s i d dirs)) i) ∨
   (∃ p c rest,
      find_drive_in_registry (registry s) d = None ∧
      _get_available_name (naming_rules s) (registry s)
        (Drive.capacity_bytes d) = Some p ∧
      PyStr.truthy p = true ∧
      _confirm_name (_get_used_names (registry s)) p (stdin s) = (Some c, rest) ∧
      i = PyStr.upper c ∧
      s' = update_last_scanned pf
             (after_save
                (save_snapshot pf
                   (snd (register_new_drive pf (with_stdin rest s) d c)) i d dirs))
             i)).
Proof.
  unfold process_drive, resolve.
  destruct (find_drive_in_registry (registry s) d) as [e|] eqn:Hf.
  { destruct (save_snapshot pf s (Location.id e) d _) as [s1|s1] eqn:Hs; [|done].
    apply save_snapshot_Saved in Hs as [Hr ->].
    intros [= <- <- <-]. split; [done|]. split; [done|]. left. by exists e. }
  destruct (_get_available_name _ _ _) as [p|] eqn:Ha; [|done].
  destruct (PyStr.truthy p) eqn:Ht; [|done].
  destruct (_confirm_name _ p (stdin s)) as [[c|] rest] eqn:Hc; [|done].
  cbv zeta. cbn [register_new_drive].
  match goal with
  | |- context [save_snapshot pf ?s1 ?i ?d ?ds] =>
      destruct (save_snapshot pf s1 i d ds) as [s2|s2] eqn:Hs; [|done]
  end.
  apply save_snapshot_Saved in Hs as [Hr ->].
  intros [= <- <- <-]. split; [done|]. split; [done|]. right. by exists p, c, rest.
Qed.

Lemma registered_entry_matches pf s d c :
  PyStr.truthy (Drive.device_identifier d) = true ∨
  PyStr.truthy (Drive.volume_uuid d) = true →
  find_drive_in_registry (registry s) d = None →
  ∃ e, find_drive_in_registry (registry (snd (register_new_drive pf s d c))) d
       = Some e ∧ Location.id e = PyStr.upper c.
Proof.
  intros Ht Hf. simpl. rewrite find_drive_in_registry_app_None by done.
  rewrite find_drive_in_registry_cons.
  match goal with |- context [matches d ?x] => assert (matches d x = true) as -> end.
  { unfold matches, uuid_matches, device_matches, is_external_drive. simpl.
    destruct Ht as [-> | ->]; simpl; rewrite ?bool_decide_eq_true_2 by done;
      by rewrite ?orb_true_r. }
  eexists. by split.
Qed.

Lemma process_drive_scanned_known pf s d i dirs s' :
  PyStr.truthy (Drive.device_identifier d) = true ∨
  PyStr.truthy (Drive.volume_uuid d) = true →
  process_drive pf s d = (Scanned i dirs, s') →
  ∃ e, find_drive_in_registry (registry s') d = Some e ∧ Location.id e = i.
Proof.
  intros Ht (-> & _ &
              [(e & Hf & -> & ->)|(p & c & rest & Hf & _ & _ & _ & -> & ->)])
    %process_drive_scanned_inv.
  - cbn [update_last_scanned _save_registry with_registry tick registry].
    rewrite save_snapshot_registry.
    destruct (find_drive_in_registry_stamped (Location.id e)
                (utc_stamp pf (after_save (save_snapshot pf s (Location.id e) d
                   (scan_directory_tree (mounts pf (Drive.mount_point d)) 2))))
                (registry s) d e Hf) as (e' & He' & Hs).
    exists e'. split; [exact He'|]. by apply same_identity_fields in Hs as [? _].
  - destruct (registered_entry_matches pf (with_stdin rest s) d c Ht Hf)
      as (e & He & Hid).
    set (s1 := snd (register_new_drive pf (with_stdin rest s) d c)) in *.
    cbn [update_last_scanned _save_registry with_registry tick registry].
    rewrite save_snapshot_registry.
    destruct (find_drive_in_registry_stamped (PyStr.upper c)
                (utc_stamp pf (after_save (save_snapshot pf s1 (PyStr.upper c) d
                   (scan_directory_tree (mounts pf (Drive.mount_point d)) 2))))
                (registry s1) d e He) as (e' & He' & Hs).
    exists e'. split; [exact He'|].
    apply same_identity_fields in Hs as [? _]. congruence.
Qed.

Lemma first_run_makes_known pf drives : ∀ s log s',
  Forall (λ d, PyStr.truthy (Drive.device_identifier d) = true ∨
               PyStr.truthy (Drive.volume_uuid d) = true) drives →
  scan_all_drives pf s drives = (log, s') →
  Forall (λ r, ∃ i dirs, r = Scanned i dirs) log →
  all_known (registry s') drives log.
Proof.
  induction drives as [|d rest IH]; intros s log s' Ht Hrun Hlog.
  - simpl in Hrun. injection Hrun as <- <-. constructor.
  - apply Forall_cons in Ht as [Htd Ht]. simpl in Hrun.
    destruct (process_drive pf s d) as [r s1] eqn:Hp.
    destruct (scan_all_drives pf s1 rest) as [log1 s2] eqn:Hrest.
    destruct r as [i dirs| |].
    + injection Hrun as <- <-. apply Forall_cons in Hlog as [_ Hlog].
      constructor; [|by eapply IH].
      destruct (process_drive_scanned_known pf s d i dirs s1 Htd Hp)
        as (e & He & <-).
      pose proof (scan_all_drives_steps pf rest s1) as Hsteps.
      rewrite Hrest in Hsteps. simpl in Hsteps.
      destruct (steps_keep_known pf s1 s2 d e Hsteps He) as (e' & He' & Hs).
      exists e', dirs. split; [done|].
      apply same_identity_fields in Hs as [-> _]. done.
    + injection Hrun as <- <-. apply Forall_cons in Hlog as [(? & ? & [=]) _].
    + injection Hrun as <- <-. apply Forall_cons in Hlog as [(? & ? & [=]) _].
Qed.

Lemma known_run pf drives : ∀ s log0,
  all_known (registry s) drives log0 →
  Forall2 (λ d r, ∃ i dirs, r = Scanned i dirs ∧
             dirs = scan_directory_tree (mounts pf (Drive.mount_point d)) 2 ∧
             refused pf i = false)
    drives log0 →
  ∃ s', scan_all_drives pf s drives = (log0, s') ∧
        map Location.id (registry s') = map Location.id (registry s) ∧
        stdin s' = stdin s.
Proof.
  induction drives as [|d rest IH]; intros s log0 Hk Hd.
  - apply Forall2_nil_inv_l in Hk as ->. by exists s.
  - apply Forall2_cons_inv_l in Hk as (r & log1 & (e & dirs & He & ->) & Hk & ->).
    apply Forall2_cons in Hd as [(i & dirs' & [= <- <-] & Hdirs & Hw) Hd].
    simpl. rewrite (process_drive_known_round pf s d e He Hw), <- Hdirs.
    set (s0 := after_save (save_snapshot pf s (Location.id e) d dirs)).
    assert (Hreg : registry s0 = registry s) by apply save_snapshot_registry.
    assert (Hin0 : stdin s0 = stdin s) by apply save_snapshot_keeps.
    set (s1 := update_last_scanned pf s0 (Location.id e)).
    destruct (IH s1 log1) as (s' & Hrun & Hids & Hin); [|done|].
    + eapply Forall2_impl; [exact Hk|].
      intros d0 r0 (e0 & dirs0 & He0 & ->).
      subst s1. cbn [update_last_scanned _save_registry with_registry tick registry].
      rewrite Hreg.
      destruct (find_drive_in_registry_stamped (Location.id e)
                  (utc_stamp pf s0) (registry s) d0 e0 He0) as (e1 & He1 & Hs).
      exists e1, dirs0. split; [exact He1|].
      by apply same_identity_fields in Hs as [-> _].
    + exists s'. rewrite Hrun. split; [done|]. split.
      * rewrite Hids. subst s1. simpl. rewrite Hreg. apply stamp_first_ids.
      * rewrite Hin. subst s1. simpl. exact Hin0.
Qed.

Lemma scanned_rounds_carry_scan pf drives : ∀ s log s',
  scan_all_drives pf s drives = (log, s') →
  Forall (λ r, ∃ i dirs, r = Scanned i dirs) log →
  Forall2 (λ d r, ∃ i dirs, r = Scanned i dirs ∧
             dirs = scan_directory_tree (mounts pf (Drive.mount_point d)) 2 ∧
             refused pf i = false)
    drives log.
Proof.
  induction drives as [|d rest IH]; intros s log s' Hrun Hlog.
  - simpl in Hrun. injection Hrun as <- <-. constructor.
  - simpl in Hrun.
    destruct (process_drive pf s d) as [r s1] eqn:Hp.
    destruct (scan_all_drives pf s1 rest) as [log1 s2] eqn:Hrest.
    destruct r as [i dirs| |].
    + injection Hrun as <- <-. apply Forall_cons in Hlog as [_ Hlog].
      constructor; [|by eapply IH].
      apply process_drive_scanned_inv in Hp as (-> & Hw & _). eauto.
    + injection Hrun as <- <-. apply Forall_cons in Hlog as [(? & ? & [=]) _].
    + injection Hrun as <- <-. apply Forall_cons in Hlog as [(? & ? & [=]) _].
Qed.

(** X6. Scanning the same drives again changes no identity: when a run over
    drives that carry a device identifier or a UUID scanned every one of
    them, a second run over the same drives, from any scanner that holds the
    registry the first one left, logs the same rounds with the same ids and
    the same records, registers nothing, and reads nothing at the prompt. *)
Theorem rescan_is_idempotent (pf : Platform) (self self1 self2 : DriveScanner)
    (drives : list Drive.t) (log : list round) :
  Forall (λ d, PyStr.truthy (Drive.device_identifier d) = true ∨
               PyStr.truthy (Drive.volume_uuid d) = true) drives →
  scan_all_drives pf self drives = (log, self1) →
  Forall (λ r, ∃ i dirs, r = Scanned i dirs) log →
  registry self2 = registry self1 →
  ∃ self3,
    scan_all_drives pf self2 drives = (log, self3) ∧
    map Location.id (registry self3) = map Location.id (registry self1) ∧
    stdin self3 = stdin self2.
Proof.
  intros Ht Hrun Hlog Hreg.
  pose proof (first_run_makes_known pf drives self log self1 Ht Hrun Hlog) as Hk.
  pose proof (scanned_rounds_carry_scan pf drives self log self1 Hrun Hlog) as Hd.
  rewrite <- Hreg in Hk.
  destruct (known_run pf drives self2 log Hk Hd) as (s3 & H3 & Hids & Hin).
  exists s3. by rewrite <- Hreg.
Qed.

Lemma rescan_is_idempotent_witness :
  ∃ self3,
    scan_all_drives platform_demo
      (snd (scan_all_drives platform_demo (scanner_demo [] [""]) [usb_stick]))
      [usb_stick]
    = (fst (scan_all_drives platform_demo (scanner_demo [] [""]) [usb_stick]),
       self3) ∧
    map Location.id (registry self3) = ["GROOT"] ∧
    stdin self3 = [].
Proof.
  apply (rescan_is_idempotent platform_demo (scanner_demo [] [""])
           (snd (scan_all_drives platform_demo (scanner_demo [] [""]) [usb_stick]))
           (snd (scan_all_drives platform_demo (scanner_demo [] [""]) [usb_stick]))
           [usb_stick]
           (fst (scan_all_drives platform_demo (scanner_demo [] [""]) [usb_stick]))).
  - constructor; [by left|constructor].
  - apply surjective_pairing.
  - constructor; [|constructor]. eexists _, _. reflexivity.
  - reflexivity.
Defined.

Lemma stamp_first_length drive_id now locations :
  length (stamp_first drive_id now locations) = length locations.
Proof.
  pose proof (stamp_first_ids drive_id now locations) as H.
  apply (f_equal length) in H. by rewrite !length_map in H.
Qed.

(** The ways a round ends in an exception: the prompt ran out of input, or
    the snapshot of a known drive, or of the drive just registered, was
    refused. *)
Lemma process_drive_crashed_inv pf s d s' :
  process_drive pf s d = (Crashed, s') →
  (∃ p rest,
     find_drive_in_registry (registry s) d = None ∧
     _get_available_name (naming_rules s) (registry s)
       (Drive.capacity_bytes d) = Some p ∧
     PyStr.truthy p = true ∧
     _confirm_name (_get_used_names (registry s)) p (stdin s) = (None, rest) ∧
     s' = with_stdin rest s) ∨
  (∃ e, find_drive_in_registry (registry s) d = Some e ∧
        refused pf (Location.id e) = true ∧ s' = tick (tick s)) ∨
  (∃ p c rest,
     find_drive_in_registry (registry s) d = None ∧
     _get_available_name (naming_rules s) (registry s)
       (Drive.capacity_bytes d) = Some p ∧
     PyStr.truthy p = true ∧
     _confirm_name (_get_used_names (registry s)) p (stdin s) = (Some c, rest) ∧
     refused pf (PyStr.upper c) = true ∧
     s' = tick (tick (snd (register_new_drive pf (with_stdin rest s) d c)))).
Proof.
  unfold process_drive, resolve.
  destruct (find_drive_in_registry (registry s) d) as [e|] eqn:Hf.
  { destruct (save_snapshot pf s (Location.id e) d _) as [s1|s1] eqn:Hs; [done|].
    apply save_snapshot_NotSaved in Hs as [Hr ->].
    intros [= <-]. right. left. by exists e. }
  destruct (_get_available_name _ _ _) as [p|] eqn:Ha; [|done].
  destruct (PyStr.truthy p) eqn:Ht; [|done].
  destruct (_confirm_name _ p (stdin s)) as [[c|] rest] eqn:Hc.
  - cbv zeta. cbn [register_new_drive].
    match goal with
    | |- context [save_snapshot pf ?s1 ?i ?d ?ds] =>
        destruct (save_snapshot pf s1 i d ds) as [s2|s2] eqn:Hs; [done|]
    end.
    apply save_snapshot_NotSaved in Hs as [Hr ->].
    intros [= <-]. right. right. by exists p, c, rest.
  - intros [= <-]. left. by exists p, rest.
Qed.

Lemma process_drive_skipped_inv pf s d s' :
  process_drive pf s d = (Skipped, s') → s' = s.
Proof.
  unfold process_drive, resolve.
  destruct (find_drive_in_registry (registry s) d) as [e|].
  { by destruct (save_snapshot pf s (Location.id e) d _). }
  destruct (_get_available_name _ _ _) as [p|]; [|by intros [= <-]].
  destruct (PyStr.truthy p); [|by intros [= <-]].
  destruct (_confirm_name _ p (stdin s)) as [[c|] rest]; [|done].
  cbv zeta. cbn [register_new_drive].
  match goal with
  | |- context [save_snapshot pf ?s1 ?i ?d ?ds] =>
      by destruct (save_snapshot pf s1 i d ds)
  end.
Qed.

(** X7. The round of a new drive, whose proposed name went through the
    prompt, appends one entry and touches no other; the entry's id and its
    name are both the confirmed uppercase name and [first_seen] is the time
    of registration; the registry file holds the result, and the prompt
    lines read are gone.  When the snapshot can be written the round is
    [Scanned] and [last_scanned] is the later time of the update.  When the
    file system refuses the snapshot, as for a confirmed name that holds a
    slash naming a directory that does not exist, the exception ends the
    round after the registration: the round is [Crashed], the drive stays
    registered with [last_scanned] still the time of registration, and no
    snapshot exists. *)
Theorem new_drive_round (pf : Platform) (self : DriveScanner) (d : Drive.t)
    (proposed_name confirmed_name : string) (rest : list string) :
  find_drive_in_registry (registry self) d = None →
  _get_available_name (naming_rules self) (registry self)
    (Drive.capacity_bytes d) = Some proposed_name →
  PyStr.truthy proposed_name = true →
  _confirm_name (_get_used_names (registry self)) proposed_name (stdin self)
    = (Some confirmed_name, rest) →
  let self' := snd (process_drive pf self d) in
  let entry last_scanned :=
    {| Location.id := confirmed_name;
       Location.kind := "external_drive";
       Location.volume_uuid := Some (Drive.volume_uuid d);
       Location.device_identifier := Some (Drive.device_identifier d);
       Location.name := confirmed_name;
       Location.capacity_bytes := Drive.capacity_bytes d;
       Location.first_seen := utcnow_isoformat pf (clock self) +:+ "Z";
       Location.last_scanned := last_scanned;
       Location.status := "active" |} in
  registry_file self' = Some (registry self') ∧
  stdin self' = rest ∧
  (refused pf confirmed_name = false →
   fst (process_drive pf self d)
   = Scanned confirmed_name
       (scan_directory_tree (mounts pf (Drive.mount_point d)) 2) ∧
   registry self' =
     (registry self ++
      [entry (utcnow_isoformat pf (3 + clock self) +:+ "Z")])%list ∧
   clock self' = (4 + clock self)%nat) ∧
  (refused pf confirmed_name = true →
   fst (process_drive pf self d) = Crashed ∧
   registry self' =
     (registry self ++
      [entry (utcnow_isoformat pf (clock self) +:+ "Z")])%list ∧
   snapshot_files self' = snapshot_files self ∧
   clock self' = (3 + clock self)%nat).
Proof.
  intros Hf Ha Ht Hc self' entry. subst self' entry.
  pose proof (get_available_name_fresh _ _ _ _ Ha) as Hfresh.
  destruct (confirm_name_fresh _ _ _ _ _ Hc Hfresh) as [Hnew Hup].
  unfold process_drive, resolve. rewrite Hf, Ha, Ht, Hc.
  cbv zeta. cbn [register_new_drive]. rewrite Hup.
  match goal with
  | |- context [save_snapshot pf ?s1 ?i ?d ?ds] =>
      set (s0 := s1); set (dirs := ds);
      pose proof (save_snapshot_keeps pf s0 i d dirs) as (_ & Hreg & Hfile & Hin & Hck)
  end.
  destruct (refused pf confirmed_name) eqn:Hr.
  - rewrite (save_snapshot_refused _ _ _ _ _ Hr) in *.
    split; [done|]. split; [done|]. split; [done|]. intros _. done.
  - rewrite (save_snapshot_not_refused _ _ _ _ _ Hr).
    cbn [fst snd] in *. unfold update_last_scanned.
    cbn [_save_registry with_registry tick registry registry_file stdin clock].
    rewrite Hreg, Hin, Hck. unfold utc_stamp. rewrite Hck.
    split; [done|]. split; [done|]. split; [|done]. intros _.
    split; [done|]. split; [|done].
    subst s0. cbn [_save_registry with_registry with_stdin tick registry clock].
    rewrite stamp_first_hit; [done|done|].
    intros x Hx Hid. apply Hnew, elem_of_used_names.
    rewrite <- Hid. apply list_elem_of_fmap. by exists x.
Qed.

(** A name with a slash typed at the prompt: the drive is registered and
    the run ends in the exception out of [open]. *)
Lemma new_drive_round_witness :
  fst (process_drive platform_demo (scanner_demo [] ["a/b"]) usb_stick) = Crashed ∧
  map Location.id
    (registry (snd (process_drive platform_demo (scanner_demo [] ["a/b"]) usb_stick)))
  = ["A/B"].
Proof.
  destruct (new_drive_round platform_demo (scanner_demo [] ["a/b"]) usb_stick
              "Groot" "A/B" [] eq_refl eq_refl eq_refl eq_refl)
    as (_ & _ & _ & H).
  destruct (H eq_refl) as (H1 & H2 & _). split; [exact H1|]. by rewrite H2.
Defined.

(** ** Whole runs *)

Lemma process_drive_round_cases pf s d :
  let '(r, s') := process_drive pf s d in
  match r with
  | Scanned i dirs =>
      registry_file s' = Some (registry s') ∧
      (length (registry s') <= S (length (registry s)))%nat
  | Skipped => s' = s
  | Crashed =>
      snapshot_files s' = snapshot_files s ∧
      (registry s' = registry s ∧ registry_file s' = registry_file s ∨
       registry_file s' = Some (registry s') ∧
       length (registry s') = S (length (registry s))) ∧
      (stdin s' = [] ∨
       ∃ e, e ∈ registry s' ∧ refused pf (Location.id e) = true)
  end.
Proof.
  destruct (process_drive pf s d) as [[i dirs| |] s'] eqn:Hp.
  - apply process_drive_scanned_inv in Hp
      as (_ & _ & [(e & _ & _ & ->)|(p & c & rest & _ & _ & _ & _ & _ & ->)]).
    + cbn [update_last_scanned _save_registry with_registry tick registry
           registry_file].
      split; [done|]. rewrite stamp_first_length, save_snapshot_registry. lia.
    + cbn [update_last_scanned _save_registry with_registry tick registry
           registry_file].
      split; [done|]. rewrite stamp_first_length, save_snapshot_registry.
      simpl. rewrite length_app. simpl. lia.
  - by apply process_drive_skipped_inv in Hp.
  - apply process_drive_crashed_inv in Hp
      as [(p & rest & _ & _ & _ & Hc & ->)|
          [(e & Hf & Hr & ->)|(p & c & rest & _ & _ & _ & _ & Hr & ->)]].
    + split; [done|]. split; [by left|]. left. simpl.
      pose proof (confirm_name_outcome (_get_used_names (registry s)) p (stdin s))
        as Ho.
      rewrite Hc in Ho. by destruct Ho.
    + split; [done|]. split; [by left|]. right. exists e. split; [|done].
      by apply find_drive_in_registry_elem in Hf as [? _].
    + split; [done|]. split.
      * right. simpl. split; [done|]. rewrite length_app. simpl. lia.
      * right. simpl. eexists. split; [apply elem_of_app; right; by left|].
        simpl. done.
Qed.

Lemma registry_file_follows_registry_aux pf drives : ∀ s,
  registry_file s = Some (registry s) →
  registry_file (snd (scan_all_drives pf s drives))
  = Some (registry (snd (scan_all_drives pf s drives))).
Proof.
  induction drives as [|d rest IH]; intros s H; [done|]. simpl.
  pose proof (process_drive_round_cases pf s d) as Hc.
  destruct (process_drive pf s d) as [r s1]. specialize (IH s1).
  destruct (scan_all_drives pf s1 rest) as [log s2]. simpl in *.
  destruct r as [i dirs| |]; simpl.
  - apply IH. by destruct Hc.
  - subst s1. by apply IH.
  - by destruct Hc as (_ & [[-> ->]|[? _]] & _).
Qed.

Lemma step_keeps_rules pf s s' : step pf s s' → naming_rules s' = naming_rules s.
Proof.
  intros [s0 d0 p c rest Ha Hc|s0 i|s0 i d0 ds|s0 rest]; try done.
  apply save_snapshot_keeps.
Qed.

Lemma scan_all_drives_rules pf drives s :
  naming_rules (snd (scan_all_drives pf s drives)) = naming_rules s.
Proof.
  pose proof (scan_all_drives_steps pf drives s) as H.
  induction H as [|s0 s1 s2 Hstep _ IH]; [done|].
  by rewrite IH, (step_keeps_rules _ _ _ Hstep).
Qed.

(** X8. Memory and disk agree at the end of a run: if the registry file
    held the registry when [scan_all_drives] started, or if any drive was
    scanned, the file holds the registry when it ends, also when the run is
    cut short at the prompt. *)
Theorem registry_file_follows_registry (pf : Platform) (self : DriveScanner)
    (drives : list Drive.t) :
  registry_file self = Some (registry self) ∨
  (∃ i dirs, Scanned i dirs ∈ fst (scan_all_drives pf self drives)) →
  registry_file (snd (scan_all_drives pf self drives))
  = Some (registry (snd (scan_all_drives pf self drives))).
Proof.
  revert self. induction drives as [|d rest IH]; intros s H.
  - simpl in *. destruct H as [H|(i & dirs & H)]; [done|].
    by apply elem_of_nil in H.
  - simpl in *. pose proof (process_drive_round_cases pf s d) as Hc.
    destruct (process_drive pf s d) as [r s1].
    specialize (IH s1).
    destruct (scan_all_drives pf s1 rest) as [log s2]. simpl in *.
    destruct r as [i dirs| |]; simpl in *.
    + apply IH. left. by destruct Hc.
    + subst s1. apply IH. destruct H as [H|(i & dirs & H)]; [by left|].
      right. apply elem_of_cons in H as [[=]|H]. eauto.
    + destruct H as [H|(i & dirs & H)];
        [|by apply list_elem_of_singleton in H].
      by destruct Hc as (_ & [[-> ->]|[? _]] & _).
Qed.

Lemma registry_file_follows_registry_witness :
  registry_file
    (snd (scan_all_drives platform_demo (scanner_demo [groot] []) [usb_stick]))
  = Some (registry
    (snd (scan_all_drives platform_demo (scanner_demo [groot] []) [usb_stick]))).
Proof.
  apply registry_file_follows_registry. left. reflexivity.
Defined.

(** X9. The log of a run has one round per drive unless an exception ended
    it: [Crashed] can only be the last round, and the drives after it are
    not processed.  The exception is [EOFError] out of the prompt, with all
    input read by then, or the error out of [open] for the snapshot of a
    drive whose id the registry holds at the end; so a run on a file system
    that refuses no snapshot can only stop at the prompt. *)
Theorem run_stops_only_at_an_exception (pf : Platform) (self : DriveScanner)
    (drives : list Drive.t) :
  let log := fst (scan_all_drives pf self drives) in
  let self' := snd (scan_all_drives pf self drives) in
  (length log <= length drives)%nat ∧
  (Crashed ∉ log → length log = length drives) ∧
  (Crashed ∈ log →
   ∃ before, log = (before ++ [Crashed])%list ∧ (Crashed ∉ before) ∧
     self' = snd (scan_all_drives pf self (take (length log) drives)) ∧
     (stdin self' = [] ∨
      ∃ e, e ∈ registry self' ∧ refused pf (Location.id e) = true) ∧
     ((∀ i, refused pf i = false) → stdin self' = [])).
Proof.
  revert self. induction drives as [|d rest IH]; intros s; simpl.
  - split; [done|]. split; [done|]. by intros ?%elem_of_nil.
  - pose proof (process_drive_round_cases pf s d) as Hc.
    destruct (process_drive pf s d) as [r s1] eqn:Hp.
    specialize (IH s1).
    destruct (scan_all_drives pf s1 rest) as [log s2] eqn:Hrest.
    simpl in IH. destruct IH as (IH1 & IH2 & IH3).
    assert (Hgo : ∀ r0, r0 ≠ Crashed →
      (length (r0 :: log) <= S (length rest))%nat ∧
      (Crashed ∉ r0 :: log → length (r0 :: log) = S (length rest)) ∧
      (Crashed ∈ r0 :: log →
       ∃ before, r0 :: log = (before ++ [Crashed])%list ∧ (Crashed ∉ before) ∧
         s2 = snd (let '(log0, self0) :=
                     scan_all_drives pf s1 (take (length log) rest) in
                   (r0 :: log0, self0)) ∧
         (stdin s2 = [] ∨
          ∃ e, e ∈ registry s2 ∧ refused pf (Location.id e) = true) ∧
         ((∀ i, refused pf i = false) → stdin s2 = []))).
    { intros r0 Hr0. split; [simpl; lia|]. split.
      - intros Hn. simpl. f_equal. apply IH2. intros ?. apply Hn. by right.
      - intros [?|Hin]%elem_of_cons; [done|].
        destruct (IH3 Hin) as (before & -> & Hb & Hs2 & Hwhy).
        exists (r0 :: before). split; [done|]. split.
        + intros [?|?]%elem_of_cons; [by subst|done].
        + split; [|done].
          destruct (scan_all_drives pf s1 (take (length (before ++ [Crashed])) rest)).
          done. }
    destruct r as [i dirs| |]; simpl.
    + rewrite Hp. apply Hgo. done.
    + rewrite Hp. apply Hgo. done.
    + split; [lia|]. split.
      * intros Hn. exfalso. apply Hn. by left.
      * intros _. exists []. split; [done|]. split; [by intros ?%elem_of_nil|].
        rewrite Hp. simpl. split; [done|]. destruct Hc as (_ & _ & Hwhy).
        split; [done|]. intros Hall.
        destruct Hwhy as [?|(e & _ & He)]; [done|]. by rewrite Hall in He.
Qed.

(** Two new drives and the name [a/b] typed for the first: the run ends
    there, on the snapshot of the drive it has just registered, with the
    second drive and a line of input left. *)
Lemma run_stops_only_at_an_exception_witness :
  ∃ e, e ∈ registry (snd (scan_all_drives platform_demo
                            (scanner_demo [] ["a/b"; ""])
                            [usb_stick; usb_stick])) ∧
       refused platform_demo (Location.id e) = true.
Proof.
  destruct (proj2 (proj2 (run_stops_only_at_an_exception platform_demo
                            (scanner_demo [] ["a/b"; ""])
                            [usb_stick; usb_stick])))
    as (before & _ & _ & _ & [Hin|He] & _).
  - vm_compute. constructor.
  - vm_compute in Hin. discriminate Hin.
  - exact He.
Defined.

Lemma step_keeps_entries pf s s' :
  step pf s s' →
  ∀ k e, registry s !! k = Some e →
         ∃ e', registry s' !! k = Some e' ∧ same_identity e e'.
Proof.
  intros [s0 d0 p c rest Ha Hc|s0 i|s0 i d0 ds|s0 rest] k e Hk; simpl.
  - exists e. split; [|apply same_identity_refl]. by apply lookup_app_l_Some.
  - pose proof (stamp_first_pointwise i (utc_stamp pf s0) (registry s0)) as HF.
    destruct (Forall2_lookup_l _ _ _ _ _ HF Hk) as (e' & He' & [->|[_ ->]]).
    + exists e. split; [done|apply same_identity_refl].
    + eexists. split; [exact He'|]. intros t. by destruct e.
  - exists e. split; [|apply same_identity_refl].
    by rewrite save_snapshot_registry.
  - exists e. split; [done|apply same_identity_refl].
Qed.

Lemma steps_keep_entries pf s s' :
  rtc (step pf) s s' →
  ∀ k e, registry s !! k = Some e →
         ∃ e', registry s' !! k = Some e' ∧ same_identity e e'.
Proof.
  induction 1 as [s|s s1 s2 Hstep _ IH]; intros k e Hk.
  - exists e. split; [done|apply same_identity_refl].
  - destruct (step_keeps_entries pf s s1 Hstep k e Hk) as (e1 & H1 & E1).
    destruct (IH k e1 H1) as (e2 & H2 & E2).
    exists e2. split; [done|]. by eapply same_identity_trans.
Qed.

Lemma scan_all_drives_length pf drives : ∀ s,
  (length (registry (snd (scan_all_drives pf s drives)))
   <= length (registry s) + length drives)%nat.
Proof.
  induction drives as [|d rest IH]; intros s; simpl; [lia|].
  pose proof (process_drive_round_cases pf s d) as Hc.
  destruct (process_drive pf s d) as [r s1]. specialize (IH s1).
  destruct (scan_all_drives pf s1 rest) as [log s2]. simpl in IH.
  destruct r; simpl.
  - destruct Hc. lia.
  - subst s1. lia.
  - destruct Hc as (_ & [[-> _]|[_ ->]] & _); lia.
Qed.

(** X10. A run only appends to the registry: every entry that was there
    keeps its position and all its fields except [last_scanned], and at
    most one entry per detected drive is added. *)
Theorem registry_is_append_only (pf : Platform) (self : DriveScanner)
    (drives : list Drive.t) :
  let self' := snd (scan_all_drives pf self drives) in
  (∀ k e, registry self !! k = Some e →
     ∃ e', registry self' !! k = Some e' ∧
       Location.id e' = Location.id e ∧ Location.kind e' = Location.kind e ∧
       Location.volume_uuid e' = Location.volume_uuid e ∧
       Location.device_identifier e' = Location.device_identifier e ∧
       Location.name e' = Location.name e ∧
       Location.capacity_bytes e' = Location.capacity_bytes e ∧
       Location.first_seen e' = Location.first_seen e ∧
       Location.status e' = Location.status e) ∧
  (length (registry self) <= length (registry self')
   <= length (registry self) + length drives)%nat.
Proof.
  intros self'. subst self'.
  pose proof (steps_keep_entries pf _ _ (scan_all_drives_steps pf drives self)) as H.
  split.
  - intros k e Hk. destruct (H k e Hk) as (e' & He' & Hs).
    exists e'. split; [done|]. by apply same_identity_fields.
  - split; [|apply scan_all_drives_length].
    destruct (Nat.eq_dec (length (registry self)) 0%nat) as [->|Hne]; [lia|].
    destruct (lookup_lt_is_Some_2 (registry self) (length (registry self) - 1))
      as [e He]; [lia|].
    destruct (H _ e He) as (e' & He' & _). apply lookup_lt_Some in He'. lia.
Qed.

(** ** Snapshots *)
















(** ** Names *)

Lemma steps_keep_ids pf s s' :
  rtc (step pf) s s' →
  map Location.id (registry s) `prefix_of` map Location.id (registry s').
Proof.
  induction 1 as [s|s s1 s2 Hstep _ IH]; [done|].
  etrans; [by eapply step_keeps_ids|done].
Qed.

(** X13. A name that was registered is never proposed again: after
    [register_new_drive] and any later operations, [_get_available_name]
    returns no name equal to it up to case, for any capacity. *)
Theorem registered_name_is_not_proposed_again (pf : Platform)
    (self self' : DriveScanner) (d : Drive.t) (name : string) :
  rtc (step pf) (snd (register_new_drive pf self d name)) self' →
  ∀ capacity_bytes proposed_name,
    _get_available_name (naming_rules self') (registry self') capacity_bytes
    = Some proposed_name →
    PyStr.upper proposed_name ≠ PyStr.upper name.
Proof.
  intros Hs capacity_bytes m Hm Heq.
  apply get_available_name_fresh in Hm. apply Hm, elem_of_used_names.
  apply steps_keep_ids in Hs as [k Hk]. rewrite Hk, Heq. simpl.
  rewrite map_app. simpl. apply elem_of_app. left.
  apply elem_of_app. right. by left.
Qed.

Lemma registered_name_is_not_proposed_again_witness :
  _get_available_name rules_demo
    (registry (snd (register_new_drive platform_demo (scanner_demo [] [])
                      nova_on_disk9 "thor")))
    (2 * 1024 ^ 4) = Some "Nova" ∧
  PyStr.upper "Nova" ≠ PyStr.upper "thor".
Proof.
  split; [reflexivity|].
  apply (registered_name_is_not_proposed_again platform_demo
           (scanner_demo [] []) _ nova_on_disk9 "thor" (rtc_refl _ _)
           (2 * 1024 ^ 4)).
  reflexivity.
Defined.

(** ** More on the tree scanner *)

Lemma visit_loop_sublist f g (entries : list (string * node)) :
  Forall (λ entry, f (fst entry) (snd entry) `sublist_of`
                   g (fst entry) (snd entry)) entries →
  visit_loop f entries `sublist_of` visit_loop g entries.
Proof.
  induction 1 as [|[item_name item] rest Hitem _ IH]; [done|].
  rewrite !visit_loop_cons. simpl in Hitem.
  destruct item; try done; by apply sublist_app.
Qed.

Lemma visits_sublist n : ∀ k p, visits k p n `sublist_of` visits (S k) p n.
Proof.
  induction n as [st_size|entries IH| | |] using node_tree_ind;
    intros k p; rewrite !(visits_eq _ p); apply sublist_skip;
    try (destruct k; done).
  destruct k as [|k]; [apply sublist_nil_l|].
  apply visit_loop_sublist. eapply Forall_impl; [exact IH|].
  intros [item_name item] H. apply H.
Qed.

Lemma visits_sublist_le n k k' p :
  (k <= k')%nat → visits k p n `sublist_of` visits k' p n.
Proof.
  induction 1 as [|k' _ IH]; [done|].
  etrans; [exact IH|apply visits_sublist].
Qed.

(** X14. Raising [max_depth] only adds records: the result of a scan is a
    subsequence of the result of any deeper scan of the same tree, with the
    same sizes and counts and in the same order. *)
Theorem deeper_scan_extends_shallower (root : node) (max_depth max_depth' : Z) :
  max_depth <= max_depth' →
  scan_directory_tree root max_depth `sublist_of`
  scan_directory_tree root max_depth'.
Proof.
  intros H. destruct (Z.lt_ge_cases max_depth 0) as [Hneg|Hpos].
  { unfold scan_directory_tree at 1. rewrite scan_recursive_guard by done.
    apply sublist_nil_l. }
  rewrite !scan_directory_tree_visits by lia.
  apply (fmap_sublist stat_of), visits_sublist_le. lia.
Qed.

Lemma deeper_scan_extends_shallower_witness :
  scan_directory_tree tree_demo 1 `sublist_of` scan_directory_tree tree_demo 2.
Proof. apply deeper_scan_extends_shallower. lia. Defined.

(** X15. A root that is not a directory that can be listed (a file, a
    missing or special path, a directory without read permission) gives,
    for every [max_depth >= 0], the single record of [/] with size 0 and no
    files: neither an empty result nor an error. *)
Theorem unlistable_root_gives_one_empty_record (root : node) (max_depth : Z) :
  0 <= max_depth →
  (∀ entries, root ≠ Dir entries) →
  scan_directory_tree root max_depth
  = [{| relative_path := "/"; depth := 0; size_bytes := 0; file_count := 0 |}].
Proof.
  intros Hmd Hroot. rewrite scan_directory_tree_visits, visits_eq by done.
  destruct root as [st_size|entries| | |]; [|by destruct (Hroot entries)|..];
    by destruct (Z.to_nat max_depth).
Qed.

Lemma unlistable_root_gives_one_empty_record_witness :
  scan_directory_tree (File 4096) 2
  = [{| relative_path := "/"; depth := 0; size_bytes := 0; file_count := 0 |}].
Proof. apply unlistable_root_gives_one_empty_record; [lia|done]. Defined.

Lemma children_stats_app l1 l2 :
  children_stats (l1 ++ l2) = (children_stats l1 ++ children_stats l2)%list.
Proof. apply filter_app. Qed.

Lemma children_stats_deeper (l : list (list string * node)) :
  Forall (λ x, (2 <= length (fst x))%nat) l →
  children_stats (map stat_of l) = [].
Proof.
  induction 1 as [|x l Hx _ IH]; [done|].
  cbn [map]. unfold children_stats in *. rewrite filter_cons_False; [done|].
  simpl. lia.
Qed.

Lemma children_stats_item k item_name item :
  children_stats (map stat_of (visits k [item_name] item))
  = [stat_of ([item_name], item)].
Proof.
  rewrite visits_eq. cbn [map]. unfold children_stats.
  rewrite filter_cons_True by done. f_equal.
  apply children_stats_deeper. apply Forall_forall. intros x Hx.
  destruct k as [|k]; [by apply elem_of_nil in Hx|].
  destruct item; try by apply elem_of_nil in Hx.
  apply visit_loop_below in Hx as (b & q & _ & ->). simpl. lia.
Qed.

Lemma stat_of_totals p n :
  size_bytes (stat_of (p, n)) = sum_N (files_beneath n) ∧
  file_count (stat_of (p, n)) = N.of_nat (length (files_beneath n)).
Proof.
  unfold stat_of, dir_info. simpl. by rewrite get_dir_size_and_files_total.
Qed.

Lemma children_totals k (entries : list (string * node)) :
  Forall (λ entry, snd entry ≠ Broken) entries →
  let stats :=
    children_stats
      (map stat_of
         (visit_loop (λ item_name item, visits k [item_name] item)
            entries)) in
  sum_N (flat_map item_files entries)
  = (sum_N (direct_files entries) + sum_N (map size_bytes stats))%N ∧
  N.of_nat (length (flat_map item_files entries))
  = (N.of_nat (length (direct_files entries)) + sum_N (map file_count stats))%N.
Proof.
  induction 1 as [|[item_name item] rest Hitem _ IH]; [done|].
  cbn zeta in *. rewrite visit_loop_cons. unfold direct_files in *.
  cbn [flat_map]. rewrite !sum_N_app, !length_app. simpl in Hitem.
  destruct IH as [IH1 IH2].
  destruct item as [st_size|sub| | |]; [| | | |done].
  - unfold item_files at 1 3. cbn [snd sum_N fold_right length]. split; lia.
  - rewrite map_app, children_stats_app, children_stats_item, !map_app, !sum_N_app.
    unfold item_files at 1 3. cbn [snd map].
    destruct (stat_of_totals [item_name] (Dir sub)) as [-> ->].
    cbn [sum_N fold_right length]. split; lia.
  - rewrite map_app, children_stats_app, children_stats_item, !map_app, !sum_N_app.
    unfold item_files at 1 3. cbn [snd map].
    destruct (stat_of_totals [item_name] Locked) as [-> ->].
    cbn [files_beneath sum_N fold_right length]. split; lia.
  - unfold item_files at 1 3. cbn [snd files_beneath sum_N fold_right length].
    split; lia.
Qed.

(** X16. The records of a scan add up: when the scan goes at least one
    level deep and every item listed in the root can be inspected, the
    root's size is the size of the files directly in it plus the sizes
    recorded for its subdirectories, and likewise for the file counts. *)
Theorem root_total_splits_over_children (entries : list (string * node))
    (max_depth : Z) :
  1 <= max_depth →
  Forall (λ entry, snd entry ≠ Broken) entries →
  ∃ root_stat rest,
    scan_directory_tree (Dir entries) max_depth = root_stat :: rest ∧
    size_bytes root_stat
    = (sum_N (direct_files entries)
       + sum_N (map size_bytes (children_stats rest)))%N ∧
    file_count root_stat
    = (N.of_nat (length (direct_files entries))
       + sum_N (map file_count (children_stats rest)))%N.
Proof.
  intros Hmd Hok. rewrite scan_directory_tree_visits, visits_eq by lia.
  destruct (Z.to_nat max_depth) as [|k] eqn:Hk; [lia|].
  cbn [map]. eexists _, _. split; [reflexivity|].
  destruct (stat_of_totals [] (Dir entries)) as [-> ->].
  rewrite files_beneath_Dir. simpl app. apply (children_totals k entries Hok).
Qed.

Lemma root_total_splits_over_children_witness :
  ∃ root_stat rest,
    scan_directory_tree
      (Dir [("a", Dir [("f", File 5)]); ("g", File 7); ("b", Locked)]) 1
    = root_stat :: rest ∧
    size_bytes root_stat = (7 + sum_N (map size_bytes (children_stats rest)))%N.
Proof.
  destruct (root_total_splits_over_children
              [("a", Dir [("f", File 5)]); ("g", File 7); ("b", Locked)] 1)
    as (root_stat & rest & H1 & H2 & _).
  - lia.
  - repeat constructor; discriminate.
  - exists root_stat, rest. split; [exact H1|exact H2].
Defined.

(** ** Detection *)

Lemma describe_volume_Some device info d :
  describe_volume device info = Some d →
  Drive.device_identifier d = device ∧
  Drive.mount_point d ≠ "" ∧ Drive.volume_name d ≠ "" ∧
  str_contains "/CoreSimulator/" (Drive.mount_point d) = false ∧
  Plist.Internal info = Some false ∧
  Plist.DiskImageAlias info = None ∧
  Plist.RAMDisk info ≠ Some true ∧
  Plist.MountPoint info = Some (Drive.mount_point d) ∧
  Plist.VolumeName info = Some (Drive.volume_name d) ∧
  Drive.volume_uuid d = default "" (Plist.VolumeUUID info) ∧
  Drive.capacity_bytes d = default 0 (Plist.TotalSize info) ∧
  Drive.free_bytes d = default 0 (Plist.FreeSpace info) ∧
  Drive.file_system d = default "unknown" (Plist.FilesystemType info).
Proof.
  unfold describe_volume.
  destruct (bool_decide (Plist.Internal info = Some false)) eqn:H1; [|done].
  destruct (negb (String.eqb (default "" (Plist.MountPoint info)) "")) eqn:H2;
    [|done].
  destruct (PyStr.truthy (default "" (Plist.VolumeName info))) eqn:H3; [|done].
  destruct (bool_decide (Plist.DiskImageAlias info ≠ None)) eqn:H4; [done|].
  destruct (str_contains "/CoreSimulator/" (default "" (Plist.MountPoint info)))
    eqn:H5; [done|].
  destruct (default false (Plist.RAMDisk info)) eqn:H6; [done|].
  simpl. intros [= <-]. simpl.
  apply bool_decide_eq_true in H1. apply bool_decide_eq_false in H4.
  apply negb_true_iff, String.eqb_neq in H2. apply truthy_spec in H3.
  repeat split; try done.
  - by destruct (Plist.DiskImageAlias info); [destruct H4|].
  - intros E. by rewrite E in H6.
  - by destruct (Plist.MountPoint info).
  - by destruct (Plist.VolumeName info).
Qed.

Lemma check_volumes_vouched info_of volumes : ∀ acc l,
  Forall (vouched info_of) acc →
  check_volumes info_of volumes acc = Some l → Forall (vouched info_of) l.
Proof.
  induction volumes as [|volume rest IH]; intros acc l Hacc; simpl.
  - by intros [= <-].
  - destruct (Plist.DeviceIdentifier volume) as [device|]; [|by apply IH].
    destruct (PyStr.truthy device) eqn:Ht; [|by apply IH].
    destruct (info_of device) as [info|] eqn:Hi; [|done].
    apply IH. destruct (describe_volume device info) as [d|] eqn:Hd; [|done].
    apply Forall_app. split; [done|]. constructor; [|done].
    pose proof (describe_volume_Some _ _ _ Hd) as [Hdev _].
    split; [rewrite Hdev; by apply truthy_spec|].
    exists info. by rewrite Hdev.
Qed.

Lemma check_disks_vouched info_of disks : ∀ acc l,
  Forall (vouched info_of) acc →
  check_disks info_of disks acc = Some l → Forall (vouched info_of) l.
Proof.
  induction disks as [|disk rest IH]; intros acc l Hacc; simpl.
  - by intros [= <-].
  - destruct (check_volumes info_of _ acc) as [acc'|] eqn:Hv; [|done].
    apply IH. by eapply check_volumes_vouched.
Qed.

Lemma get_external_drives_vouched du :
  Forall (vouched (diskutil_info du)) (get_external_drives du).
Proof.
  unfold get_external_drives. destruct (diskutil_list du) as [disk_list|]; [|done].
  destruct (check_disks _ _ []) as [l|] eqn:H; [|done].
  by eapply check_disks_vouched.
Qed.

(** X17. Every descriptor [get_external_drives] returns comes from a
    successful [diskutil info] answer for its device that says the volume
    is external, mounted, named, not a disk image, not under
    [/CoreSimulator/] and not a RAM disk; its device identifier, name and
    mount point are not empty, and absent size or UUID keys read as 0 and
    the empty string. *)
Theorem detected_drives_pass_the_filter (du : Diskutil) :
  Forall (λ d,
    Drive.device_identifier d ≠ "" ∧
    Drive.mount_point d ≠ "" ∧ Drive.volume_name d ≠ "" ∧
    str_contains "/CoreSimulator/" (Drive.mount_point d) = false ∧
    ∃ info,
      diskutil_info du (Drive.device_identifier d) = Some info ∧
      Plist.Internal info = Some false ∧
      Plist.DiskImageAlias info = None ∧
      Plist.RAMDisk info ≠ Some true ∧
      Plist.MountPoint info = Some (Drive.mount_point d) ∧
      Plist.VolumeName info = Some (Drive.volume_name d) ∧
      Drive.volume_uuid d = default "" (Plist.VolumeUUID info) ∧
      Drive.capacity_bytes d = default 0 (Plist.TotalSize info) ∧
      Drive.free_bytes d = default 0 (Plist.FreeSpace info))
    (get_external_drives du).
Proof.
  eapply Forall_impl; [apply get_external_drives_vouched|].
  intros d (Hdev & info & Hi & Hd).
  apply describe_volume_Some in Hd
    as (_ & ? & ? & ? & ? & ? & ? & ? & ? & ? & ? & ? & _).
  split; [done|]. split; [done|]. split; [done|]. split; [done|].
  exists info. done.
Qed.

Lemma check_volumes_fails info_of volumes volume device : ∀ acc,
  volume ∈ volumes → Plist.DeviceIdentifier volume = Some device →
  device ≠ "" → info_of device = None →
  check_volumes info_of volumes acc = None.
Proof.
  intros acc Hin Hdev Hne Hinfo. revert acc.
  induction volumes as [|v rest IH]; intros acc; [by apply elem_of_nil in Hin|].
  apply truthy_spec in Hne. simpl.
  apply elem_of_cons in Hin as [<-|Hin].
  - by rewrite Hdev, Hne, Hinfo.
  - specialize (IH Hin).
    destruct (Plist.DeviceIdentifier v) as [dv|]; [|apply IH].
    destruct (PyStr.truthy dv); [|apply IH].
    destruct (info_of dv); [apply IH|done].
Qed.

Lemma check_disks_fails info_of disks disk volume device : ∀ acc,
  disk ∈ disks →
  volume ∈ (default [] (Plist.Partitions disk) ++
            default [] (Plist.APFSVolumes disk))%list →
  Plist.DeviceIdentifier volume = Some device →
  device ≠ "" → info_of device = None →
  check_disks info_of disks acc = None.
Proof.
  intros acc Hin Hv Hdev Hne Hinfo. revert acc.
  induction disks as [|x rest IH]; intros acc; [by apply elem_of_nil in Hin|].
  simpl. apply elem_of_cons in Hin as [<-|Hin].
  - by rewrite (check_volumes_fails info_of _ volume device acc Hv Hdev Hne Hinfo).
  - destruct (check_volumes info_of _ acc); [by apply IH|done].
Qed.

(** X18. One failed [diskutil] call hides every drive: when the list call
    fails, or the info call fails for any listed volume with a device
    identifier, [get_external_drives] returns the empty list, whatever the
    other volumes are. *)
Theorem one_failed_query_hides_all_drives (du : Diskutil) :
  diskutil_list du = None ∨
  (∃ disks disk volume device,
     diskutil_list du = Some (Some disks) ∧ disk ∈ disks ∧
     volume ∈ (default [] (Plist.Partitions disk) ++
               default [] (Plist.APFSVolumes disk))%list ∧
     Plist.DeviceIdentifier volume = Some device ∧ device ≠ "" ∧
     diskutil_info du device = None) →
  get_external_drives du = [].
Proof.
  unfold get_external_drives.
  intros [->|(disks & disk & volume & device & -> & Hd & Hv & Hdev & Hne & Hi)];
    [done|].
  simpl. by rewrite (check_disks_fails _ disks disk volume device [] Hd Hv Hdev Hne Hi).
Qed.

Lemma one_failed_query_hides_all_drives_witness :
  get_external_drives diskutil_demo = [usb_stick] ∧
  get_external_drives diskutil_failing = [].
Proof.
  split; [reflexivity|].
  apply one_failed_query_hides_all_drives. right.
  eexists _, _, {| Plist.DeviceIdentifier := Some "disk5s0" |}, "disk5s0".
  split; [reflexivity|]. split; [by left|]. split; [by left|]. done.
Defined.

(** ** The program as a whole *)

Lemma detected_drives_have_devices du :
  Forall (λ d, PyStr.truthy (Drive.device_identifier d) = true ∨
               PyStr.truthy (Drive.volume_uuid d) = true)
    (get_external_drives du).
Proof.
  eapply Forall_impl; [apply get_external_drives_vouched|].
  intros d (Hdev & _). left. by apply truthy_spec.
Qed.

(** X19. How [main] ends.  It exits exactly when the naming rules cannot be
    loaded or the registry file is not valid JSON, and then the registry
    file is as it was: a missing one is not created.  Otherwise the registry
    file exists at the end and holds the registry in memory, the entries
    loaded from it are still there in their order, and a registry that
    started from a missing file has ids that are unique up to case. *)
Theorem main_outcome (pf : Platform) (du : Diskutil) (start : Startup) :
  match main pf du start with
  | Exit registry_after =>
      registry_after = drives_registry_file start ∧
      ((∀ rules, naming_rules_file start ≠ Parsed rules) ∨
       drives_registry_file start = Invalid)
  | Ran log self =>
      naming_rules_file start = Parsed (naming_rules self) ∧
      drives_registry_file start ≠ Invalid ∧
      registry_file self = Some (registry self) ∧
      (∀ prior, drives_registry_file start = Parsed prior →
         map Location.id prior `prefix_of` map Location.id (registry self)) ∧
      (drives_registry_file start = Missing →
         NoDup (map (λ l, PyStr.upper (Location.id l)) (registry self)))
  end.
Proof.
  unfold main.
  destruct (naming_rules_file start) as [| |rules] eqn:Hr; simpl;
    [split; [done|by left]..|].
  pose (init := λ locations,
    {| naming_rules := rules; registry := locations;
       registry_file := Some locations; snapshot_files := snapshots_dir start;
       stdin := terminal start; clock := 0 |}).
  assert (Hrun : ∀ locations,
    let '(log, s) := scan_all_drives pf (init locations) (get_external_drives du) in
    naming_rules s = rules ∧ registry_file s = Some (registry s) ∧
    map Location.id locations `prefix_of` map Location.id (registry s) ∧
    (locations = [] →
     NoDup (map (λ l, PyStr.upper (Location.id l)) (registry s)))).
  { intros locations.
    pose proof (registry_file_follows_registry_aux pf (get_external_drives du)
                  (init locations)) as H1.
    pose proof (steps_keep_ids pf _ _
                  (scan_all_drives_steps pf (get_external_drives du) (init locations)))
      as H2.
    pose proof (scan_all_drives_reachable pf (get_external_drives du)
                  (init locations)) as H3.
    pose proof (scan_all_drives_rules pf (get_external_drives du) (init locations))
      as H4.
    destruct (scan_all_drives pf (init locations) (get_external_drives du))
      as [log s]. simpl in *.
    split; [done|]. split; [by apply H1|]. split; [done|].
    intros ->. apply ids_canonical_unique, reachable_ids_canonical with pf.
    apply H3. by constructor. }
  destruct (drives_registry_file start) as [| |prior] eqn:Hd; simpl.
  - specialize (Hrun []). fold (init []).
    destruct (scan_all_drives pf (init []) (get_external_drives du)) as [log s].
    destruct Hrun as (-> & ? & ? & ?). repeat split; try done. auto.
  - split; [done|by right].
  - specialize (Hrun prior). fold (init prior).
    destruct (scan_all_drives pf (init prior) (get_external_drives du)) as [log s].
    destruct Hrun as (-> & ? & ? & ?). repeat split; try done.
    by intros ? [= <-].
Qed.

Lemma main_Ran_inv pf du start log s :
  main pf du start = Ran log s →
  ∃ init, scan_all_drives pf init (get_external_drives du) = (log, s).
Proof.
  unfold main.
  destruct (_load_naming_rules (naming_rules_file start)) as [rules|]; [|done].
  destruct (_load_registry (drives_registry_file start)) as [[locations file]|];
    [|done].
  match goal with |- context [scan_all_drives pf ?i _] => exists i end.
  destruct (scan_all_drives pf _ (get_external_drives du)) as [log0 s0].
  by injection H as <- <-.
Qed.

(** X20. Running the program again on the same attached drives asks
    nothing and renames nothing: if a run of [main] scanned every detected
    drive, then a later run that starts from the registry file it left,
    with any loadable naming rules and any terminal input, logs the same
    rounds under the same ids, adds no entry and reads no line. *)
Theorem main_rerun_keeps_identities (pf : Platform) (du : Diskutil)
    (start start2 : Startup) (log : list round) (self1 : DriveScanner)
    (rules2 : NamingRules) :
  main pf du start = Ran log self1 →
  Forall (λ r, ∃ i dirs, r = Scanned i dirs) log →
  naming_rules_file start2 = Parsed rules2 →
  drives_registry_file start2 = Parsed (registry self1) →
  ∃ self2,
    main pf du start2 = Ran log self2 ∧
    map Location.id (registry self2) = map Location.id (registry self1) ∧
    stdin self2 = terminal start2.
Proof.
  intros (init & Hrun)%main_Ran_inv Hlog Hr Hd.
  pose proof (first_run_makes_known pf _ init log self1
                (detected_drives_have_devices du) Hrun Hlog) as Hk.
  pose proof (scanned_rounds_carry_scan pf _ init log self1 Hrun Hlog) as Hs.
  unfold main. rewrite Hr, Hd. simpl.
  match goal with |- context [scan_all_drives pf ?i _] => set (init2 := i) end.
  destruct (known_run pf (get_external_drives du) init2 log Hk Hs)
    as (s2 & -> & Hids & Hin).
  by exists s2.
Qed.

Lemma main_rerun_keeps_identities_witness :
  ∃ self2,
    main platform_demo diskutil_demo
      {| naming_rules_file := Parsed rules_demo;
         drives_registry_file :=
           Parsed (registry (snd (scan_all_drives platform_demo
                                    (scanner_demo [] [""]) [usb_stick])));
         snapshots_dir := ∅; terminal := [] |}
    = Ran (fst (scan_all_drives platform_demo (scanner_demo [] [""]) [usb_stick]))
        self2 ∧
    map Location.id (registry self2) = ["GROOT"] ∧
    stdin self2 = [].
Proof.
  destruct (main_rerun_keeps_identities platform_demo diskutil_demo startup_demo
    {| naming_rules_file := Parsed rules_demo;
       drives_registry_file :=
         Parsed (registry (snd (scan_all_drives platform_demo
                                  (scanner_demo [] [""]) [usb_stick])));
       snapshots_dir := ∅; terminal := [] |}
    (fst (scan_all_drives platform_demo (scanner_demo [] [""]) [usb_stick]))
    (snd (scan_all_drives platform_demo (scanner_demo [] [""]) [usb_stick]))
    rules_demo) as (self2 & H1 & H2 & H3).
  - reflexivity.
  - constructor; [|constructor]. eexists _, _. reflexivity.
  - reflexivity.
  - reflexivity.
  - exists self2. split; [exact H1|]. split; [exact H2|exact H3].
Defined.

(** ** Sizes for display *)

Lemma below_1024_float x (m : Z) (p : positive) :
  x == m # p → below_1024 (PyFloat x) = (m <? 1024 * Zpos p).
Proof.
  intros Hx. simpl.
  destruct (Qle_bool 1024 x) eqn:H.
  - apply Qle_bool_iff in H. rewrite Hx in H. unfold Qle in H. simpl in H.
    symmetry. apply Z.ltb_ge. lia.
  - symmetry. apply Z.ltb_lt.
    destruct (Z.lt_ge_cases m (1024 * Z.pos p)) as [?|Hge]; [done|].
    assert (Qle_bool 1024 x = true); [|congruence].
    apply Qle_bool_iff. rewrite Hx. unfold Qle. simpl. lia.
Qed.

Lemma div_1024_float x (m : Z) (p : positive) :
  x == m # p → x / 1024 == m # (p * 1024).
Proof.
  intros ->. unfold Qeq, Qdiv, Qmult, Qinv. simpl. lia.
Qed.

Lemma format_loop_ladder units : ∀ x (m : Z) (p : positive),
  x == m # p →
  (∀ k unit, units !! k = Some unit →
     Zpos p * 1024 ^ Z.of_nat k <= m < Zpos p * 1024 ^ Z.of_nat (S k) →
     ∃ y, y * inject_Z (Zpos p * 1024 ^ Z.of_nat k) == inject_Z m ∧
          format_loop units (PyFloat x) = format_1f y +:+ " " +:+ unit) ∧
  (Zpos p * 1024 ^ Z.of_nat (length units) <= m →
   ∃ y, y * inject_Z (Zpos p * 1024 ^ Z.of_nat (length units)) == inject_Z m ∧
        format_loop units (PyFloat x) = format_1f y +:+ " PB").
Proof.
  assert (Hbase : ∀ x (m : Z) (p : positive),
            x == m # p → x * inject_Z (Zpos p * 1024 ^ 0) == inject_Z m).
  { intros x m p ->. unfold Qeq, Qmult, inject_Z. simpl. lia. }
  assert (Hshift : ∀ (p : positive) (k : nat),
            Zpos (p * 1024) * 1024 ^ Z.of_nat k = Zpos p * 1024 ^ Z.of_nat (S k)).
  { intros p k. rewrite Nat2Z.inj_succ, Z.pow_succ_r, Pos2Z.inj_mul by lia. lia. }
  induction units as [|unit rest IH]; intros x m p Hx.
  - split; [intros k unit' [=]|]. intros _. exists x. split; [|done].
    by apply Hbase.
  - cbn [format_loop as_float]. rewrite (below_1024_float x m p Hx).
    destruct (IH (x / 1024)%Q m (p * 1024)%positive (div_1024_float x m p Hx))
      as [IH1 IH2].
    split.
    + intros [|k] unit' Hk [Hlo Hhi].
      * injection Hk as <-. rewrite (proj2 (Z.ltb_lt _ _)) by (simpl in *; lia).
        exists x. split; [|done]. by apply Hbase.
      * rewrite <- Hshift in Hlo. rewrite <- (Hshift p (S k)) in Hhi.
        assert (0 < 1024 ^ Z.of_nat k) by (apply Z.pow_pos_nonneg; lia).
        rewrite (proj2 (Z.ltb_ge _ _)) by (rewrite Pos2Z.inj_mul in Hlo; nia).
        destruct (IH1 k unit' Hk) as (y & Hy & ->); [done|].
        exists y. split; [|done]. by rewrite <- Hshift.
    + simpl length. intros Hlo. rewrite <- Hshift in Hlo.
      assert (0 < 1024 ^ Z.of_nat (length rest)) by (apply Z.pow_pos_nonneg; lia).
      rewrite (proj2 (Z.ltb_ge _ _)) by (rewrite Pos2Z.inj_mul in Hlo; nia).
      destruct (IH2 Hlo) as (y & Hy & ->).
      exists y. split; [|done]. by rewrite <- Hshift.
Qed.

Lemma string_app_assoc a b c : (a +:+ b) +:+ c = a +:+ (b +:+ c).
Proof.
  induction a as [|x a IH]; [done|].
  change (String x ((a +:+ b) +:+ c) = String x (a +:+ (b +:+ c))).
  by rewrite IH.
Qed.

Lemma format_loop_cons unit rest v :
  format_loop (unit :: rest) v =
  if below_1024 v then format_1f (as_float v) +:+ " " +:+ unit
  else format_loop rest (PyFloat (as_float v / 1024)).
Proof. reflexivity. Qed.

Lemma format_1f_int (m : Z) :
  0 <= m → format_1f (inject_Z m) = pretty (Z.to_N m) +:+ ".0".
Proof.
  intros Hm. unfold format_1f, inject_Z. cbn [Qnum Qden].
  rewrite Z.abs_eq by done.
  rewrite Z.div_1_r, Z.mod_1_r.
  change ((1 <? 2 * 0) || (2 * 0 =? 1) && Z.odd (m * 10)) with false.
  cbv iota. rewrite (proj2 (Z.ltb_ge _ _)) by done.
  rewrite Z.div_mul, Z.mod_mul by done. reflexivity.
Qed.

(** X21. [format_bytes] climbs one unit per factor of 1024 and stops at PB:
    a value below 1024 (negative ones included) is printed in B, as the
    integer with [.0] when it is not negative; a value from [1024^k] up to
    [1024^(k+1)], for k from 1 to 4, is printed as that value over [1024^k]
    in KB, MB, GB or TB; from [1024^5] on the unit is PB, and the number
    printed is no longer below 1024. *)
Theorem format_bytes_units (n : Z) :
  (n < 1024 →
   format_bytes n = format_1f (inject_Z (round_to_double n)) +:+ " B") ∧
  (0 <= n < 1024 → format_bytes n = pretty (Z.to_N n) +:+ ".0 B") ∧
  (∀ k unit, ["KB"; "MB"; "GB"; "TB"] !! k = Some unit →
     1024 ^ Z.of_nat (S k) <= n < 1024 ^ Z.of_nat (S (S k)) →
     ∃ y, y * inject_Z (1024 ^ Z.of_nat (S k)) == inject_Z n ∧
          format_bytes n = format_1f y +:+ " " +:+ unit) ∧
  (1024 ^ 5 <= n →
   ∃ y, y * inject_Z (1024 ^ 5) == inject_Z (round_to_double n) ∧
        format_bytes n = format_1f y +:+ " PB").
Proof.
  assert (HB : n < 1024 →
    format_bytes n = format_1f (inject_Z (round_to_double n)) +:+ " B").
  { intros H. unfold format_bytes. rewrite format_loop_cons. cbn [below_1024 as_float].
    by rewrite (proj2 (Z.ltb_lt _ _)). }
  assert (Hx : ∀ m : Z, (inject_Z m / 1024 == m # 1024)%Q).
  { intros m. unfold Qeq, Qdiv, Qmult, Qinv, inject_Z. simpl. lia. }
  split; [exact HB|]. split; [|split].
  - intros [H0 H1]. rewrite HB by done.
    rewrite round_to_double_exact by lia.
    rewrite format_1f_int by done. by rewrite string_app_assoc.
  - intros k unit Hk [Hlo Hhi].
    assert (k < 4)%nat by (by apply lookup_lt_Some in Hk).
    assert (1024 ^ Z.of_nat (S (S k)) <= 1024 ^ 5)
      by (apply Z.pow_le_mono_r; lia).
    assert (1024 <= 1024 ^ Z.of_nat (S k))
      by (change 1024 with (1024 ^ 1) at 1; apply Z.pow_le_mono_r; lia).
    unfold format_bytes. rewrite format_loop_cons. cbn [below_1024 as_float].
    rewrite (proj2 (Z.ltb_ge _ _)) by lia.
    rewrite round_to_double_exact by lia.
    destruct (format_loop_ladder ["KB"; "MB"; "GB"; "TB"] _ n 1024 (Hx n))
      as [HL _].
    destruct (HL k unit Hk) as (y & Hy & ->).
    { rewrite !Nat2Z.inj_succ, !Z.pow_succ_r in * by lia. lia. }
    exists y. split; [|done].
    rewrite Nat2Z.inj_succ, Z.pow_succ_r by lia. exact Hy.
  - intros Hlo.
    assert (Hr : 1024 ^ 5 <= round_to_double n).
    { rewrite <- (round_to_double_exact (1024 ^ 5)) at 1 by (simpl; lia).
      apply round_to_double_mono. lia. }
    unfold format_bytes. rewrite format_loop_cons. cbn [below_1024 as_float].
    rewrite (proj2 (Z.ltb_ge _ _)) by lia.
    destruct (format_loop_ladder ["KB"; "MB"; "GB"; "TB"] _
                (round_to_double n) 1024 (Hx _)) as [_ HL].
    destruct HL as (y & Hy & ->); [exact Hr|]. by exists y.
Qed.

Lemma format_bytes_units_witness :
  format_bytes 512 = "512.0 B" ∧
  ∃ y, y * inject_Z (1024 ^ 1) == inject_Z 1536 ∧ format_bytes 1536 = format_1f y +:+ " KB".
Proof.
  destruct (format_bytes_units 512) as (_ & H & _).
  destruct (format_bytes_units 1536) as (_ & _ & H' & _).
  split; [apply H; lia|]. apply (H' 0%nat "KB"); [reflexivity|lia].
Defined.

(** ** Time stamps *)

Lemma stamp_first_twice drive_id t1 t2 locations :
  stamp_first drive_id t2 (stamp_first drive_id t1 locations)
  = stamp_first drive_id t2 locations.
Proof.
  induction locations as [|l rest IH]; [done|]. simpl.
  destruct (String.eqb (Location.id l) drive_id) eqn:E; simpl; rewrite E.
  - by destruct l.
  - by rewrite IH.
Qed.

Lemma stamp_first_comm i j t u locations :
  i ≠ j →
  stamp_first i t (stamp_first j u locations)
  = stamp_first j u (stamp_first i t locations).
Proof.
  intros Hij. induction locations as [|l rest IH]; [done|]. simpl.
  destruct (String.eqb_spec (Location.id l) j) as [Ej|Ej];
    destruct (String.eqb_spec (Location.id l) i) as [Ei|Ei]; simpl.
  - congruence.
  - rewrite (proj2 (String.eqb_eq _ _) Ej), (proj2 (String.eqb_neq _ _) Ei). done.
  - rewrite (proj2 (String.eqb_eq _ _) Ei), (proj2 (String.eqb_neq _ _) Ej). done.
  - rewrite (proj2 (String.eqb_neq _ _) Ei), (proj2 (String.eqb_neq _ _) Ej).
    by rewrite IH.
Qed.

(** X22. Time stamps compose: updating the same drive twice leaves the
    registry as one update at the later time would, and updating two
    different drives one after the other gives the registry that stamping
    them in the other order, each with its own time, gives. *)
Theorem updates_compose (pf : Platform) (self : DriveScanner) (i j : string) :
  let t0 := utcnow_isoformat pf (clock self) +:+ "Z" in
  let t1 := utcnow_isoformat pf (S (clock self)) +:+ "Z" in
  registry (update_last_scanned pf (update_last_scanned pf self i) i)
  = stamp_first i t1 (registry self) ∧
  (i ≠ j →
   registry (update_last_scanned pf (update_last_scanned pf self i) j)
   = stamp_first i t0 (stamp_first j t1 (registry self))).
Proof.
  intros t0 t1. subst t0 t1. split.
  - simpl. unfold utc_stamp. simpl. apply stamp_first_twice.
  - intros Hij. simpl. unfold utc_stamp. simpl. by rewrite stamp_first_comm.
Qed.

Lemma updates_compose_witness :
  registry (update_last_scanned platform_demo
              (update_last_scanned platform_demo (scanner_demo [thor; nova] [])
                 "THOR") "NOVA")
  = stamp_first "THOR" "2024-03-01T12:00:00Z"
      (stamp_first "NOVA" "2024-03-01T12:00:00Z" [thor; nova]).
Proof.
  apply (proj2 (updates_compose platform_demo (scanner_demo [thor; nova] [])
                  "THOR" "NOVA")).
  discriminate.
Defined.
